(** * A DOM-based HTML sanitizer: shallow embedding of [src/sanitize.js]

    The development follows the source file top to bottom: the policy
    tables, the URL validator, the attribute filter, the link hardener,
    the element classifier acting on a mutable node store, the tree
    walker and the entry point. *)

From Stdlib Require Import ZArith NArith Ascii String.
From stdpp Require Import base decidable option list.

Set Default Proof Using "Type".
Local Open Scope Z_scope.

(* ===================================================================== *)
(** ** JavaScript strings *)
(* ===================================================================== *)

(** A JavaScript string is a sequence of UTF-16 code units. *)
Definition jsstring := list N.

(** String literals of the source are ASCII; [lit] reads one. *)
Definition lit (s : string) : jsstring :=
  List.map N_of_ascii (list_ascii_of_string s).

Definition jseq (a b : jsstring) : bool := bool_decide (a = b).

(** [\s] of ECMAScript regular expressions, which is also the set that
    [String.prototype.trim] strips: WhiteSpace and LineTerminator. *)
Definition isWhiteSpace (u : N) : bool :=
  ((9 <=? u) && (u <=? 13) || (u =? 32) || (u =? 160) || (u =? 0x1680)
   || (0x2000 <=? u) && (u <=? 0x200A) || (u =? 0x2028) || (u =? 0x2029)
   || (u =? 0x202F) || (u =? 0x205F) || (u =? 0x3000) || (u =? 0xFEFF))%N.

(** The character class [[\u0000-\u001F\u007F\s]] of [isSafeUrl]. *)
Definition isControlOrSpace (u : N) : bool :=
  ((u <=? 0x1F) || (u =? 0x7F))%N || isWhiteSpace u.

(** ASCII lower case, as the DOM standard applies it to the name that
    [getAttribute], [setAttribute] and [removeAttribute] are given on an
    HTML element: [A]-[Z] become [a]-[z], every other unit stays. *)
Definition isAsciiUnit (u : N) : bool := (u <? 0x80)%N.

Definition asciiLowerUnit (u : N) : N :=
  (if (0x41 <=? u) && (u <=? 0x5A) then u + 0x20 else u)%N.

Definition asciiLowerCase (s : jsstring) : jsstring :=
  List.map asciiLowerUnit s.

(** Lower case of the Latin-1 range, one code unit at a time: Basic
    Latin, Latin-1 and the code points outside Latin-1 whose lower case
    reaches into it (U+0130, U+0178, U+1E9E, U+212A, U+212B); the other
    code units are left as they are.  It stands in for the engine where an
    example is run, and does what the engine does on a string of that
    range. *)
Definition lowerUnit (u : N) : list N :=
  (if (0x41 <=? u) && (u <=? 0x5A) then [u + 0x20]
   else if (0xC0 <=? u) && (u <=? 0xDE) && negb (u =? 0xD7) then [u + 0x20]
   else if u =? 0x130 then [0x69; 0x307]
   else if u =? 0x178 then [0xFF]
   else if u =? 0x1E9E then [0xDF]
   else if u =? 0x212A then [0x6B]
   else if u =? 0x212B then [0xE5]
   else [u])%N.

Definition latinLowerCase (s : jsstring) : jsstring :=
  List.flat_map lowerUnit s.

Fixpoint dropWhileB (p : N -> bool) (s : jsstring) : jsstring :=
  match s with
  | [] => []
  | u :: s' => if p u then dropWhileB p s' else s
  end.

(** [String.prototype.trim]. *)
Definition trim (s : jsstring) : jsstring :=
  rev (dropWhileB isWhiteSpace (rev (dropWhileB isWhiteSpace s))).

(** [s.replace(/[...]+/g, "")] for a character class: every maximal run
    of matching units is deleted, that is, every matching unit is. *)
Definition removeAll (p : N -> bool) (s : jsstring) : jsstring :=
  List.filter (fun u => negb (p u)) s.

Fixpoint startsWith (s p : jsstring) : bool :=
  match p, s with
  | [], _ => true
  | _ :: _, [] => false
  | c :: p', u :: s' => (c =? u)%N && startsWith s' p'
  end.

(** [s.indexOf(c)] for a one-unit needle: the first position, or [-1]. *)
Fixpoint indexOf (s : jsstring) (c : N) : Z :=
  match s with
  | [] => -1
  | u :: s' =>
      if (u =? c)%N then 0
      else let i := indexOf s' c in if i <? 0 then -1 else i + 1
  end.

(** [s.slice(0, k)] for [0 <= k]. *)
Definition slice0 (s : jsstring) (k : Z) : jsstring := take (Z.to_nat k) s.

Definition colon : N := 58%N.

(* ===================================================================== *)
(** ** Policy tables *)
(* ===================================================================== *)

Definition SAFE_ELEMENTS : list jsstring := List.map lit
  ["a"; "abbr"; "b"; "blockquote"; "br"; "code"; "div"; "em"; "i"; "img";
   "li"; "ol"; "p"; "pre"; "s"; "small"; "span"; "strong"; "sub"; "sup";
   "table"; "tbody"; "td"; "th"; "thead"; "tr"; "u"; "ul"; "hr"; "h1";
   "h2"; "h3"; "h4"; "h5"; "h6"; "section"; "article"; "nav"; "header";
   "footer"]%string.

Definition GLOBAL_ATTRS : list jsstring :=
  List.map lit ["class"; "id"; "title"; "role"]%string.

(** The own properties of the object literal [TAG_ATTRS]. *)
Definition TAG_ATTRS : list (jsstring * list jsstring) :=
  [ (lit "a", List.map lit ["href"; "target"; "rel"]%string);
    (lit "img", List.map lit ["src"; "alt"; "width"; "height"]%string);
    (lit "table", []); (lit "thead", []); (lit "tbody", []);
    (lit "tr", []); (lit "th", []); (lit "td", []) ].

Definition ALWAYS_DROP : list jsstring := List.map lit
  ["script"; "style"; "template"; "iframe"; "object"; "embed";
   "svg"; "math"; "base"; "link"; "meta"]%string.

(** [Set.prototype.has]. *)
Definition has (set : list jsstring) (x : jsstring) : bool :=
  existsb (jseq x) set.

(* ===================================================================== *)
(** ** Outcomes of a call *)
(* ===================================================================== *)

(** What a call can raise.  [TypeError] is the engine's own (calling a
    value that is no function, reading a property of [undefined]);
    [NotFoundError] is the DOM's for [insertBefore] with a reference node
    that is no child of the parent; [NoDomError] is the [Error] that
    [sanitize] throws itself. *)
Inductive error := TypeError | NotFoundError | NoDomError.

(** A call returns, throws, or is still running when the fuel of a loop
    of the model runs out. *)
Inductive outcome (A : Type) :=
| Return (a : A)
| Throw (e : error)
| OutOfFuel.
Arguments Return {A} a.
Arguments Throw {A} e.
Arguments OutOfFuel {A}.

Definition bind {A B} (m : outcome A) (k : A -> outcome B) : outcome B :=
  match m with
  | Return a => k a
  | Throw e => Throw e
  | OutOfFuel => OutOfFuel
  end.

Notation "x <- m ;; k" := (bind m (fun x => k))
  (at level 100, m at next level, right associativity).

(** A [for ... of] loop over an array snapshot, threading the state. *)
Fixpoint forEach {A S} (body : S -> A -> outcome S) (xs : list A) (s : S)
  : outcome S :=
  match xs with
  | [] => Return s
  | x :: xs' => s' <- body s x ;; forEach body xs' s'
  end.

(** Closed instances of [NoDup] and [rep] are settled by evaluation. *)
Ltac prove_NoDup := apply (bool_decide_unpack _); vm_compute; exact I.

Ltac prove_rep := vm_compute; repeat split; try reflexivity; prove_NoDup.

Local Close Scope Z_scope.

(* ===================================================================== *)
(** ** The engine *)
(* ===================================================================== *)

Section Sanitizer.

(** [String.prototype.toLowerCase] is the engine's, not the program's:
    it follows the case tables of the Unicode version the engine was
    built with.  On a string of ASCII units it turns [A]-[Z] into
    [a]-[z] and leaves the rest, whatever the engine; every literal of
    the program is such a string, and that part is written out.  On a
    string with other units the function is taken as the engine has it,
    [unicodeLowerCase]. *)
Variable unicodeLowerCase : jsstring -> jsstring.

Definition toLowerCase (s : jsstring) : jsstring :=
  if forallb isAsciiUnit s then asciiLowerCase s else unicodeLowerCase s.

(** What the properties of walking twice take for granted of the engine:
    lower-casing a lower-cased string changes nothing; and being in
    lower case is a matter of the characters one by one, so that a string
    in lower case cut at a white-space unit leaves two strings in lower
    case, and two strings in lower case joined by a space make one.
    [String.prototype.toLowerCase] is such a function: it maps code point
    by code point and looks at the neighbours of a capital sigma only,
    which it never leaves; no mapping is empty and the one that is longer
    than its code point, that of U+0130, makes the string longer; a
    white-space unit is no half of a surrogate pair. *)
Hypothesis toLowerCase_idem :
  forall s, toLowerCase (toLowerCase s) = toLowerCase s.

Hypothesis toLowerCase_cut :
  forall x w y,
    isWhiteSpace w = true ->
    toLowerCase (x ++ w :: y) = x ++ w :: y ->
    toLowerCase x = x /\ toLowerCase y = y.

Hypothesis toLowerCase_join :
  forall x y,
    toLowerCase x = x -> toLowerCase y = y ->
    toLowerCase (x ++ 32%N :: y) = x ++ 32%N :: y.

(* ===================================================================== *)
(** ** URL validator *)
(* ===================================================================== *)

(** [isSafeUrl(raw)]; [None] stands for [null]/[undefined]. *)
Definition isSafeUrl (raw : option jsstring) : bool :=
  match raw with
  | None => true
  | Some [] => true
  | Some raw =>
      let value := trim raw in
      let compact := toLowerCase (removeAll isControlOrSpace value) in
      if startsWith compact (lit "javascript:") then false
      else if startsWith compact (lit "vbscript:") then false
      else if startsWith compact (lit "data:") then false
      else if startsWith compact (lit "file:") then false
      else if startsWith compact (lit "//") then true
      else
        let colon := indexOf compact colon in
        if (0 <? colon)%Z then
          let scheme := slice0 compact colon in
          jseq scheme (lit "http") || jseq scheme (lit "https")
        else true
  end.


(* ===================================================================== *)
(** ** Attribute filter *)
(* ===================================================================== *)

(** The properties every object literal inherits from [Object.prototype]:
    reading one of them off [TAG_ATTRS] yields a function (or, for
    [__proto__], the prototype object), never a [Set]. *)
Definition OBJECT_PROTOTYPE_KEYS : list jsstring := List.map lit
  ["constructor"; "__proto__"; "hasOwnProperty"; "isPrototypeOf";
   "propertyIsEnumerable"; "toLocaleString"; "toString"; "valueOf";
   "__defineGetter__"; "__defineSetter__"; "__lookupGetter__";
   "__lookupSetter__"]%string.

Inductive property :=
| OwnSet (names : list jsstring)   (* one of the literal's own entries *)
| Inherited                        (* a truthy value that is no Set *)
| Undefined.

Fixpoint assoc {V} (k : jsstring) (l : list (jsstring * V)) : option V :=
  match l with
  | [] => None
  | (k', v) :: l' => if jseq k k' then Some v else assoc k l'
  end.

(** [TAG_ATTRS[tag]]. *)
Definition getTagAttrs (tag : jsstring) : property :=
  match assoc tag TAG_ATTRS with
  | Some names => OwnSet names
  | None => if has OBJECT_PROTOTYPE_KEYS tag then Inherited else Undefined
  end.

Definition isAllowedAttr (tag name : jsstring) : outcome bool :=
  let n := toLowerCase name in
  if startsWith n (lit "on") then Return false
  else if jseq n (lit "style") then Return false
  else if has GLOBAL_ATTRS n then Return true
  else
    match getTagAttrs tag with
    | OwnSet allowed => Return (has allowed n)
    | Undefined => Return (has [] n)          (* [new Set()] *)
    | Inherited => Throw TypeError            (* [allowed.has] is undefined *)
    end.

Arguments has : simpl never.
Arguments lit : simpl never.
Arguments toLowerCase : simpl never.
Arguments isAllowedAttr : simpl never.

(* ===================================================================== *)
(** ** Attributes of an element *)
(* ===================================================================== *)

(** The attribute list of an element, in document order, each entry the
    name as the element holds it and the value.  The elements are HTML
    elements: [getAttribute], [setAttribute] and [removeAttribute] turn
    the name they are given into ASCII lower case and then act on the
    first entry held under exactly that name. *)
Definition attr := (jsstring * jsstring)%type.

(** The list without its first entry held under [k]. *)
Fixpoint removeNamed (attrs : list attr) (k : jsstring) : list attr :=
  match attrs with
  | [] => []
  | (k', v) :: attrs' =>
      if jseq k k' then attrs' else (k', v) :: removeNamed attrs' k
  end.

(** The list with [value] in its first entry held under [k], or in a
    new last entry when there is none. *)
Fixpoint setNamed (attrs : list attr) (k value : jsstring) : list attr :=
  match attrs with
  | [] => [(k, value)]
  | (k', v) :: attrs' =>
      if jseq k k' then (k', value) :: attrs'
      else (k', v) :: setNamed attrs' k value
  end.

Definition getAttribute (attrs : list attr) (name : jsstring) : option jsstring :=
  assoc (asciiLowerCase name) attrs.

Definition removeAttribute (attrs : list attr) (name : jsstring) : list attr :=
  removeNamed attrs (asciiLowerCase name).

Definition setAttribute (attrs : list attr) (name value : jsstring) : list attr :=
  setNamed attrs (asciiLowerCase name) value.

(* ===================================================================== *)
(** ** Link hardener *)
(* ===================================================================== *)

(** [s.split(/\s+/)]: the pieces between the maximal runs of white space,
    the empty pieces at either end included.  [cur] is the piece being
    read, reversed; [inRun] says that the previous unit was white space. *)
Fixpoint splitOnSpace (s : jsstring) (cur : jsstring) (inRun : bool)
  : list jsstring :=
  match s with
  | [] => [rev cur]
  | u :: s' =>
      if isWhiteSpace u then
        if inRun then splitOnSpace s' cur true
        else rev cur :: splitOnSpace s' [] true
      else splitOnSpace s' (u :: cur) false
  end.

Definition split (s : jsstring) : list jsstring := splitOnSpace s [] false.

(** [Boolean] on a string: the empty string is the only falsy one. *)
Definition truthy (s : jsstring) : bool :=
  match s with [] => false | _ => true end.

(** [Set.prototype.add]: a [Set] keeps insertion order and no duplicate. *)
Definition add (set : list jsstring) (x : jsstring) : list jsstring :=
  if has set x then set else set ++ [x].

(** [new Set(array)]. *)
Definition newSet (xs : list jsstring) : list jsstring := fold_left add xs [].

(** [array.join(" ")]. *)
Fixpoint join (xs : list jsstring) : jsstring :=
  match xs with
  | [] => []
  | [x] => x
  | x :: xs' => x ++ 32%N :: join xs'
  end.

(** [ensureSafeLinkAttrs(el)], on the tag name and attribute list of [el]. *)
Definition ensureSafeLinkAttrs (tagName : jsstring) (attrs : list attr)
  : list attr :=
  let tag := toLowerCase tagName in
  if jseq tag (lit "a")
     && match getAttribute attrs (lit "target") with
        | Some t => jseq t (lit "_blank")
        | None => false
        end
  then
    let rel := toLowerCase (default [] (getAttribute attrs (lit "rel"))) in
    let needed := [lit "noopener"; lit "noreferrer"] in
    let parts := newSet (List.filter truthy (split rel)) in
    let parts := fold_left add needed parts in
    setAttribute attrs (lit "rel") (join parts)
  else attrs.

(** The body of the attribute loop of [sanitizeElement]: [cur] is the
    live attribute list of the element, [a] the snapshot entry. *)
Definition sanitizeAttr (tag : jsstring) (cur : list attr) (a : attr)
  : outcome (list attr) :=
  let name := toLowerCase (fst a) in
  let value := snd a in
  ok <- isAllowedAttr tag name ;;
  if negb ok then Return (removeAttribute cur (fst a))
  else if jseq name (lit "href") || jseq name (lit "src") then
    if negb (isSafeUrl (Some value)) then Return (removeAttribute cur (fst a))
    else Return cur
  else Return cur.

(** The whole loop: [for (const attr of Array.from(el.attributes))]. *)
Definition sanitizeAttributes (tag : jsstring) (attrs : list attr)
  : outcome (list attr) :=
  forEach (sanitizeAttr tag) attrs attrs.
Set Warnings "-register-all".

(* ===================================================================== *)
(** ** The document: a store of nodes *)
(* ===================================================================== *)

(** Nodes are objects with identity: the walker holds references to them
    in its snapshot while the tree changes under it.  A document is a
    store of nodes addressed by index; [parentNode] and [childNodes] hold
    indices.  The program creates no node, so the store never grows. *)
Inductive nodeKind :=
| ElementNode (tagName : jsstring) (attributes : list attr)
| TextNode (data : jsstring).

Record node := Node {
  kind : nodeKind;
  parentNode : option nat;
  childNodes : list nat
}.

Definition dom := list node.

Definition isElement (h : dom) (n : nat) : bool :=
  match h !! n with
  | Some (Node (ElementNode _ _) _ _) => true
  | _ => false
  end.

Definition children (h : dom) (n : nat) : list nat :=
  match h !! n with
  | Some nd => childNodes nd
  | None => []
  end.

Definition parentOf (h : dom) (n : nat) : option nat :=
  match h !! n with
  | Some nd => parentNode nd
  | None => None
  end.

Definition setParent (p : option nat) (nd : node) : node :=
  Node (kind nd) p (childNodes nd).

Definition setChildren (cs : list nat) (nd : node) : node :=
  Node (kind nd) (parentNode nd) cs.

Definition setAttributes (attrs : list attr) (nd : node) : node :=
  match kind nd with
  | ElementNode t _ => Node (ElementNode t attrs) (parentNode nd) (childNodes nd)
  | TextNode _ => nd
  end.

Definition update (f : node -> node) (n : nat) (h : dom) : dom :=
  match h !! n with
  | Some nd => <[n := f nd]> h
  | None => h
  end.

Definition without (x : nat) (l : list nat) : list nat :=
  List.filter (fun y => negb (Nat.eqb y x)) l.

(** [child.remove()]: unlink the node from its parent, if it has one. *)
Definition remove (h : dom) (child : nat) : dom :=
  match parentOf h child with
  | None => h
  | Some p =>
      update (setParent None) child
        (update (fun nd => setChildren (without child (childNodes nd)) nd) p h)
  end.

(** The child list with [child] put in front of the first [ref]. *)
Fixpoint insertAt (l : list nat) (ref child : nat) : option (list nat) :=
  match l with
  | [] => None
  | y :: l' =>
      if Nat.eqb y ref then Some (child :: y :: l')
      else l'' ← insertAt l' ref child; Some (y :: l'')
  end.

(** [parent.insertBefore(child, ref)]: [ref] has to be a child of
    [parent], or the DOM raises [NotFoundError]; [child] leaves the
    parent it has and becomes the sibling just before [ref].  (The DOM
    also refuses a [child] that is an ancestor of [parent]; the unwrap
    loop, the only caller, moves a child of a child of [parent].) *)
Definition insertBefore (h : dom) (parent child ref : nat) : outcome dom :=
  if negb (bool_decide (ref ∈ children h parent)) then Throw NotFoundError
  else
    let h1 := remove h child in
    match insertAt (children h1 parent) ref child with
    | None => Throw NotFoundError
    | Some cs =>
        Return (update (setParent (Some parent)) child
                  (update (setChildren cs) parent h1))
    end.

(** [el.firstChild]. *)
Definition firstChild (h : dom) (el : nat) : option nat := head (children h el).

(** [while (el.firstChild) parent.insertBefore(el.firstChild, el)]. *)
Fixpoint unwrapLoop (fuel : nat) (h : dom) (parent el : nat) : outcome dom :=
  match firstChild h el with
  | None => Return h
  | Some c =>
      match fuel with
      | O => OutOfFuel
      | S fuel' =>
          h' <- insertBefore h parent c el ;; unwrapLoop fuel' h' parent el
      end
  end.

Definition unwrapElement (h : dom) (el : nat) : outcome dom :=
  match parentOf h el with
  | None => Return (remove h el)
  | Some parent =>
      h' <- unwrapLoop (length (children h el)) h parent el ;;
      Return (remove h' el)
  end.

(** [sanitizeElement(el)].  Reading [tagName] off something that is no
    element yields [undefined], and calling [toLowerCase] on that throws. *)
Definition sanitizeElement (h : dom) (el : nat) : outcome dom :=
  match h !! el with
  | Some (Node (ElementNode tagName attrs) _ _) =>
      let tag := toLowerCase tagName in
      if has ALWAYS_DROP tag then Return (remove h el)
      else if negb (has SAFE_ELEMENTS tag) then unwrapElement h el
      else
        attrs' <- sanitizeAttributes tag attrs ;;
        Return (update (setAttributes (ensureSafeLinkAttrs tagName attrs')) el h)
  | _ => Throw TypeError
  end.

(** The proper descendants of a node in document order; [fuel] bounds
    the depth. *)
Fixpoint descendants (fuel : nat) (h : dom) (n : nat) : list nat :=
  match fuel with
  | O => []
  | S fuel' =>
      List.flat_map (fun c => c :: descendants fuel' h c) (children h n)
  end.

(** [root.querySelectorAll("*")]: the element descendants, document order. *)
Definition querySelectorAll (h : dom) (root : nat) : list nat :=
  List.filter (isElement h) (descendants (length h) h root).

Definition walkAndSanitize (h : dom) (root : nat) : outcome dom :=
  let nodes := querySelectorAll h root in
  forEach sanitizeElement nodes h.

(* ===================================================================== *)
(** ** Entry point *)
(* ===================================================================== *)

(** The markup below a node, as the serializer reads it off the store. *)
Inductive html :=
| Element (tagName : jsstring) (attributes : list attr) (content : list html)
| Text (data : jsstring).

Fixpoint toHtml (fuel : nat) (h : dom) (n : nat) : list html :=
  match fuel with
  | O => []
  | S fuel' =>
      match h !! n with
      | Some (Node (ElementNode t attrs) _ cs) =>
          [Element t attrs (List.flat_map (toHtml fuel' h) cs)]
      | Some (Node (TextNode s) _ _) => [Text s]
      | None => []
      end
  end.

(** The children of [root] as markup: what [root.innerHTML] serializes. *)
Definition contents (h : dom) (root : nat) : list html :=
  List.flat_map (toHtml (length h) h) (children h root).

(** A document as a builder hands it over: the store and its [body]. *)
Record document := Document { nodes : dom; body : nat }.

(** The host of a call: the [createDocument] option, if the caller gave
    one; [window.DOMParser], if the environment has one; and the
    serializer behind [innerHTML], which sees the markup below a node. *)
Record host := Host {
  createDocument : option (jsstring -> document);
  DOMParser : option (jsstring -> document);
  serialize : list html -> jsstring
}.

(** [sanitize(html, options)]; [None] stands for a [null] or [undefined]
    [html]. *)
Definition sanitize (env : host) (html : option jsstring) : outcome jsstring :=
  match html with
  | None => Return []
  | Some html =>
      doc <- match createDocument env with
             | Some create => Return (create html)
             | None =>
                 match DOMParser env with
                 | Some parse => Return (parse html)
                 | None => Throw NoDomError
                 end
             end ;;
      h <- walkAndSanitize (nodes doc) (body doc) ;;
      Return (serialize env (contents h (body doc)))
  end.

(* ===================================================================== *)
(** ** Building a store from markup *)
(* ===================================================================== *)

(** The blocks that [f] makes of a list of markup when it lays them out
    one after the other from index [nx] on. *)
Fixpoint layout {A} (f : html -> nat -> A) (size : A -> nat)
    (ts : list html) (nx : nat) : list A :=
  match ts with
  | [] => []
  | t :: ts' => let a := f t nx in a :: layout f size ts' (nx + size a)
  end.

(** The indices at which blocks of the given sizes start. *)
Fixpoint starts (sizes : list nat) (nx : nat) : list nat :=
  match sizes with
  | [] => []
  | n :: sizes' => nx :: starts sizes' (nx + n)
  end.

(** A builder allocates the nodes of the markup it has parsed in document
    order: [allocate parent t next] are the nodes of [t], the first of
    them (the node of [t] itself) at index [next]. *)
Fixpoint allocate (parent : nat) (t : html) (next : nat) : list node :=
  match t with
  | Text s => [Node (TextNode s) (Some parent) []]
  | Element tag attrs kids =>
      let blocks := layout (allocate next) length kids (S next) in
      Node (ElementNode tag attrs) (Some parent)
           (starts (List.map length blocks) (S next))
      :: concat blocks
  end.

(** The document whose [body], at index 0, holds the markup [ts]. *)
Definition load (ts : list html) : document :=
  match allocate 0 (Element (lit "BODY") [] ts) 0 with
  | Node k _ cs :: ns => Document (Node k None cs :: ns) 0
  | [] => Document [] 0
  end.

(* ===================================================================== *)
(** ** The decision procedures as the specification words them *)
(* ===================================================================== *)

(** The position of the first [:], if there is one. *)
Fixpoint firstColon (s : jsstring) : option nat :=
  match s with
  | [] => None
  | u :: s' => if (u =? colon)%N then Some O else S <$> firstColon s'
  end.

(** Section 4.2: strip control characters and white space everywhere,
    then lower-case. *)
Definition normalizeUrl (s : jsstring) : jsstring :=
  toLowerCase (List.filter (fun u => negb (isControlOrSpace u)) s).

(** Section 4.2, rule by rule. *)
Definition isSafeUrl_spec (raw : option jsstring) : bool :=
  match raw with
  | None => true
  | Some s =>
      if bool_decide (s = []) then true
      else
        let v := normalizeUrl s in
        if existsb (startsWith v)
             (List.map lit ["javascript:"; "vbscript:"; "data:"; "file:"]%string)
        then false
        else if startsWith v (lit "//") then true
        else
          match firstColon v with
          | Some (S k) =>
              bool_decide (take (S k) v ∈ [lit "http"; lit "https"])
          | _ => true
          end
  end.

(** Section 4.3: the tag's specific allowlist (empty for a tag without
    an entry). *)
Definition tagAllowlist (tag : jsstring) : list jsstring :=
  default [] (assoc tag TAG_ATTRS).

Definition isAllowedAttribute_spec (tag name : jsstring) : bool :=
  let n := toLowerCase name in
  if startsWith n (lit "on") || jseq n (lit "style") then false
  else if has GLOBAL_ATTRS n then true
  else has (tagAllowlist tag) n.

(** Section 4.4: the tokens of a [rel] value, first occurrences only. *)
Fixpoint dedup (seen xs : list jsstring) : list jsstring :=
  match xs with
  | [] => []
  | x :: xs' =>
      if has seen x then dedup seen xs' else x :: dedup (x :: seen) xs'
  end.

Definition relTokens (rel : jsstring) : list jsstring :=
  dedup [] (List.filter truthy (split rel)).

(** Section 4.4: the tokens, then whichever of [noopener], [noreferrer]
    is missing, in that order, joined by single spaces. *)
Definition hardenedRel_spec (rel : jsstring) : jsstring :=
  let tokens := relTokens rel in
  join (tokens
        ++ List.filter (fun x => negb (has tokens x))
             [lit "noopener"; lit "noreferrer"]).

(** The code units that [lowerUnit] leaves alone. *)
Definition lowerCased (v : N) : Prop := lowerUnit v = [v].

(** Whether the attribute loop keeps a snapshot entry: the name check,
    then the URL check for [href] and [src]. *)
Definition keepAttr (tag : jsstring) (a : attr) : bool :=
  let name := toLowerCase (fst a) in
  isAllowedAttribute_spec tag name
  && (if jseq name (lit "href") || jseq name (lit "src")
      then isSafeUrl (Some (snd a)) else true).

(** What the attribute loop leaves of a list: for every entry of the
    snapshot that fails a check, [removeAttribute] is called with the
    name of the entry. *)
Definition sanitizedAttributes (tag : jsstring) (attrs : list attr)
  : list attr :=
  fold_left
    (fun cur a => if keepAttr tag a then cur else removeAttribute cur (fst a))
    attrs attrs.

(** An attribute name without a capital ASCII letter: the form in which
    an HTML parser leaves the names, and section 3 has them. *)
Definition lowerCaseName (a : attr) : bool :=
  jseq (asciiLowerCase (fst a)) (fst a).

Definition noSpace (x : jsstring) : bool :=
  forallb (fun u => negb (isWhiteSpace u)) x.

(** A [rel] token: not empty, no white space in it. *)
Definition isToken (x : jsstring) : bool := truthy x && noSpace x.

(* ===================================================================== *)
(** ** The tree a store holds *)
(* ===================================================================== *)

(** The markup below a node together with the indices of the nodes that
    carry it: the logical view of a well-formed store. *)
Inductive tree :=
| TElem (id : nat) (tagName : jsstring) (attrs : list attr) (kids : list tree)
| TText (id : nat) (data : jsstring).

Definition rid (t : tree) : nat :=
  match t with TElem i _ _ _ => i | TText i _ => i end.

(** All indices of a tree, and those of its elements, in document order. *)
Fixpoint ids (t : tree) : list nat :=
  match t with
  | TElem i _ _ kids => i :: List.flat_map ids kids
  | TText i _ => [i]
  end.

Fixpoint elemIds (t : tree) : list nat :=
  match t with
  | TElem i _ _ kids => i :: List.flat_map elemIds kids
  | TText _ _ => []
  end.

Fixpoint erase (t : tree) : html :=
  match t with
  | TElem _ tag attrs kids => Element tag attrs (List.map erase kids)
  | TText _ s => Text s
  end.

Fixpoint depth (t : tree) : nat :=
  match t with
  | TElem _ _ _ kids => S (foldr Nat.max 0 (List.map depth kids))
  | TText _ _ => 1
  end.

(** [rep h p t]: the store [h] holds the tree [t] below the parent [p].
    Every node of [t] is in the store with the kind, the parent and the
    child list the tree says, and attribute names are unique on every
    element, as the DOM keeps them. *)
Fixpoint rep (h : dom) (p : option nat) (t : tree) : Prop :=
  match t with
  | TText i s => h !! i = Some (Node (TextNode s) p [])
  | TElem i tag attrs kids =>
      h !! i = Some (Node (ElementNode tag attrs) p (List.map rid kids))
      /\ NoDup attrs.*1
      /\ (fix all (ts : list tree) : Prop :=
            match ts with
            | [] => True
            | t' :: ts' => rep h (Some i) t' /\ all ts'
            end) kids
  end.

(** A document is well formed when its store holds a tree below [body],
    no node twice. *)
Definition wellFormed (d : document) : Prop :=
  exists p tag attrs kids,
    rep (nodes d) p (TElem (body d) tag attrs kids)
    /\ NoDup (ids (TElem (body d) tag attrs kids)).

(** Every element of the store holds its attribute names without a
    capital ASCII letter. *)
Definition lowerCaseNames (h : dom) : bool :=
  forallb (fun nd => match kind nd with
                     | ElementNode _ attrs => forallb lowerCaseName attrs
                     | TextNode _ => true
                     end) h.

(** What the classifier makes of a tree, read off the three rules. *)
Fixpoint clean (t : tree) : list tree :=
  match t with
  | TText _ _ => [t]
  | TElem i tagName attrs kids =>
      let tag := toLowerCase tagName in
      if has ALWAYS_DROP tag then []
      else if negb (has SAFE_ELEMENTS tag) then List.flat_map clean kids
      else [TElem i tagName
              (ensureSafeLinkAttrs tagName (sanitizedAttributes tag attrs))
              (List.flat_map clean kids)]
  end.

(** The same on markup without indices. *)
Fixpoint cleanHtml (t : html) : list html :=
  match t with
  | Text _ => [t]
  | Element tagName attrs kids =>
      let tag := toLowerCase tagName in
      if has ALWAYS_DROP tag then []
      else if negb (has SAFE_ELEMENTS tag) then List.flat_map cleanHtml kids
      else [Element tagName
              (ensureSafeLinkAttrs tagName (sanitizedAttributes tag attrs))
              (List.flat_map cleanHtml kids)]
  end.

(** The state the walker is in when it reaches a tree [t] that hangs
    below [p] between the siblings [L] and [R]. *)
Definition hangs (h : dom) (p : nat) (kp : nodeKind) (pp : option nat)
    (L : list nat) (mid : list nat) (R : list nat) : Prop :=
  h !! p = Some (Node kp pp (L ++ mid ++ R)).

Definition apart (xs L R : list nat) (p : nat) : Prop :=
  p ∉ xs /\ (forall x, x ∈ xs -> x ∉ L /\ x ∉ R).

(** Walking the elements of the forest [ts] below [p] returns, and
    leaves the store holding [clean] of the forest in its place, every
    node outside the forest but [p] untouched. *)
Definition walksForest (ts : list tree) : Prop :=
  forall h p kp pp L R,
    Forall (rep h (Some p)) ts ->
    NoDup (List.flat_map ids ts) ->
    apart (List.flat_map ids ts) L R p ->
    hangs h p kp pp L (List.map rid ts) R ->
    exists h',
      forEach sanitizeElement (List.flat_map elemIds ts) h = Return h'
      /\ length h' = length h
      /\ hangs h' p kp pp L (List.map rid (List.flat_map clean ts)) R
      /\ Forall (rep h' (Some p)) (List.flat_map clean ts)
      /\ (forall k, k ∉ List.flat_map ids ts -> k <> p -> h' !! k = h !! k).

Definition walksTree (t : tree) : Prop := walksForest [t].

(** All subtrees of a tree, itself first. *)
Fixpoint subtrees (t : tree) : list tree :=
  match t with
  | TElem _ _ _ kids => t :: List.flat_map subtrees kids
  | TText _ _ => [t]
  end.

(** The attribute lists of a tree that a store with lower-case names
    holds: names unique and in lower case, on every element. *)
Definition normalNames (t : tree) : Prop :=
  forall el tag attrs ks,
    TElem el tag attrs ks ∈ subtrees t ->
    NoDup attrs.*1 /\ forallb lowerCaseName attrs = true.

(** What the invariant of section 3 asks of a kept element. *)
Definition safeElement (tagName : jsstring) (attrs : list attr) : Prop :=
  has SAFE_ELEMENTS (toLowerCase tagName) = true
  /\ forall name value, (name, value) ∈ attrs ->
       keepAttr (toLowerCase tagName) (name, value) = true.

(** The document builder that [sanitize] uses: the option if given, else
    the ambient parser. *)
Definition builder (env : host) : option (jsstring -> document) :=
  match createDocument env with
  | Some create => Some create
  | None => DOMParser env
  end.

(** The elements of markup, tag name and attributes, in document order. *)
Fixpoint elements (t : html) : list (jsstring * list attr) :=
  match t with
  | Text _ => []
  | Element tagName attrs kids =>
      (tagName, attrs) :: List.flat_map elements kids
  end.

(** Markup whose elements hold their attribute names as section 3
    says: unique, and without a capital ASCII letter. *)
Definition normalMarkup (t : html) : Prop :=
  forall tagName attrs,
    (tagName, attrs) ∈ elements t ->
    NoDup attrs.*1 /\ forallb lowerCaseName attrs = true.

(** [sanitize(sanitize(html))]. *)
Definition sanitizeTwice (env : host) (html : jsstring) : outcome jsstring :=
  out <- sanitize env (Some html) ;; sanitize env (Some out).

(* ===================================================================== *)
(** ** A host to run examples on *)
(* ===================================================================== *)

(** The serializer of the HTML standard on the fragment that matters
    here: text and attribute values escaped, no end tag and no content
    for void elements.  It writes the name of an element, which
    [tagName] has in ASCII upper case. *)
Definition escapeUnit (inAttribute : bool) (u : N) : jsstring :=
  if (u =? 38)%N then lit "&amp;"
  else if (u =? 160)%N then lit "&nbsp;"
  else if inAttribute then (if (u =? 34)%N then lit "&quot;" else [u])
  else if (u =? 60)%N then lit "&lt;"
  else if (u =? 62)%N then lit "&gt;"
  else [u].

Definition escape (inAttribute : bool) (s : jsstring) : jsstring :=
  List.flat_map (escapeUnit inAttribute) s.

Definition VOID_ELEMENTS : list jsstring := List.map lit
  ["area"; "base"; "br"; "col"; "embed"; "hr"; "img"; "input"; "link";
   "meta"; "source"; "track"; "wbr"]%string.

Definition serializeAttr (a : attr) : jsstring :=
  lit " " ++ fst a ++ lit "=" ++ [34%N] ++ escape true (snd a) ++ [34%N].

Fixpoint serializeNode (t : html) : jsstring :=
  match t with
  | Text s => escape false s
  | Element tagName attrs kids =>
      let name := asciiLowerCase tagName in
      lit "<" ++ name ++ List.flat_map serializeAttr attrs ++ lit ">"
      ++ (if has VOID_ELEMENTS name then []
          else List.flat_map serializeNode kids ++ lit "</" ++ name ++ lit ">")
  end.

Definition serializeFragment (ts : list html) : jsstring :=
  List.flat_map serializeNode ts.

(** A builder that parses three strings the way the HTML parsing
    algorithm does (a [div] start tag closes an open [p] unless a
    [marquee] in between shields it; a stray [</p>] makes an empty [p]),
    and anything else to an empty body. *)
Definition shieldedDiv : list html :=
  [Element (lit "P") []
     [Element (lit "MARQUEE") [] [Element (lit "DIV") [] [Text (lit "x")]]]].

Definition splitParagraph : list html :=
  [Element (lit "P") [] []; Element (lit "DIV") [] [Text (lit "x")];
   Element (lit "P") [] []].

Definition parseExample (s : jsstring) : document :=
  if jseq s (lit "<p><marquee><div>x</div></marquee></p>") then load shieldedDiv
  else if jseq s (lit "<p><div>x</div></p>") then load splitParagraph
  else if jseq s (lit "<p></p><div>x</div><p></p>") then load splitParagraph
  else load [].

Definition exampleHost : host := Host (Some parseExample) None serializeFragment.

(** A second builder, for a link that opens a new window followed by
    an unknown element and text, and for what [sanitize] makes of it:
    the two pieces of text that the walk leaves side by side are one
    text node when they are parsed again. *)
Definition quoted (s : jsstring) : jsstring := 34%N :: s ++ [34%N].

Definition linkSource : jsstring :=
  lit "<a href=" ++ quoted (lit "https://x.com")
  ++ lit " target=" ++ quoted (lit "_blank")
  ++ lit ">x</a><custom>y</custom>z".

Definition linkOutput : jsstring :=
  lit "<a href=" ++ quoted (lit "https://x.com")
  ++ lit " target=" ++ quoted (lit "_blank")
  ++ lit " rel=" ++ quoted (lit "noopener noreferrer")
  ++ lit ">x</a>yz".

Definition linkMarkup : list html :=
  [Element (lit "A")
     [(lit "href", lit "https://x.com"); (lit "target", lit "_blank")]
     [Text (lit "x")];
   Element (lit "CUSTOM") [] [Text (lit "y")];
   Text (lit "z")].

Definition linkMarkupAgain : list html :=
  [Element (lit "A")
     [(lit "href", lit "https://x.com"); (lit "target", lit "_blank");
      (lit "rel", lit "noopener noreferrer")]
     [Text (lit "x")];
   Text (lit "yz")].

Definition parseLink (s : jsstring) : document :=
  if jseq s linkSource then load linkMarkup
  else if jseq s linkOutput then load linkMarkupAgain
  else load [].

Definition linkHost : host := Host (Some parseLink) None serializeFragment.

(** The tree that [allocate] lays out for markup, indices included. *)
Fixpoint label (t : html) (next : nat) : tree :=
  match t with
  | Text s => TText next s
  | Element tag attrs kids =>
      TElem next tag attrs
        (layout label (fun k => length (ids k)) kids (S next))
  end.

(** The number of nodes of markup. *)
Fixpoint size (t : html) : nat :=
  match t with
  | Text _ => 1
  | Element _ _ kids => S (foldr Nat.add 0 (List.map size kids))
  end.

(** Attribute names are unique on every element of the markup, as a
    parser leaves them. *)
Fixpoint uniqueAttrs (t : html) : bool :=
  match t with
  | Text _ => true
  | Element _ attrs kids =>
      bool_decide (NoDup attrs.*1) && forallb uniqueAttrs kids
  end.

(** The children of [body] in the tree that [load] lays out. *)
Definition bodyKids (ts : list html) : list tree :=
  match label (Element (lit "BODY") [] ts) 0 with
  | TElem _ _ _ kids => kids
  | TText _ _ => []
  end.

(** Markup of the scenarios of section 8. *)
Definition scriptInParagraph : list html :=
  [Element (lit "P") []
     [Text (lit "hi"); Element (lit "SCRIPT") [] [Text (lit "alert(1)")]]].

Definition customElement : list html :=
  [Element (lit "CUSTOM") []
     [Text (lit "hello"); Element (lit "B") [] [Text (lit "world")]]].

Definition imageWithHandler : list html :=
  [Element (lit "IMG")
     [(lit "src", lit "x"); (lit "onerror", lit "alert(1)")] []].

Definition blankLink : list html :=
  [Element (lit "A")
     [(lit "href", lit "https://x.com"); (lit "target", lit "_blank")]
     [Text (lit "x")]].

Definition scriptWithBold : list html :=
  [Element (lit "SCRIPT") [] [Element (lit "B") [] [Text (lit "x")]]].

(** The walk on loaded markup, serialized. *)
Definition render (ts : list html) : outcome jsstring :=
  h <- walkAndSanitize (nodes (load ts)) (body (load ts)) ;;
  Return (serializeFragment (contents h (body (load ts)))).


(* ===================================================================== *)
(** ** Further notions for the properties below *)
(* ===================================================================== *)

(** The text of markup, in document order. *)
Fixpoint texts (t : html) : list jsstring :=
  match t with
  | Text s => [s]
  | Element _ _ kids => List.flat_map texts kids
  end.

(** The text of markup that is not below an element of [ALWAYS_DROP]. *)
Fixpoint keptTexts (t : html) : list jsstring :=
  match t with
  | Text s => [s]
  | Element tagName _ kids =>
      if has ALWAYS_DROP (toLowerCase tagName) then []
      else List.flat_map keptTexts kids
  end.

(** Markup that the policy has nothing to object to: every tag is in
    [SAFE_ELEMENTS], every attribute passes both checks, and the link
    hardener finds its tokens in place. *)
Fixpoint isClean (t : html) : bool :=
  match t with
  | Text _ => true
  | Element tagName attrs kids =>
      has SAFE_ELEMENTS (toLowerCase tagName)
      && forallb (keepAttr (toLowerCase tagName)) attrs
      && bool_decide (ensureSafeLinkAttrs tagName attrs = attrs)
      && forallb isClean kids
  end.

(** Two node kinds that differ in the attribute list at most. *)
Definition sameKind (k k' : nodeKind) : Prop :=
  match k, k' with
  | TextNode s, TextNode s' => s = s'
  | ElementNode t _, ElementNode t' _ => t = t'
  | _, _ => False
  end.

(** [h'] has the nodes of [h], each with its tag name or its text. *)
Definition sameNodes (h h' : dom) : Prop :=
  length h' = length h
  /\ forall k nd, h !! k = Some nd ->
       exists nd', h' !! k = Some nd' /\ sameKind (kind nd) (kind nd').

(* ===================================================================== *)
(** * Properties *)
(* ===================================================================== *)

(** ** Strings *)

Lemma jseq_true (a b : jsstring) : jseq a b = true <-> a = b.
Proof. unfold jseq. apply bool_decide_eq_true. Qed.

Lemma jseq_false (a b : jsstring) : jseq a b = false <-> a <> b.
Proof. unfold jseq. apply bool_decide_eq_false. Qed.

Lemma jseq_refl (a : jsstring) : jseq a a = true.
Proof. by apply jseq_true. Qed.

Lemma has_true (set : list jsstring) (x : jsstring) :
  has set x = true <-> x ∈ set.
Proof.
  unfold has. rewrite existsb_exists. split.
  - intros (y & Hy & Heq). apply jseq_true in Heq. subst.
    by apply list_elem_of_In.
  - intros Hx. exists x. split; [by apply list_elem_of_In|apply jseq_refl].
Qed.

Lemma has_false (set : list jsstring) (x : jsstring) :
  has set x = false <-> x ∉ set.
Proof.
  rewrite <- has_true. destruct (has set x); split; congruence.
Qed.

Lemma whitespace_is_stripped (u : N) :
  isWhiteSpace u = true -> isControlOrSpace u = true.
Proof. unfold isControlOrSpace. intros ->. apply orb_true_r. Qed.

Lemma removeAll_dropWhileB (p q : N -> bool) (s : jsstring) :
  (forall u, q u = true -> p u = true) ->
  removeAll p (dropWhileB q s) = removeAll p s.
Proof.
  intros Hqp. induction s as [|u s IH]; simpl; [done|].
  destruct (q u) eqn:Hq; [|done].
  rewrite (Hqp _ Hq). simpl. exact IH.
Qed.

Lemma removeAll_rev (p : N -> bool) (s : jsstring) :
  removeAll p (rev s) = rev (removeAll p s).
Proof.
  unfold removeAll. induction s as [|u s IH]; simpl; [done|].
  rewrite List.filter_app, IH. simpl.
  destruct (negb (p u)); simpl; [done|by rewrite app_nil_r].
Qed.

(** Trimming first is redundant: the strip deletes white space anyway. *)
Lemma removeAll_trim (s : jsstring) :
  removeAll isControlOrSpace (trim s) = removeAll isControlOrSpace s.
Proof.
  unfold trim.
  rewrite removeAll_rev, (removeAll_dropWhileB _ _ _ whitespace_is_stripped).
  rewrite removeAll_rev, rev_involutive.
  apply removeAll_dropWhileB, whitespace_is_stripped.
Qed.

Lemma indexOf_firstColon (s : jsstring) :
  indexOf s colon = match firstColon s with
                    | Some k => Z.of_nat k
                    | None => (-1)%Z
                    end.
Proof.
  induction s as [|u s IH]; simpl; [done|].
  destruct (u =? colon)%N; [done|].
  rewrite IH. destruct (firstColon s) as [k|]; simpl; [|done].
  destruct (Z.ltb_spec (Z.of_nat k) 0); lia.
Qed.

(** C1. For every [raw], [isSafeUrl raw] is the verdict of the
    algorithm of section 4.2: [null] and the empty string are safe;
    otherwise the value is stripped of control characters and white
    space everywhere and lower-cased, rejected when it then starts with
    [javascript:], [vbscript:], [data:] or [file:], accepted when it
    starts with [//], accepted when its first [:] is at a position above
    0 exactly if what precedes it is [http] or [https], and accepted when
    it has no [:] or has it at position 0. *)
Theorem isSafeUrl_follows_spec (raw : option jsstring) :
  isSafeUrl raw = isSafeUrl_spec raw.
Proof.
  destruct raw as [[|u s]|]; [done| |done].
  unfold isSafeUrl, isSafeUrl_spec.
  rewrite bool_decide_eq_false_2 by done.
  rewrite removeAll_trim.
  change (toLowerCase (removeAll isControlOrSpace (u :: s)))
    with (normalizeUrl (u :: s)).
  generalize (normalizeUrl (u :: s)). intros v.
  cbn [existsb List.map].
  destruct (startsWith v (lit "javascript:")); [done|].
  destruct (startsWith v (lit "vbscript:")); [done|].
  destruct (startsWith v (lit "data:")); [done|].
  destruct (startsWith v (lit "file:")); [done|].
  cbn [orb].
  destruct (startsWith v (lit "//")); [done|].
  rewrite indexOf_firstColon.
  destruct (firstColon v) as [[|k]|]; [done| |done].
  replace (0 <? Z.of_nat (S k))%Z with true by (symmetry; apply Z.ltb_lt; lia).
  unfold slice0. rewrite Nat2Z.id.
  generalize (take (S k) v). intros scheme.
  unfold jseq.
  destruct (decide (scheme = lit "http")) as [->|H1]; [done|].
  destruct (decide (scheme = lit "https")) as [->|H2]; [done|].
  rewrite !bool_decide_eq_false_2; [done| |done|done].
  intros Hin. apply elem_of_cons in Hin as [?|Hin]; [done|].
  apply elem_of_cons in Hin as [?|Hin]; [done|]. by apply elem_of_nil in Hin.
Qed.

(** ** Attribute filter *)

Lemma isAllowedAttr_spec_eq (tag name : jsstring) :
  has OBJECT_PROTOTYPE_KEYS tag = false ->
  isAllowedAttr tag name = Return (isAllowedAttribute_spec tag name).
Proof.
  intros Htag. unfold isAllowedAttr, isAllowedAttribute_spec. cbv zeta.
  generalize (toLowerCase name). intros n.
  destruct (startsWith n (lit "on")); [done|].
  destruct (jseq n (lit "style")); [done|]. cbn [orb].
  destruct (has GLOBAL_ATTRS n); [done|].
  unfold getTagAttrs, tagAllowlist.
  destruct (assoc tag TAG_ATTRS); cbn [default]; [done|].
  by rewrite Htag.
Qed.

Lemma safe_tag_not_inherited (tag : jsstring) :
  has SAFE_ELEMENTS tag = true -> has OBJECT_PROTOTYPE_KEYS tag = false.
Proof.
  intros H. apply has_true, list_elem_of_In in H.
  unfold SAFE_ELEMENTS in H. simpl in H.
  repeat (destruct H as [<-|H]; [reflexivity|]). destruct H.
Qed.

Lemma sanitizeAttr_eq (tag : jsstring) (cur : list attr) (a : attr) :
  has OBJECT_PROTOTYPE_KEYS tag = false ->
  sanitizeAttr tag cur a =
    Return (if keepAttr tag a then cur else removeAttribute cur (fst a)).
Proof.
  intros Htag. unfold sanitizeAttr, keepAttr. cbv zeta.
  rewrite (isAllowedAttr_spec_eq _ _ Htag). cbn [bind].
  destruct (isAllowedAttribute_spec tag (toLowerCase (fst a))); cbn [negb andb]; [|done].
  destruct (jseq (toLowerCase (fst a)) (lit "href")
            || jseq (toLowerCase (fst a)) (lit "src")); [|done].
  by destruct (isSafeUrl (Some (snd a))).
Qed.

(** *** ASCII lower case *)

Lemma toLowerCase_ascii (s : jsstring) :
  forallb isAsciiUnit s = true -> toLowerCase s = asciiLowerCase s.
Proof. unfold toLowerCase. by intros ->. Qed.

Lemma asciiLowerUnit_ascii (u : N) :
  isAsciiUnit (asciiLowerUnit u) = isAsciiUnit u.
Proof.
  unfold asciiLowerUnit, isAsciiUnit.
  destruct (N.leb_spec 0x41 u), (N.leb_spec u 0x5A); simpl; try done.
  destruct (N.ltb_spec (u + 0x20) 0x80), (N.ltb_spec u 0x80); try done; lia.
Qed.

Lemma asciiLowerCase_ascii (s : jsstring) :
  forallb isAsciiUnit (asciiLowerCase s) = forallb isAsciiUnit s.
Proof.
  induction s as [|u s IH]; simpl; [done|].
  by rewrite asciiLowerUnit_ascii, IH.
Qed.

Lemma asciiLowerUnit_idem (u : N) :
  asciiLowerUnit (asciiLowerUnit u) = asciiLowerUnit u.
Proof.
  unfold asciiLowerUnit.
  destruct (N.leb_spec 0x41 u), (N.leb_spec u 0x5A); simpl; try done;
    destruct (N.leb_spec 0x41 u), (N.leb_spec u 0x5A); simpl; try done; try lia.
  destruct (N.leb_spec 0x41 (u + 0x20)), (N.leb_spec (u + 0x20) 0x5A);
    simpl; try done; lia.
Qed.

Lemma asciiLowerCase_idem (s : jsstring) :
  asciiLowerCase (asciiLowerCase s) = asciiLowerCase s.
Proof.
  induction s as [|u s IH]; simpl; [done|].
  by rewrite asciiLowerUnit_idem, IH.
Qed.

(** A name whose ASCII lower case is an ASCII string is lower-cased by
    the engine to that string. *)
Lemma toLowerCase_asciiLowerCase (k s : jsstring) :
  asciiLowerCase k = s -> forallb isAsciiUnit s = true -> toLowerCase k = s.
Proof.
  intros <- Hs. rewrite asciiLowerCase_ascii in Hs. by apply toLowerCase_ascii.
Qed.

Lemma lowerCaseName_true (a : attr) :
  lowerCaseName a = true <-> asciiLowerCase (fst a) = fst a.
Proof. apply jseq_true. Qed.

(** *** The attribute list *)

Lemma getAttribute_held (attrs : list attr) (k : jsstring) :
  asciiLowerCase k = k -> getAttribute attrs k = assoc k attrs.
Proof. unfold getAttribute. by intros ->. Qed.

Lemma removeAttribute_held (attrs : list attr) (k : jsstring) :
  asciiLowerCase k = k -> removeAttribute attrs k = removeNamed attrs k.
Proof. unfold removeAttribute. by intros ->. Qed.

Lemma setAttribute_held (attrs : list attr) (k v : jsstring) :
  asciiLowerCase k = k -> setAttribute attrs k v = setNamed attrs k v.
Proof. unfold setAttribute. by intros ->. Qed.

Lemma removeNamed_sublist (cur : list attr) (k : jsstring) :
  sublist (removeNamed cur k) cur.
Proof.
  induction cur as [|[k' v] cur IH]; simpl; [done|].
  destruct (jseq k k').
  - by apply sublist_cons.
  - by apply sublist_skip.
Qed.

Lemma removeAttribute_sublist (cur : list attr) (name : jsstring) :
  sublist (removeAttribute cur name) cur.
Proof. apply removeNamed_sublist. Qed.

Lemma removeNamed_middle (pre xs : list attr) (k v : jsstring) :
  k ∉ pre.*1 -> removeNamed (pre ++ (k, v) :: xs) k = pre ++ xs.
Proof.
  induction pre as [|[k' v'] pre IH]; simpl; intros Hk.
  - by rewrite jseq_refl.
  - apply not_elem_of_cons in Hk as [Hne Hk].
    destruct (jseq k k') eqn:E; [by apply jseq_true in E|].
    by rewrite IH.
Qed.

Lemma forEach_sanitizeAttr_sublist (tag : jsstring) (xs cur out : list attr) :
  forEach (sanitizeAttr tag) xs cur = Return out -> sublist out cur.
Proof.
  revert cur. induction xs as [|a xs IH]; simpl; intros cur H.
  - by inversion H.
  - destruct (sanitizeAttr tag cur a) as [cur'| |] eqn:E; simpl in H; try done.
    transitivity cur'; [by apply IH|].
    unfold sanitizeAttr in E.
    destruct (isAllowedAttr tag _) as [[]| |]; simpl in E; try done;
      repeat match type of E with
             | (if ?b then _ else _) = _ => destruct b
             end; inversion E; subst; try done; apply removeAttribute_sublist.
Qed.

(** On a tag that is no inherited property name the loop returns, and
    what it returns is [sanitizedAttributes]. *)
Lemma forEach_sanitizeAttr_fold (tag : jsstring) (xs cur : list attr) :
  has OBJECT_PROTOTYPE_KEYS tag = false ->
  forEach (sanitizeAttr tag) xs cur
  = Return (fold_left (fun cur a => if keepAttr tag a then cur
                                    else removeAttribute cur (fst a)) xs cur).
Proof.
  intros Htag. revert cur. induction xs as [|a xs IH]; intros cur; [done|].
  cbn [forEach fold_left]. rewrite (sanitizeAttr_eq _ _ _ Htag). cbn [bind].
  apply IH.
Qed.

Lemma sanitizeAttributes_eq (tag : jsstring) (attrs : list attr) :
  has OBJECT_PROTOTYPE_KEYS tag = false ->
  sanitizeAttributes tag attrs = Return (sanitizedAttributes tag attrs).
Proof. apply forEach_sanitizeAttr_fold. Qed.

Lemma sanitizedAttributes_sublist (tag : jsstring) (attrs : list attr) :
  sublist (sanitizedAttributes tag attrs) attrs.
Proof.
  unfold sanitizedAttributes.
  assert (H : forall xs cur,
            sublist (fold_left (fun cur a => if keepAttr tag a then cur
                                  else removeAttribute cur (fst a)) xs cur) cur).
  { induction xs as [|a xs IH]; intros cur; [done|].
    cbn [fold_left]. destruct (keepAttr tag a); [apply IH|].
    transitivity (removeAttribute cur (fst a));
      [apply IH|apply removeAttribute_sublist]. }
  apply H.
Qed.

(** With attribute names unique and without capital ASCII letters, as
    section 3 has them, the loop leaves exactly the entries that pass
    both checks. *)
Lemma fold_sanitizeAttr_filter (tag : jsstring) (xs pre : list attr) :
  NoDup (pre ++ xs).*1 ->
  forallb lowerCaseName xs = true ->
  fold_left (fun cur a => if keepAttr tag a then cur
                          else removeAttribute cur (fst a)) xs (pre ++ xs)
  = pre ++ List.filter (keepAttr tag) xs.
Proof.
  revert pre.
  induction xs as [|[k v] xs IH]; intros pre Hnd Hlow; [done|].
  cbn [forallb] in Hlow. apply andb_true_iff in Hlow as [Hk Hlow].
  apply lowerCaseName_true in Hk. cbn [fst] in Hk.
  cbn [fold_left List.filter].
  destruct (keepAttr tag (k, v)) eqn:E.
  - specialize (IH (pre ++ [(k, v)])).
    rewrite <- !app_assoc in IH. simpl in IH. by apply IH.
  - cbn [fst]. rewrite (removeAttribute_held _ _ Hk), removeNamed_middle.
    + apply IH; [|done]. rewrite fmap_app in Hnd |- *. simpl in Hnd.
      apply NoDup_app in Hnd as (Hp & Hd & Hx). apply NoDup_cons in Hx as [_ Hx].
      apply NoDup_app. split_and!; [done| |done].
      intros x Hin Hin'. apply (Hd x Hin). by right.
    + rewrite fmap_app in Hnd. simpl in Hnd.
      apply NoDup_app in Hnd as (_ & Hd & _).
      intros Hin. apply (Hd _ Hin). by left.
Qed.

Lemma sanitizedAttributes_filter (tag : jsstring) (attrs : list attr) :
  NoDup attrs.*1 ->
  forallb lowerCaseName attrs = true ->
  sanitizedAttributes tag attrs = List.filter (keepAttr tag) attrs.
Proof. apply (fold_sanitizeAttr_filter tag attrs []). Qed.

(** Where every entry passes, the loop removes nothing. *)
Lemma sanitizedAttributes_all (tag : jsstring) (attrs : list attr) :
  forallb (keepAttr tag) attrs = true -> sanitizedAttributes tag attrs = attrs.
Proof.
  unfold sanitizedAttributes.
  assert (H : forall xs cur,
            forallb (keepAttr tag) xs = true ->
            fold_left (fun cur a => if keepAttr tag a then cur
                         else removeAttribute cur (fst a)) xs cur = cur).
  { induction xs as [|a xs IH]; intros cur; [done|].
    cbn [forallb fold_left]. intros [-> Hxs]%andb_true_iff. by apply IH. }
  apply H.
Qed.

Lemma assoc_None {V} (k : jsstring) (l : list (jsstring * V)) :
  assoc k l = None <-> k ∉ l.*1.
Proof.
  induction l as [|[k' v] l IH]; simpl.
  - split; [intros _; apply not_elem_of_nil|done].
  - destruct (jseq k k') eqn:E.
    + apply jseq_true in E as ->. split; [done|]. intros H. destruct H. by left.
    + apply jseq_false in E. rewrite IH, not_elem_of_cons. tauto.
Qed.

Lemma assoc_Some_elem {V} (k : jsstring) (v : V) (l : list (jsstring * V)) :
  assoc k l = Some v -> (k, v) ∈ l.
Proof.
  induction l as [|[k' v'] l IH]; simpl; [done|].
  destruct (jseq k k') eqn:E.
  - apply jseq_true in E as ->. intros [= ->]. by left.
  - intros H. right. by apply IH.
Qed.

Lemma assoc_NoDup {V} (k : jsstring) (v : V) (l : list (jsstring * V)) :
  NoDup l.*1 -> (k, v) ∈ l -> assoc k l = Some v.
Proof.
  induction l as [|[k' v'] l IH]; simpl; intros Hnd Hin.
  - by apply elem_of_nil in Hin.
  - apply NoDup_cons in Hnd as [Hk' Hnd].
    apply elem_of_cons in Hin as [[= <- <-]|Hin]; [by rewrite jseq_refl|].
    destruct (jseq k k') eqn:E; [|by apply IH].
    apply jseq_true in E as ->. destruct Hk'.
    change k' with (fst (k', v)). by apply list_elem_of_fmap_2.
Qed.

Lemma assoc_setNamed_eq (attrs : list attr) (k v : jsstring) :
  assoc k (setNamed attrs k v) = Some v.
Proof.
  induction attrs as [|[k' v'] attrs IH]; simpl.
  - by rewrite jseq_refl.
  - destruct (jseq k k') eqn:E; simpl; rewrite E; [done|exact IH].
Qed.

Lemma assoc_setNamed_ne (attrs : list attr) (k v name : jsstring) :
  name <> k -> assoc name (setNamed attrs k v) = assoc name attrs.
Proof.
  intros Hne. induction attrs as [|[k' v'] attrs IH]; simpl.
  - by apply jseq_false in Hne as ->.
  - destruct (jseq k k') eqn:E; simpl.
    + apply jseq_true in E as <-. by apply jseq_false in Hne as ->.
    + by rewrite IH.
Qed.

Lemma assoc_removeNamed_ne (attrs : list attr) (k name : jsstring) :
  name <> k -> assoc name (removeNamed attrs k) = assoc name attrs.
Proof.
  intros Hne. induction attrs as [|[k' v'] attrs IH]; simpl; [done|].
  destruct (jseq k k') eqn:E; simpl.
  - apply jseq_true in E as <-. by apply jseq_false in Hne as ->.
  - by rewrite IH.
Qed.

Lemma setNamed_names_old (attrs : list attr) (k v : jsstring) :
  k ∈ attrs.*1 -> (setNamed attrs k v).*1 = attrs.*1.
Proof.
  induction attrs as [|[k' v'] attrs IH]; intros Hin.
  - by apply elem_of_nil in Hin.
  - cbn [setNamed]. destruct (jseq k k') eqn:E; [done|].
    apply jseq_false in E. rewrite !fmap_cons. f_equal. apply IH.
    rewrite fmap_cons in Hin. by apply elem_of_cons in Hin as [?|?].
Qed.

Lemma setNamed_names_new (attrs : list attr) (k v : jsstring) :
  k ∉ attrs.*1 -> (setNamed attrs k v).*1 = attrs.*1 ++ [k].
Proof.
  induction attrs as [|[k' v'] attrs IH]; intros Hin; [done|].
  rewrite fmap_cons in Hin. apply not_elem_of_cons in Hin as [Hne Hin].
  simpl in Hne. cbn [setNamed]. apply jseq_false in Hne as ->.
  rewrite !fmap_cons. simpl. f_equal. by apply IH.
Qed.

Lemma setNamed_NoDup (attrs : list attr) (k v : jsstring) :
  NoDup attrs.*1 -> NoDup (setNamed attrs k v).*1.
Proof.
  intros Hnd. destruct (decide (k ∈ attrs.*1)) as [Hin|Hin].
  - by rewrite setNamed_names_old.
  - rewrite setNamed_names_new by done.
    apply NoDup_app. split_and!; [done| |apply NoDup_singleton].
    intros x Hx Hx'. apply list_elem_of_singleton in Hx' as ->. done.
Qed.

Lemma elem_of_setNamed (attrs : list attr) (k v n w : jsstring) :
  (n, w) ∈ setNamed attrs k v -> (n, w) ∈ attrs \/ (n = k /\ w = v).
Proof.
  induction attrs as [|[k' v'] attrs IH]; simpl.
  - intros [= -> ->]%list_elem_of_singleton. by right.
  - destruct (jseq k k') eqn:E.
    + apply jseq_true in E as <-.
      intros [[= -> ->]|H]%elem_of_cons; [by right|]. left. by right.
    + intros [[= -> ->]|H]%elem_of_cons; [left; by left|].
      destruct (IH H) as [?|?]; [left; by right|by right].
Qed.

Lemma setNamed_idem (attrs : list attr) (k v : jsstring) :
  setNamed (setNamed attrs k v) k v = setNamed attrs k v.
Proof.
  induction attrs as [|[k' v'] attrs IH]; simpl.
  - by rewrite jseq_refl.
  - destruct (jseq k k') eqn:E; simpl; rewrite E; [done|by rewrite IH].
Qed.

Lemma setNamed_absent (attrs : list attr) (k v : jsstring) :
  assoc k attrs = None -> setNamed attrs k v = attrs ++ [(k, v)].
Proof.
  induction attrs as [|[k' v'] attrs IH]; simpl; [done|].
  destruct (jseq k k'); [done|]. intros H. by rewrite IH.
Qed.

(** The name [rel] as the hardener passes it is in lower case already. *)
Lemma getAttribute_setAttribute_eq (attrs : list attr) (k v : jsstring) :
  asciiLowerCase k = k ->
  getAttribute (setAttribute attrs k v) k = Some v.
Proof.
  intros Hk. rewrite (getAttribute_held _ _ Hk), (setAttribute_held _ _ _ Hk).
  apply assoc_setNamed_eq.
Qed.

Lemma getAttribute_setAttribute_ne (attrs : list attr) (k v name : jsstring) :
  asciiLowerCase k = k -> asciiLowerCase name = name -> name <> k ->
  getAttribute (setAttribute attrs k v) name = getAttribute attrs name.
Proof.
  intros Hk Hname Hne.
  rewrite !(getAttribute_held _ _ Hname), (setAttribute_held _ _ _ Hk).
  by apply assoc_setNamed_ne.
Qed.

Lemma setAttribute_NoDup (attrs : list attr) (k v : jsstring) :
  NoDup attrs.*1 -> NoDup (setAttribute attrs k v).*1.
Proof. apply setNamed_NoDup. Qed.

Lemma elem_of_setAttribute (attrs : list attr) (k v n w : jsstring) :
  asciiLowerCase k = k ->
  (n, w) ∈ setAttribute attrs k v -> (n, w) ∈ attrs \/ (n = k /\ w = v).
Proof. intros Hk. rewrite (setAttribute_held _ _ _ Hk). apply elem_of_setNamed. Qed.

(** The hardener adds no name but [rel]. *)
Lemma ensureSafeLinkAttrs_names (tagName : jsstring) (attrs : list attr)
    (n : jsstring) :
  n ∈ (ensureSafeLinkAttrs tagName attrs).*1 -> n ∈ attrs.*1 \/ n = lit "rel".
Proof.
  unfold ensureSafeLinkAttrs. cbv zeta.
  destruct (_ && _); [|by left].
  rewrite setAttribute_held by reflexivity.
  intros ([n' w] & -> & Hin)%list_elem_of_fmap.
  apply elem_of_setNamed in Hin as [Hin|[-> _]]; [left|by right].
  change n' with (fst (n', w)). by apply list_elem_of_fmap_2.
Qed.

(** C4. For every tag that the classifier hands to the filter, that is
    every tag of [SAFE_ELEMENTS] (the one call of [isAllowedAttr] is
    behind that test), and every attribute name, the name decision is:
    not allowed if the lower-cased name starts with [on] or is [style];
    otherwise allowed if it is in the global allowlist; otherwise allowed
    exactly if it is in the tag's own allowlist.  On a kept element that
    holds its attribute names as section 3 says (unique, in lower case),
    an attribute whose lower-cased name is [href] or [src], which passes
    that check and whose value fails [isSafeUrl], is removed: its name
    is absent after the attribute loop and after the link hardener, and
    what remains are entries of the original list, values untouched. *)
Theorem attribute_decision (tag : jsstring)
    (Hsafe : has SAFE_ELEMENTS tag = true) :
  (forall name,
      isAllowedAttr tag name = Return (isAllowedAttribute_spec tag name))
  /\ (forall tagName attrs name value,
        toLowerCase tagName = tag ->
        NoDup attrs.*1 ->
        forallb lowerCaseName attrs = true ->
        (name, value) ∈ attrs ->
        toLowerCase name = lit "href" \/ toLowerCase name = lit "src" ->
        isAllowedAttr tag (toLowerCase name) = Return true ->
        isSafeUrl (Some value) = false ->
        exists attrs',
          sanitizeAttributes tag attrs = Return attrs'
          /\ sublist attrs' attrs
          /\ name ∉ attrs'.*1
          /\ name ∉ (ensureSafeLinkAttrs tagName attrs').*1).
Proof.
  pose proof (safe_tag_not_inherited _ Hsafe) as Htag.
  split; [intros name; by apply isAllowedAttr_spec_eq|].
  intros tagName attrs name value _ Hnd Hlow Hin Hurl Hok Hbad.
  exists (sanitizedAttributes tag attrs).
  assert (Hgone : name ∉ (sanitizedAttributes tag attrs).*1).
  { rewrite sanitizedAttributes_filter by done. intros Hname.
    apply list_elem_of_fmap in Hname as ([k v] & -> & Hkv). cbn [fst] in *.
    apply list_elem_of_In, filter_In in Hkv as [Hkv Hkeep].
    apply list_elem_of_In in Hkv.
    assert (v = value) as ->.
    { pose proof (assoc_NoDup _ _ _ Hnd Hin) as E1.
      pose proof (assoc_NoDup _ _ _ Hnd Hkv) as E2. congruence. }
    unfold keepAttr in Hkeep. cbn [fst snd] in Hkeep.
    apply andb_true_iff in Hkeep as [_ Hkeep].
    replace (jseq (toLowerCase k) (lit "href") || jseq (toLowerCase k) (lit "src"))
      with true in Hkeep; [congruence|].
    symmetry. apply orb_true_iff. destruct Hurl as [->| ->]; auto. }
  split_and!.
  - by apply sanitizeAttributes_eq.
  - apply sanitizedAttributes_sublist.
  - exact Hgone.
  - intros [Hn| ->]%ensureSafeLinkAttrs_names; [done|].
    destruct Hurl as [H|H]; vm_compute in H; discriminate H.
Qed.

(** ** Link hardener *)

Lemma has_app (l k : list jsstring) (x : jsstring) :
  has (l ++ k) x = has l x || has k x.
Proof. unfold has. apply existsb_app. Qed.

Lemma dedup_ext (s1 s2 xs : list jsstring) :
  (forall x, has s1 x = has s2 x) -> dedup s1 xs = dedup s2 xs.
Proof.
  revert s1 s2. induction xs as [|x xs IH]; simpl; intros s1 s2 H; [done|].
  rewrite <- (H x). destruct (has s1 x); [by apply IH|].
  f_equal. apply IH. intros y. unfold has in *. simpl. by rewrite H.
Qed.

(** Feeding an array to a [Set] keeps the first occurrences, in order. *)
Lemma fold_add_dedup (xs acc : list jsstring) :
  fold_left add xs acc = acc ++ dedup acc xs.
Proof.
  revert acc. induction xs as [|x xs IH]; simpl; intros acc.
  - by rewrite app_nil_r.
  - unfold add at 2. destruct (has acc x) eqn:E; [apply IH|].
    rewrite IH, <- app_assoc. simpl. do 2 f_equal.
    apply dedup_ext. intros y. rewrite has_app. unfold has. simpl.
    by rewrite orb_false_r, orb_comm.
Qed.

Lemma elem_of_dedup (seen xs : list jsstring) (x : jsstring) :
  x ∈ dedup seen xs <-> x ∈ xs /\ x ∉ seen.
Proof.
  revert seen. induction xs as [|y xs IH]; simpl; intros seen.
  - split; [intros H; by apply elem_of_nil in H|intros [H _]; by apply elem_of_nil in H].
  - destruct (has seen y) eqn:E.
    + apply has_true in E. rewrite IH, elem_of_cons. split; [tauto|].
      intros [[->|?] ?]; tauto.
    + apply has_false in E. rewrite !elem_of_cons, IH, not_elem_of_cons.
      split.
      * intros [->|(? & ? & ?)]; tauto.
      * intros [[->|?] ?]; [tauto|]. destruct (decide (x = y)); tauto.
Qed.

Lemma dedup_NoDup (seen xs : list jsstring) : NoDup (dedup seen xs).
Proof.
  revert seen. induction xs as [|y xs IH]; simpl; intros seen.
  - apply NoDup_nil_2.
  - destruct (has seen y); [apply IH|].
    apply NoDup_cons. split; [|apply IH].
    rewrite elem_of_dedup, not_elem_of_cons. tauto.
Qed.

Lemma dedup_id (seen xs : list jsstring) :
  NoDup xs -> (forall x, x ∈ xs -> x ∉ seen) -> dedup seen xs = xs.
Proof.
  revert seen. induction xs as [|y xs IH]; simpl; intros seen Hnd Hs; [done|].
  apply NoDup_cons in Hnd as [Hy Hnd].
  assert (E : has seen y = false) by (apply has_false, Hs; by left).
  rewrite E. f_equal. apply IH; [done|].
  intros x Hx. rewrite not_elem_of_cons. split; [by intros ->|].
  apply Hs. by right.
Qed.

(** The two tokens the hardener needs, appended where missing. *)
Lemma fold_add_needed (parts : list jsstring) :
  fold_left add [lit "noopener"; lit "noreferrer"] parts
  = parts ++ List.filter (fun x => negb (has parts x))
                         [lit "noopener"; lit "noreferrer"].
Proof.
  cbn [fold_left List.filter]. unfold add at 2.
  destruct (has parts (lit "noopener")) eqn:E1; cbn [negb].
  - unfold add. destruct (has parts (lit "noreferrer")); cbn [negb];
      [by rewrite app_nil_r|done].
  - unfold add. rewrite has_app.
    replace (has [lit "noopener"] (lit "noreferrer")) with false by reflexivity.
    rewrite orb_false_r.
    destruct (has parts (lit "noreferrer")); cbn [negb]; [done|].
    by rewrite <- app_assoc.
Qed.

Lemma ensureSafeLinkAttrs_eq (tagName : jsstring) (attrs : list attr) :
  ensureSafeLinkAttrs tagName attrs =
    if jseq (toLowerCase tagName) (lit "a")
       && match getAttribute attrs (lit "target") with
          | Some t => jseq t (lit "_blank")
          | None => false
          end
    then setAttribute attrs (lit "rel")
           (hardenedRel_spec
              (toLowerCase (default [] (getAttribute attrs (lit "rel")))))
    else attrs.
Proof.
  unfold ensureSafeLinkAttrs. cbv zeta.
  destruct (_ && _); [|done].
  rewrite fold_add_needed. unfold newSet. rewrite fold_add_dedup. done.
Qed.

(** *** Splitting and joining *)

Lemma noSpace_app (x y : jsstring) :
  noSpace (x ++ y) = noSpace x && noSpace y.
Proof. unfold noSpace. apply forallb_app. Qed.

Lemma noSpace_rev (x : jsstring) : noSpace (rev x) = noSpace x.
Proof.
  induction x as [|u x IH]; [done|]. simpl rev.
  rewrite noSpace_app, IH. simpl. rewrite andb_true_r. apply andb_comm.
Qed.

Lemma splitOnSpace_noSpace (s cur : jsstring) (inRun : bool) :
  noSpace cur = true ->
  Forall (fun p => noSpace p = true) (splitOnSpace s cur inRun).
Proof.
  revert cur inRun. induction s as [|u s IH]; simpl; intros cur inRun Hcur.
  - apply Forall_singleton. by rewrite noSpace_rev.
  - destruct (isWhiteSpace u) eqn:E.
    + destruct inRun; [by apply IH|].
      apply Forall_cons. split; [by rewrite noSpace_rev|by apply IH].
    + apply IH. simpl. by rewrite E.
Qed.

Lemma split_tokens (s : jsstring) :
  Forall (fun p => isToken p = true) (List.filter truthy (split s)).
Proof.
  apply Forall_forall. intros p Hp.
  apply list_elem_of_In, filter_In in Hp as [Hp Ht].
  unfold isToken. rewrite Ht. simpl.
  pose proof (splitOnSpace_noSpace s [] false eq_refl) as H.
  rewrite Forall_forall in H. apply H. by apply list_elem_of_In.
Qed.

Lemma splitOnSpace_word (x rest cur : jsstring) :
  noSpace x = true ->
  splitOnSpace (x ++ rest) cur false = splitOnSpace rest (rev x ++ cur) false.
Proof.
  revert cur. induction x as [|u x IH]; simpl; intros cur Hx; [done|].
  apply andb_true_iff in Hx as [Hu Hx]. apply negb_true_iff in Hu.
  rewrite Hu, IH by done. by rewrite <- app_assoc.
Qed.

Lemma splitOnSpace_after_run (x rest cur : jsstring) :
  isToken x = true ->
  splitOnSpace (x ++ rest) cur true = splitOnSpace (x ++ rest) cur false.
Proof.
  destruct x as [|u x]; [done|]. unfold isToken. simpl.
  intros [Hu _]%andb_true_iff. apply negb_true_iff in Hu. by rewrite Hu.
Qed.

Lemma split_join_aux (x : jsstring) (ps : list jsstring) (b : bool) :
  Forall (fun p => isToken p = true) (x :: ps) ->
  List.filter truthy (splitOnSpace (join (x :: ps)) [] b) = x :: ps.
Proof.
  revert x b. induction ps as [|y ps IH]; intros x b Hall;
    apply Forall_cons in Hall as [Hx Hall].
  - cbn [join].
    assert (Hs : splitOnSpace x [] b = [x]).
    { rewrite <- (app_nil_r x) at 1.
      destruct b; [rewrite splitOnSpace_after_run by done|];
        (rewrite splitOnSpace_word by (unfold isToken in Hx; by apply andb_true_iff in Hx as [_ ?]));
        simpl; by rewrite app_nil_r, rev_involutive. }
    rewrite Hs. cbn [List.filter]. unfold isToken in Hx.
    by apply andb_true_iff in Hx as [-> _].
  - change (join (x :: y :: ps)) with (x ++ 32%N :: join (y :: ps)).
    assert (Hs : splitOnSpace (x ++ 32%N :: join (y :: ps)) [] b
                 = x :: splitOnSpace (join (y :: ps)) [] true).
    { destruct b; [rewrite splitOnSpace_after_run by done|];
        (rewrite splitOnSpace_word by (unfold isToken in Hx; by apply andb_true_iff in Hx as [_ ?]));
        simpl; by rewrite app_nil_r, rev_involutive. }
    rewrite Hs. cbn [List.filter]. unfold isToken in Hx.
    apply andb_true_iff in Hx as [-> _]. f_equal. by apply IH.
Qed.

(** Splitting what [join] made of tokens gives the tokens back. *)
Lemma split_join (ps : list jsstring) :
  Forall (fun p => isToken p = true) ps ->
  List.filter truthy (split (join ps)) = ps.
Proof.
  destruct ps as [|x ps]; [done|]. apply split_join_aux.
Qed.

Lemma relTokens_join (ps : list jsstring) :
  Forall (fun p => isToken p = true) ps -> NoDup ps ->
  relTokens (join ps) = ps.
Proof.
  intros Htok Hnd. unfold relTokens. rewrite split_join by done.
  apply dedup_id; [done|]. intros x _. apply not_elem_of_nil.
Qed.

Lemma relTokens_tokens (r : jsstring) :
  Forall (fun p => isToken p = true) (relTokens r).
Proof.
  apply Forall_forall. intros p Hp.
  apply elem_of_dedup in Hp as [Hp _].
  pose proof (split_tokens r) as H. rewrite Forall_forall in H. by apply H.
Qed.

(** The tokens of a hardened value: those of the value it was made
    from, followed by whichever of the two needed ones was missing. *)
Lemma relTokens_hardened (r : jsstring) :
  relTokens (hardenedRel_spec r)
  = relTokens r ++ List.filter (fun x => negb (has (relTokens r) x))
                               [lit "noopener"; lit "noreferrer"].
Proof.
  unfold hardenedRel_spec. cbv zeta. apply relTokens_join.
  - apply Forall_app. split; [apply relTokens_tokens|].
    apply Forall_forall. intros p Hp.
    apply list_elem_of_In, filter_In in Hp as [Hp _].
    destruct Hp as [<-|[<-|[]]]; reflexivity.
  - apply NoDup_app. split_and!.
    + apply dedup_NoDup.
    + intros x Hx Hx'. apply list_elem_of_In, filter_In in Hx' as [_ Hx'].
      apply negb_true_iff, has_false in Hx'. done.
    + apply NoDup_ListNoDup, List.NoDup_filter, NoDup_ListNoDup.
      apply NoDup_cons. split; [|apply NoDup_singleton].
      intros H. apply list_elem_of_singleton in H. discriminate H.
Qed.

Lemma hardened_has_needed (r x : jsstring) :
  x = lit "noopener" \/ x = lit "noreferrer" ->
  x ∈ relTokens (hardenedRel_spec r).
Proof.
  intros Hx. rewrite relTokens_hardened, elem_of_app.
  destruct (has (relTokens r) x) eqn:E.
  - left. by apply has_true.
  - right. apply list_elem_of_In, filter_In. rewrite E. split; [|done].
    simpl. destruct Hx as [->| ->]; auto.
Qed.

(** Hardening a hardened value changes nothing. *)
Lemma hardenedRel_spec_idem (r : jsstring) :
  hardenedRel_spec (hardenedRel_spec r) = hardenedRel_spec r.
Proof.
  unfold hardenedRel_spec at 1. cbv zeta.
  replace (List.filter _ [lit "noopener"; lit "noreferrer"]) with (@nil jsstring).
  - rewrite app_nil_r, relTokens_hardened. done.
  - symmetry. cbn [List.filter].
    assert (H1 : has (relTokens (hardenedRel_spec r)) (lit "noopener") = true)
      by (apply has_true, hardened_has_needed; auto).
    assert (H2 : has (relTokens (hardenedRel_spec r)) (lit "noreferrer") = true)
      by (apply has_true, hardened_has_needed; auto).
    by rewrite H1, H2.
Qed.

(** C6 (amended). On an anchor whose [target] is [_blank] the hardener
    takes the lower-cased [rel] value (empty when the attribute is
    absent), splits it on white space into tokens without duplicates in
    first-seen order, appends [noopener] then [noreferrer] where missing
    and writes the tokens back joined by single spaces: the tokens of
    the written value are those of the lower-cased old value followed by
    the missing needed ones, so both needed tokens are there and every
    token of the lower-cased old value still is.  On any other element
    it changes nothing. *)
Theorem link_hardener (tagName : jsstring) (attrs : list attr) :
  let rel := toLowerCase (default [] (getAttribute attrs (lit "rel"))) in
  let out := ensureSafeLinkAttrs tagName attrs in
  (toLowerCase tagName = lit "a" ->
   getAttribute attrs (lit "target") = Some (lit "_blank") ->
   out = setAttribute attrs (lit "rel") (hardenedRel_spec rel)
   /\ getAttribute out (lit "rel") = Some (hardenedRel_spec rel)
   /\ relTokens (hardenedRel_spec rel)
      = relTokens rel ++ List.filter (fun x => negb (has (relTokens rel) x))
                                     [lit "noopener"; lit "noreferrer"]
   /\ lit "noopener" ∈ relTokens (hardenedRel_spec rel)
   /\ lit "noreferrer" ∈ relTokens (hardenedRel_spec rel)
   /\ (forall t, t ∈ relTokens rel -> t ∈ relTokens (hardenedRel_spec rel)))
  /\ (~ (toLowerCase tagName = lit "a"
         /\ getAttribute attrs (lit "target") = Some (lit "_blank")) ->
      out = attrs).
Proof.
  intros rel out. subst out. rewrite ensureSafeLinkAttrs_eq. fold rel. split.
  - intros -> ->. rewrite !jseq_refl. cbn [andb]. split_and!.
    + done.
    + by apply getAttribute_setAttribute_eq.
    + apply relTokens_hardened.
    + apply hardened_has_needed. auto.
    + apply hardened_has_needed. auto.
    + intros t Ht. rewrite relTokens_hardened. apply elem_of_app. by left.
  - intros Hnot.
    destruct (jseq (toLowerCase tagName) (lit "a")) eqn:E1; [|done].
    apply jseq_true in E1.
    destruct (getAttribute attrs (lit "target")) as [t|] eqn:E2; [|done].
    destruct (jseq t (lit "_blank")) eqn:E3; [|done].
    apply jseq_true in E3 as ->. by destruct Hnot.
Qed.

(** ** The store *)

Lemma lookup_update (f : node -> node) (n : nat) (h : dom) (k : nat) :
  update f n h !! k = if decide (k = n) then f <$> h !! k else h !! k.
Proof.
  unfold update. destruct (h !! n) as [nd|] eqn:E.
  - case_decide as Hk.
    + subst k. rewrite E. apply list_lookup_insert_eq.
      by apply lookup_lt_Some in E.
    + by apply list_lookup_insert_ne.
  - case_decide as Hk; [subst k; by rewrite E|done].
Qed.

Lemma lookup_update_eq (f : node -> node) (n : nat) (h : dom) :
  update f n h !! n = f <$> h !! n.
Proof. rewrite lookup_update. by rewrite decide_True. Qed.

Lemma lookup_update_ne (f : node -> node) (n : nat) (h : dom) (k : nat) :
  k <> n -> update f n h !! k = h !! k.
Proof. intros. rewrite lookup_update. by rewrite decide_False. Qed.

Lemma length_update (f : node -> node) (n : nat) (h : dom) :
  length (update f n h) = length h.
Proof. unfold update. destruct (h !! n); [apply length_insert|done]. Qed.

Lemma without_notin (x : nat) (l : list nat) : x ∉ l -> without x l = l.
Proof.
  unfold without. induction l as [|y l IH]; simpl; intros Hx; [done|].
  apply not_elem_of_cons in Hx as [Hne Hx].
  destruct (Nat.eqb_spec y x); [congruence|]. simpl. by rewrite IH.
Qed.

Lemma without_middle (x : nat) (L R : list nat) :
  x ∉ L -> x ∉ R -> without x (L ++ x :: R) = L ++ R.
Proof.
  intros HL HR. unfold without. rewrite List.filter_app. simpl.
  rewrite Nat.eqb_refl. simpl.
  fold (without x L). fold (without x R).
  by rewrite !without_notin.
Qed.

Lemma insertAt_middle (L R : list nat) (ref child : nat) :
  ref ∉ L -> insertAt (L ++ ref :: R) ref child = Some (L ++ child :: ref :: R).
Proof.
  induction L as [|y L IH]; simpl; intros HL.
  - by rewrite Nat.eqb_refl.
  - apply not_elem_of_cons in HL as [Hne HL].
    destruct (Nat.eqb_spec y ref); [congruence|].
    by rewrite IH.
Qed.

Lemma remove_no_parent (h : dom) (c : nat) :
  parentOf h c = None -> remove h c = h.
Proof. unfold remove. by intros ->. Qed.

Lemma remove_lookup (h : dom) (c p : nat) (nc np : node) (k : nat) :
  h !! c = Some nc -> parentNode nc = Some p -> h !! p = Some np -> p <> c ->
  remove h c !! k =
    if decide (k = c) then Some (setParent None nc)
    else if decide (k = p)
         then Some (setChildren (without c (childNodes np)) np)
         else h !! k.
Proof.
  intros Hc Hpar Hp Hne. unfold remove, parentOf. rewrite Hc, Hpar.
  rewrite !lookup_update. case_decide as Hk.
  - subst k. rewrite decide_False by done. by rewrite Hc.
  - case_decide; [subst k; by rewrite Hp|done].
Qed.

Lemma length_remove (h : dom) (c : nat) : length (remove h c) = length h.
Proof.
  unfold remove. destruct (parentOf h c); [|done].
  by rewrite !length_update.
Qed.

Lemma forEach_app {A S} (body : S -> A -> outcome S) (xs ys : list A) (s : S) :
  forEach body (xs ++ ys) s = (s' <- forEach body xs s ;; forEach body ys s').
Proof.
  revert s. induction xs as [|x xs IH]; simpl; intros s; [done|].
  destruct (body s x); simpl; [apply IH|done|done].
Qed.

Lemma children_lookup (h : dom) (n : nat) (nd : node) :
  h !! n = Some nd -> children h n = childNodes nd.
Proof. unfold children. by intros ->. Qed.

Lemma parentOf_lookup (h : dom) (n : nat) (nd : node) :
  h !! n = Some nd -> parentOf h n = parentNode nd.
Proof. unfold parentOf. by intros ->. Qed.

(** One turn of the unwrap loop: the first child [c] of [el] moves in
    front of [el] among the children of [p]. *)
Lemma insertBefore_move (h : dom) (p el c : nat) (nc : node)
    (ke kp : nodeKind) (pp : option nat) (cs L R : list nat) :
  h !! c = Some nc -> parentNode nc = Some el ->
  h !! el = Some (Node ke (Some p) (c :: cs)) ->
  h !! p = Some (Node kp pp (L ++ el :: R)) ->
  c ∉ cs -> c <> el -> c <> p -> el <> p -> el ∉ L ->
  exists h',
    insertBefore h p c el = Return h'
    /\ length h' = length h
    /\ forall k,
        h' !! k =
          if decide (k = c) then Some (setParent (Some p) nc)
          else if decide (k = p) then Some (Node kp pp (L ++ c :: el :: R))
          else if decide (k = el) then Some (Node ke (Some p) cs)
          else h !! k.
Proof.
  intros Hc Hpar Hel Hp Hcs Hce Hcp Hep HL.
  assert (Hrm : forall k, remove h c !! k =
            if decide (k = c) then Some (setParent None nc)
            else if decide (k = el) then Some (Node ke (Some p) cs)
            else h !! k).
  { intros k. rewrite (remove_lookup h c el nc _ k Hc Hpar Hel) by done.
    repeat case_decide; try done.
    unfold setChildren. simpl. destruct (Nat.eqb_spec c c); [|done]. simpl.
    fold (without c cs). by rewrite without_notin. }
  assert (Hp1 : remove h c !! p = Some (Node kp pp (L ++ el :: R))).
  { rewrite Hrm. by rewrite !decide_False by done. }
  unfold insertBefore.
  rewrite (children_lookup _ _ _ Hp). simpl childNodes.
  rewrite bool_decide_eq_true_2 by (apply elem_of_app; right; by left).
  cbn [negb]. rewrite (children_lookup _ _ _ Hp1). simpl childNodes.
  rewrite insertAt_middle by done.
  eexists. split; [done|]. split.
  - by rewrite !length_update, length_remove.
  - intros k. rewrite !lookup_update.
    destruct (decide (k = c)) as [->|Hkc].
    + rewrite decide_False by done. rewrite Hrm, decide_True by done. done.
    + destruct (decide (k = p)) as [->|Hkp]; [by rewrite Hp1|].
      rewrite Hrm. by rewrite decide_False by done.
Qed.

(** The whole loop: the children [cs] of [el] end up, in their order,
    in front of [el] among the children of its parent [p]. *)
Lemma unwrapLoop_moves (cs : list nat) :
  forall (fuel : nat) (h : dom) (p el : nat) (ke kp : nodeKind)
         (pp : option nat) (L R : list nat),
    length cs <= fuel ->
    h !! el = Some (Node ke (Some p) cs) ->
    h !! p = Some (Node kp pp (L ++ el :: R)) ->
    NoDup cs -> el ∉ cs -> p ∉ cs -> el <> p -> el ∉ L ->
    (forall c, c ∈ cs -> exists nc, h !! c = Some nc /\ parentNode nc = Some el) ->
    exists h',
      unwrapLoop fuel h p el = Return h'
      /\ length h' = length h
      /\ h' !! el = Some (Node ke (Some p) [])
      /\ h' !! p = Some (Node kp pp (L ++ cs ++ el :: R))
      /\ (forall c, c ∈ cs -> h' !! c = setParent (Some p) <$> h !! c)
      /\ (forall k, k ∉ cs -> k <> el -> k <> p -> h' !! k = h !! k).
Proof.
  induction cs as [|c cs IH];
    intros fuel h p el ke kp pp L R Hfuel Hel Hp Hnd Helcs Hpcs Hep HL Hpar.
  - exists h. destruct fuel; simpl; unfold firstChild;
      rewrite (children_lookup _ _ _ Hel); simpl; split_and!; try done;
      intros c Hc; by apply elem_of_nil in Hc.
  - destruct fuel as [|fuel]; [simpl in Hfuel; lia|].
    apply NoDup_cons in Hnd as [Hccs Hnd].
    apply not_elem_of_cons in Helcs as [Helc Helcs].
    apply not_elem_of_cons in Hpcs as [Hpc Hpcs].
    destruct (Hpar c) as (nc & Hc & Hncpar); [by left|].
    destruct (insertBefore_move h p el c nc ke kp pp cs L R)
      as (h1 & Hins & Hlen1 & Hh1); try done.
    simpl. unfold firstChild. rewrite (children_lookup _ _ _ Hel). simpl.
    rewrite Hins. simpl.
    destruct (IH fuel h1 p el ke kp pp (L ++ [c]) R)
      as (h' & Hloop & Hlen & Hel' & Hp' & Hcs' & Hframe).
    + simpl in Hfuel. lia.
    + rewrite Hh1. by rewrite !decide_False, decide_True by done.
    + rewrite Hh1. rewrite decide_False, decide_True by done.
      by rewrite <- app_assoc.
    + done.
    + done.
    + done.
    + done.
    + rewrite not_elem_of_app, not_elem_of_cons. split_and!; [done|done|].
      apply not_elem_of_nil.
    + intros c' Hc'. rewrite Hh1.
      rewrite !decide_False by (intros ->; done).
      apply Hpar. by right.
    + exists h'. split_and!.
      * done.
      * congruence.
      * done.
      * rewrite Hp'. by rewrite <- app_assoc.
      * intros c' [->|Hc']%elem_of_cons.
        -- rewrite Hframe by done. rewrite Hh1, decide_True by done.
           by rewrite Hc.
        -- rewrite Hcs' by done. rewrite Hh1.
           by rewrite !decide_False by (intros ->; done).
      * intros k [Hkc Hk]%not_elem_of_cons Hkel Hkp.
        rewrite Hframe by done. rewrite Hh1. by rewrite !decide_False by done.
Qed.

(** ** Trees in the store *)

(** Induction on trees with the hypothesis for every child. *)
Lemma tree_ind' (P : tree -> Prop) :
  (forall i s, P (TText i s)) ->
  (forall i tag attrs kids, Forall P kids -> P (TElem i tag attrs kids)) ->
  forall t, P t.
Proof.
  intros Htext Helem.
  fix IH 1. intros [i tag attrs kids|i s]; [|apply Htext].
  apply Helem. induction kids as [|t kids IHkids]; constructor; [apply IH|exact IHkids].
Qed.

Lemma rep_TElem (h : dom) (p : option nat) (i : nat) (tag : jsstring)
    (attrs : list attr) (kids : list tree) :
  rep h p (TElem i tag attrs kids) <->
  h !! i = Some (Node (ElementNode tag attrs) p (List.map rid kids))
  /\ NoDup attrs.*1
  /\ Forall (rep h (Some i)) kids.
Proof.
  simpl. do 2 (apply and_iff_compat_l).
  induction kids as [|t kids IH]; [by split|].
  rewrite Forall_cons. by rewrite IH.
Qed.

Lemma rid_in_ids (t : tree) : rid t ∈ ids t.
Proof. destruct t; simpl; by left. Qed.

Lemma roots_in_ids (ts : list tree) (x : nat) :
  x ∈ List.map rid ts -> x ∈ List.flat_map ids ts.
Proof.
  intros Hx. apply list_elem_of_In, in_map_iff in Hx as (t & <- & Ht).
  apply list_elem_of_In, in_flat_map. exists t. split; [done|].
  apply list_elem_of_In, rid_in_ids.
Qed.

Lemma elem_of_flat_map {A B} (f : A -> list B) (l : list A) (y : B) :
  y ∈ List.flat_map f l <-> exists x, x ∈ l /\ y ∈ f x.
Proof.
  rewrite list_elem_of_In, in_flat_map. split; intros (x & ? & ?); exists x;
    by rewrite ?list_elem_of_In in *.
Qed.

Lemma rep_root (h : dom) (p : option nat) (t : tree) :
  rep h p t -> exists nd, h !! rid t = Some nd /\ parentNode nd = p.
Proof.
  destruct t; simpl; [intros (H & _)|intros H]; eexists; split; try exact H; done.
Qed.

(** [rep] looks at the nodes of the tree only. *)
Lemma rep_frame (h h' : dom) (t : tree) :
  forall p, (forall k, k ∈ ids t -> h' !! k = h !! k) -> rep h p t -> rep h' p t.
Proof.
  induction t as [i s|i tag attrs kids IH] using tree_ind'; intros p Hsame.
  - simpl. intros <-. apply Hsame. by left.
  - rewrite !rep_TElem. intros (Hi & Hnd & Hkids). split_and!; [|done|].
    + rewrite <- Hi. apply Hsame. by left.
    + rewrite Forall_forall in IH, Hkids |- *. intros t Ht.
      apply IH; [done| |by apply Hkids].
      intros k Hk. apply Hsame. simpl. right.
      apply elem_of_flat_map. by exists t.
Qed.

Lemma rep_frame_forest (h h' : dom) (p : option nat) (ts : list tree) :
  (forall k, k ∈ List.flat_map ids ts -> h' !! k = h !! k) ->
  Forall (rep h p) ts -> Forall (rep h' p) ts.
Proof.
  intros Hsame. rewrite !Forall_forall. intros H t Ht.
  apply (rep_frame h); [|by apply H].
  intros k Hk. apply Hsame, elem_of_flat_map. by exists t.
Qed.

(** A tree whose root alone got a new parent. *)
Lemma rep_reparent (h h' : dom) (p p' : option nat) (t : tree) :
  NoDup (ids t) ->
  h' !! rid t = setParent p' <$> h !! rid t ->
  (forall k, k ∈ ids t -> k <> rid t -> h' !! k = h !! k) ->
  rep h p t -> rep h' p' t.
Proof.
  destruct t as [i tag attrs kids|i s]; simpl rid; intros Hnd Hroot Hsame.
  - rewrite !rep_TElem. intros (Hi & Hattrs & Hkids).
    rewrite Hi in Hroot. split_and!; [done|done|].
    apply (rep_frame_forest h); [|done].
    intros k Hk. simpl in Hnd. apply NoDup_cons in Hnd as [Hi' _].
    apply Hsame; [simpl; by right|]. by intros ->.
  - simpl. intros Hi. by rewrite Hi in Hroot.
Qed.

Lemma reparent_forest (h h' : dom) (p p' : nat) (ts : list tree) :
  NoDup (List.flat_map ids ts) ->
  (forall c, c ∈ List.map rid ts -> h' !! c = setParent (Some p') <$> h !! c) ->
  (forall k, k ∈ List.flat_map ids ts -> k ∉ List.map rid ts -> h' !! k = h !! k) ->
  Forall (rep h (Some p)) ts -> Forall (rep h' (Some p')) ts.
Proof.
  induction ts as [|t ts IH]; intros Hnd Hroots Hsame Hrep; [done|].
  simpl in Hnd. apply NoDup_app in Hnd as (Hndt & Hdisj & Hndts).
  apply Forall_cons in Hrep as [Ht Hts]. apply Forall_cons. split.
  - apply (rep_reparent h h' (Some p)); [done| |  |done].
    + apply Hroots. simpl. by left.
    + intros k Hk Hne. apply Hsame; [simpl; apply elem_of_app; by left|].
      simpl. apply not_elem_of_cons. split; [done|].
      intros Hin. apply (Hdisj k Hk). by apply roots_in_ids.
  - apply IH; [done| | |done].
    + intros c Hc. apply Hroots. simpl. by right.
    + intros k Hk Hnot. apply Hsame; [simpl; apply elem_of_app; by right|].
      simpl. apply not_elem_of_cons. split; [|done].
      intros ->. apply (Hdisj (rid t)); [apply rid_in_ids|done].
Qed.

Lemma NoDup_roots (ts : list tree) :
  NoDup (List.flat_map ids ts) -> NoDup (List.map rid ts).
Proof.
  induction ts as [|t ts IH]; simpl; intros Hnd; [apply NoDup_nil_2|].
  apply NoDup_app in Hnd as (Hndt & Hdisj & Hndts).
  apply NoDup_cons. split; [|by apply IH].
  intros Hin. apply (Hdisj (rid t)); [apply rid_in_ids|by apply roots_in_ids].
Qed.

(** The classifier invents no node. *)
Lemma clean_ids (t : tree) (x : nat) :
  x ∈ List.flat_map ids (clean t) -> x ∈ ids t.
Proof.
  revert x. induction t as [i s|i tag attrs kids IH] using tree_ind'; intros x.
  - simpl. done.
  - assert (Hkids : x ∈ List.flat_map ids (List.flat_map clean kids) ->
                    x ∈ List.flat_map ids kids).
    { intros (t' & (t & Ht & Ht')%elem_of_flat_map & Hx)%elem_of_flat_map.
      apply elem_of_flat_map. exists t. split; [done|].
      rewrite Forall_forall in IH. apply IH; [done|].
      apply elem_of_flat_map. by exists t'. }
    cbn [clean ids].
    destruct (has ALWAYS_DROP (toLowerCase tag));
      [intros H; by apply elem_of_nil in H|].
    destruct (negb (has SAFE_ELEMENTS (toLowerCase tag))).
    + intros H. right. by apply Hkids.
    + cbn [List.flat_map ids]. rewrite app_nil_r.
      intros [->|H]%elem_of_cons; [by left|].
      right. by apply Hkids.
Qed.

Lemma clean_ids_forest (ts : list tree) (x : nat) :
  x ∈ List.flat_map ids (List.flat_map clean ts) -> x ∈ List.flat_map ids ts.
Proof.
  intros (t' & (t & Ht & Ht')%elem_of_flat_map & Hx)%elem_of_flat_map.
  apply elem_of_flat_map. exists t. split; [done|].
  apply clean_ids, elem_of_flat_map. by exists t'.
Qed.

(** ** The classifier on the store *)

Lemma unwrapElement_splices (h : dom) (p el : nat) (ke kp : nodeKind)
    (pp : option nat) (cs L R : list nat) :
  h !! el = Some (Node ke (Some p) cs) ->
  h !! p = Some (Node kp pp (L ++ el :: R)) ->
  NoDup cs -> el ∉ cs -> p ∉ cs -> el <> p -> el ∉ L -> el ∉ R ->
  (forall c, c ∈ cs -> exists nc, h !! c = Some nc /\ parentNode nc = Some el) ->
  exists h',
    unwrapElement h el = Return h'
    /\ length h' = length h
    /\ h' !! el = Some (Node ke None [])
    /\ h' !! p = Some (Node kp pp (L ++ cs ++ R))
    /\ (forall c, c ∈ cs -> h' !! c = setParent (Some p) <$> h !! c)
    /\ (forall k, k ∉ cs -> k <> el -> k <> p -> h' !! k = h !! k).
Proof.
  intros Hel Hp Hnd Helcs Hpcs Hep HL HR Hpar.
  destruct (unwrapLoop_moves cs (length cs) h p el ke kp pp L R)
    as (h1 & Hloop & Hlen & Hel1 & Hp1 & Hcs1 & Hframe); try done.
  unfold unwrapElement.
  rewrite (parentOf_lookup _ _ _ Hel), (children_lookup _ _ _ Hel). simpl.
  rewrite Hloop. simpl.
  assert (Hrm : forall k, remove h1 el !! k =
            if decide (k = el) then Some (Node ke None [])
            else if decide (k = p) then Some (Node kp pp (L ++ cs ++ R))
            else h1 !! k).
  { intros k. rewrite (remove_lookup h1 el p _ _ k Hel1 eq_refl Hp1) by done.
    repeat case_decide; try done.
    unfold setChildren. simpl. do 2 f_equal.
    rewrite (app_assoc L cs), without_middle, <- app_assoc; [done| |done].
    rewrite not_elem_of_app. done. }
  eexists. split; [done|]. split_and!.
  - by rewrite length_remove.
  - by rewrite Hrm, decide_True.
  - by rewrite Hrm, decide_False, decide_True.
  - intros c Hc. rewrite Hrm.
    rewrite !decide_False by (intros ->; done). by apply Hcs1.
  - intros k Hk Hkel Hkp. rewrite Hrm, !decide_False by done. by apply Hframe.
Qed.

Lemma safe_not_dropped (tag : jsstring) :
  has SAFE_ELEMENTS tag = true -> has ALWAYS_DROP tag = false.
Proof.
  intros H. apply has_true, list_elem_of_In in H.
  unfold SAFE_ELEMENTS in H. simpl in H.
  repeat (destruct H as [<-|H]; [reflexivity|]). destruct H.
Qed.

Lemma filter_NoDup_names (f : attr -> bool) (attrs : list attr) :
  NoDup attrs.*1 -> NoDup (List.filter f attrs).*1.
Proof.
  induction attrs as [|[k v] attrs IH]; simpl; intros Hnd; [done|].
  apply NoDup_cons in Hnd as [Hk Hnd].
  destruct (f (k, v)); [|by apply IH].
  simpl. apply NoDup_cons. split; [|by apply IH].
  intros Hin. apply Hk.
  apply list_elem_of_fmap in Hin as ([k' v'] & -> & Hin).
  apply list_elem_of_In, filter_In in Hin as [Hin _].
  apply list_elem_of_fmap. exists (k', v'). split; [done|].
  by apply list_elem_of_In.
Qed.

Lemma sanitizedAttributes_NoDup (tag : jsstring) (attrs : list attr) :
  NoDup attrs.*1 -> NoDup (sanitizedAttributes tag attrs).*1.
Proof.
  intros Hnd. eapply sublist_NoDup; [exact Hnd|].
  apply fmap_sublist, sanitizedAttributes_sublist.
Qed.

Lemma ensureSafeLinkAttrs_NoDup (tagName : jsstring) (attrs : list attr) :
  NoDup attrs.*1 -> NoDup (ensureSafeLinkAttrs tagName attrs).*1.
Proof.
  intros Hnd. rewrite ensureSafeLinkAttrs_eq.
  destruct (_ && _); [by apply setAttribute_NoDup|done].
Qed.

(** The step on a kept element: only its attribute list changes. *)
Lemma sanitizeElement_keep (h : dom) (el : nat) (tagName : jsstring)
    (attrs : list attr) (p : option nat) (cs : list nat) :
  h !! el = Some (Node (ElementNode tagName attrs) p cs) ->
  has SAFE_ELEMENTS (toLowerCase tagName) = true ->
  let attrs' := ensureSafeLinkAttrs tagName
                  (sanitizedAttributes (toLowerCase tagName) attrs) in
  sanitizeElement h el = Return (<[el := Node (ElementNode tagName attrs') p cs]> h).
Proof.
  intros Hel Hsafe attrs'. unfold sanitizeElement. rewrite Hel.
  cbv zeta. rewrite (safe_not_dropped _ Hsafe), Hsafe. cbn [negb].
  rewrite sanitizeAttributes_eq by (by apply safe_tag_not_inherited).
  cbn [bind]. unfold update. by rewrite Hel.
Qed.

Lemma sanitizeElement_drop (h : dom) (el : nat) (tagName : jsstring)
    (attrs : list attr) (p : option nat) (cs : list nat) :
  h !! el = Some (Node (ElementNode tagName attrs) p cs) ->
  has ALWAYS_DROP (toLowerCase tagName) = true ->
  sanitizeElement h el = Return (remove h el).
Proof. intros Hel Hdrop. unfold sanitizeElement. by rewrite Hel, Hdrop. Qed.

Lemma sanitizeElement_unwrap (h : dom) (el : nat) (tagName : jsstring)
    (attrs : list attr) (p : option nat) (cs : list nat) :
  h !! el = Some (Node (ElementNode tagName attrs) p cs) ->
  has ALWAYS_DROP (toLowerCase tagName) = false ->
  has SAFE_ELEMENTS (toLowerCase tagName) = false ->
  sanitizeElement h el = unwrapElement h el.
Proof.
  intros Hel Hdrop Hsafe. unfold sanitizeElement. by rewrite Hel, Hdrop, Hsafe.
Qed.

Lemma walksForest_nil : walksForest [].
Proof.
  intros h p kp pp L R _ _ _ Hp. exists h. simpl in *. split_and!; done.
Qed.

Lemma walksForest_cons (t : tree) (ts : list tree) :
  walksTree t -> walksForest ts -> walksForest (t :: ts).
Proof.
  intros Ht Hts h p kp pp L R Hrep Hnd [Hp Hapart] Hhang.
  apply Forall_cons in Hrep as [Hrept Hrepts].
  cbn [List.flat_map] in *.
  apply NoDup_app in Hnd as (Hndt & Hdisj & Hndts).
  rewrite not_elem_of_app in Hp. destruct Hp as [Hpt Hpts].
  destruct (Ht h p kp pp L (List.map rid ts ++ R))
    as (h1 & Hrun1 & Hlen1 & Hhang1 & Hrep1 & Hframe1).
  { by apply Forall_singleton. }
  { simpl. by rewrite app_nil_r. }
  { simpl. rewrite app_nil_r. split; [done|]. intros x Hx.
    destruct (Hapart x) as [HxL HxR]; [apply elem_of_app; by left|].
    split; [done|]. rewrite not_elem_of_app. split; [|done].
    intros Hin. apply (Hdisj x Hx). by apply roots_in_ids. }
  { unfold hangs in *. by rewrite Hhang. }
  simpl in Hrun1, Hhang1, Hrep1, Hframe1. rewrite app_nil_r in *.
  destruct (Hts h1 p kp pp (L ++ List.map rid (clean t)) R)
    as (h2 & Hrun2 & Hlen2 & Hhang2 & Hrep2 & Hframe2).
  { apply (rep_frame_forest h); [|done].
    intros k Hk. apply Hframe1; [|by intros ->].
    intros Hkt. by apply (Hdisj k Hkt). }
  { done. }
  { split; [done|]. intros x Hx.
    destruct (Hapart x) as [HxL HxR]; [apply elem_of_app; by right|].
    split; [|done]. rewrite not_elem_of_app. split; [done|].
    intros Hin. apply roots_in_ids, clean_ids in Hin. by apply (Hdisj x Hin). }
  { unfold hangs in *. rewrite Hhang1. f_equal. by rewrite <- !app_assoc. }
  exists h2. split_and!.
  - rewrite forEach_app, Hrun1. exact Hrun2.
  - congruence.
  - unfold hangs in *. rewrite Hhang2. f_equal.
    rewrite List.map_app. by rewrite <- !app_assoc.
  - apply Forall_app. split; [|done].
    apply (rep_frame_forest h1); [|done].
    intros k Hk. apply clean_ids in Hk. apply Hframe2; [|by intros ->].
    intros Hkts. by apply (Hdisj k Hk).
  - intros k Hk Hkp. rewrite not_elem_of_app in Hk. destruct Hk as [Hk1 Hk2].
    rewrite Hframe2 by done. by apply Hframe1.
Qed.

Lemma walksTree_text (i : nat) (s : jsstring) : walksTree (TText i s).
Proof.
  intros h p kp pp L R Hrep _ _ Hp. exists h. simpl in *. split_and!; done.
Qed.

Lemma walksTree_elem (i : nat) (tagName : jsstring) (attrs : list attr)
    (kids : list tree) :
  walksForest kids -> walksTree (TElem i tagName attrs kids).
Proof.
  intros Hkids h p kp pp L R Hrep Hnd [Hp Hapart] Hhang.
  apply List.Forall_inv in Hrep. apply rep_TElem in Hrep as (Hi & Hattrs & Hrk).
  cbn [List.flat_map ids elemIds clean] in *. rewrite !app_nil_r in *.
  apply NoDup_cons in Hnd as [Hik Hndk].
  apply not_elem_of_cons in Hp as [Hpi Hpk].
  destruct (Hapart i) as [HiL HiR]; [by left|].
  unfold hangs in Hhang. simpl in Hhang.
  assert (Hroots : forall c, c ∈ List.map rid kids -> c ∈ List.flat_map ids kids)
    by (intros c; apply roots_in_ids).
  cbn [forEach].
  destruct (has ALWAYS_DROP (toLowerCase tagName)) eqn:Hdrop.
  - (* dropped: the subtree leaves the tree and is walked detached *)
    rewrite (sanitizeElement_drop _ _ _ _ _ _ Hi Hdrop). cbn [bind].
    assert (Hrm : forall k, remove h i !! k =
              if decide (k = i)
              then Some (Node (ElementNode tagName attrs) None (List.map rid kids))
              else if decide (k = p) then Some (Node kp pp (L ++ R))
              else h !! k).
    { intros k. rewrite (remove_lookup h i p _ _ k Hi eq_refl Hhang) by done.
      repeat case_decide; try done.
      unfold setChildren. simpl. by rewrite without_middle. }
    destruct (Hkids (remove h i) i (ElementNode tagName attrs) None [] [])
      as (h2 & Hrun & Hlen & Hhang2 & Hrep2 & Hframe).
    { apply (rep_frame_forest h); [|done].
      intros k Hk. rewrite Hrm.
      rewrite !decide_False; [done|by intros ->|by intros ->]. }
    { done. }
    { split; [done|]. intros x _. split; apply not_elem_of_nil. }
    { unfold hangs. rewrite Hrm, decide_True by done. by rewrite app_nil_r. }
    exists h2. split_and!.
    + done.
    + by rewrite Hlen, length_remove.
    + unfold hangs. rewrite Hframe by done.
      by rewrite Hrm, decide_False, decide_True.
    + done.
    + intros k [Hki Hk]%not_elem_of_cons Hkp.
      rewrite Hframe by done. by rewrite Hrm, !decide_False.
  - destruct (has SAFE_ELEMENTS (toLowerCase tagName)) eqn:Hsafe; cbn [negb].
    + (* kept: the attributes are filtered, the children walked in place *)
      rewrite (sanitizeElement_keep h i tagName attrs (Some p) _ Hi Hsafe).
      cbn [bind].
      set (attrs' := ensureSafeLinkAttrs tagName
                       (sanitizedAttributes (toLowerCase tagName) attrs)).
      set (h1 := <[i := Node (ElementNode tagName attrs') (Some p)
                          (List.map rid kids)]> h).
      assert (Hh1i : h1 !! i = Some (Node (ElementNode tagName attrs') (Some p)
                                       (List.map rid kids))).
      { apply list_lookup_insert_eq. by apply lookup_lt_Some in Hi. }
      assert (Hh1 : forall k, k <> i -> h1 !! k = h !! k).
      { intros k Hk. by apply list_lookup_insert_ne. }
      destruct (Hkids h1 i (ElementNode tagName attrs') (Some p) [] [])
        as (h2 & Hrun & Hlen & Hhang2 & Hrep2 & Hframe).
      { apply (rep_frame_forest h); [|done].
        intros k Hk. apply Hh1. by intros ->. }
      { done. }
      { split; [done|]. intros x _. split; apply not_elem_of_nil. }
      { unfold hangs. rewrite Hh1i. by rewrite app_nil_r. }
      exists h2. split_and!.
      * done.
      * rewrite Hlen. apply length_insert.
      * unfold hangs. rewrite Hframe by done. by rewrite Hh1.
      * apply Forall_singleton, rep_TElem. split_and!.
        -- unfold hangs in Hhang2. rewrite Hhang2. by rewrite app_nil_r.
        -- by apply ensureSafeLinkAttrs_NoDup, sanitizedAttributes_NoDup.
        -- done.
      * intros k [Hki Hk]%not_elem_of_cons Hkp.
        rewrite Hframe by done. by apply Hh1.
    + (* unwrapped: the children take the place of the element *)
      rewrite (sanitizeElement_unwrap _ _ _ _ _ _ Hi Hdrop Hsafe).
      destruct (unwrapElement_splices h p i (ElementNode tagName attrs) kp pp
                  (List.map rid kids) L R)
        as (h1 & Hun & Hlen1 & Hi1 & Hp1 & Hcs1 & Hframe1); try done.
      { by apply NoDup_roots. }
      { intros Hin. by apply Hik, Hroots. }
      { intros Hin. by apply Hpk, Hroots. }
      { intros c Hc.
        apply list_elem_of_In, in_map_iff in Hc as (t & <- & Ht).
        rewrite Forall_forall in Hrk. apply (rep_root h (Some i)), Hrk.
        by apply list_elem_of_In. }
      rewrite Hun. cbn [bind].
      destruct (Hkids h1 p kp pp L R)
        as (h2 & Hrun & Hlen & Hhang2 & Hrep2 & Hframe).
      { apply (reparent_forest h h1 i p); try done.
        intros k Hk Hnot. apply Hframe1; [done|by intros ->|by intros ->]. }
      { done. }
      { split; [done|]. intros x Hx. apply Hapart. by right. }
      { done. }
      exists h2. split_and!.
      * done.
      * congruence.
      * done.
      * done.
      * intros k [Hki Hk]%not_elem_of_cons Hkp.
        rewrite Hframe by done. apply Hframe1; [|done|done].
        intros Hin. by apply Hk, Hroots.
Qed.

(** Every tree is walked as [walksForest] says. *)
Lemma walks_tree (t : tree) : walksTree t.
Proof.
  induction t as [i s|i tag attrs kids IH] using tree_ind'.
  - apply walksTree_text.
  - apply walksTree_elem.
    induction IH as [|t kids Ht _ IHkids]; [apply walksForest_nil|].
    by apply walksForest_cons.
Qed.

Lemma walks_forest (ts : list tree) : walksForest ts.
Proof.
  induction ts as [|t ts IH]; [apply walksForest_nil|].
  apply walksForest_cons; [apply walks_tree|done].
Qed.

(** ** The walker and the markup it leaves *)

Lemma rep_ids_bound (h : dom) (t : tree) :
  forall p k, rep h p t -> k ∈ ids t -> k < length h.
Proof.
  induction t as [i s|i tag attrs kids IH] using tree_ind'; intros p k.
  - simpl. intros Hi ->%list_elem_of_singleton. by apply lookup_lt_Some in Hi.
  - rewrite rep_TElem. intros (Hi & _ & Hkids). simpl.
    intros [->|Hk]%elem_of_cons; [by apply lookup_lt_Some in Hi|].
    apply elem_of_flat_map in Hk as (t & Ht & Hk).
    rewrite Forall_forall in IH, Hkids.
    apply (IH t Ht (Some i) k); [by apply Hkids|done].
Qed.

Lemma NoDup_bounded_length (l : list nat) (n : nat) :
  NoDup l -> (forall k, k ∈ l -> k < n) -> length l <= n.
Proof.
  intros Hnd Hb.
  transitivity (length (List.seq 0 n)); [|by rewrite List.length_seq].
  apply List.NoDup_incl_length; [by apply NoDup_ListNoDup|].
  intros k Hk. apply in_seq. apply list_elem_of_In, Hb in Hk. lia.
Qed.

Lemma depth_pos (t : tree) : 1 <= depth t.
Proof. destruct t; simpl; lia. Qed.

Lemma max_depth_le (ts : list tree) (n : nat) :
  foldr Nat.max 0 (List.map depth ts) <= n <-> Forall (fun t => depth t <= n) ts.
Proof.
  induction ts as [|t ts IH]; simpl.
  - split; [constructor|lia].
  - rewrite Forall_cons, <- IH. lia.
Qed.

Lemma max_depth_size (ts : list tree) :
  Forall (fun t => depth t <= length (ids t)) ts ->
  foldr Nat.max 0 (List.map depth ts) <= length (List.flat_map ids ts).
Proof.
  induction 1 as [|t ts Ht _ IH]; simpl; [done|].
  rewrite length_app. lia.
Qed.

Lemma depth_le_size (t : tree) : depth t <= length (ids t).
Proof.
  induction t as [i s|i tag attrs kids IH] using tree_ind'; simpl; [done|].
  apply le_n_S. by apply max_depth_size.
Qed.

Lemma rep_depth_bound (h : dom) (p : option nat) (t : tree) :
  rep h p t -> NoDup (ids t) -> depth t <= length h.
Proof.
  intros Hrep Hnd. transitivity (length (ids t)); [apply depth_le_size|].
  apply NoDup_bounded_length; [done|]. intros k. by apply (rep_ids_bound h t p).
Qed.

(** With fuel for the depth of the tree, [descendants] lists its nodes. *)
Lemma descendants_rep (h : dom) (t : tree) :
  forall p fuel, rep h p t -> depth t <= S fuel ->
    rid t :: descendants fuel h (rid t) = ids t.
Proof.
  induction t as [i s|i tag attrs kids IH] using tree_ind'; intros p fuel.
  - simpl. intros Hi _. f_equal.
    destruct fuel; simpl; [done|]. by rewrite (children_lookup _ _ _ Hi).
  - rewrite rep_TElem. intros (Hi & _ & Hkids) Hd. simpl in *. f_equal.
    apply le_S_n, max_depth_le in Hd.
    destruct fuel as [|fuel].
    + destruct kids as [|t kids]; [done|].
      apply Forall_cons in Hd as [Hd _]. pose proof (depth_pos t). lia.
    + simpl. rewrite (children_lookup _ _ _ Hi). simpl.
      clear Hi. induction kids as [|t kids IHk]; simpl; [done|].
      apply Forall_cons in IH as [IHt IH]. apply Forall_cons in Hkids as [Ht Hkids].
      apply Forall_cons in Hd as [Hdt Hd].
      rewrite <- (IHt (Some i) fuel Ht Hdt). simpl. do 2 f_equal. by apply IHk.
Qed.

Lemma filter_elements (h : dom) (t : tree) :
  forall p, rep h p t -> List.filter (isElement h) (ids t) = elemIds t.
Proof.
  induction t as [i s|i tag attrs kids IH] using tree_ind'; intros p.
  - simpl. unfold isElement. by intros ->.
  - rewrite rep_TElem. intros (Hi & _ & Hkids). simpl.
    unfold isElement at 1. rewrite Hi. f_equal. clear Hi.
    induction kids as [|t kids IHk]; simpl; [done|].
    apply Forall_cons in IH as [IHt IH]. apply Forall_cons in Hkids as [Ht Hkids].
    rewrite List.filter_app. rewrite (IHt _ Ht). f_equal. by apply IHk.
Qed.

(** The snapshot of the walker: the elements of the tree, in document
    order. *)
Lemma querySelectorAll_rep (h : dom) (p : option nat) (root : nat)
    (tag : jsstring) (attrs : list attr) (kids : list tree) :
  rep h p (TElem root tag attrs kids) ->
  NoDup (ids (TElem root tag attrs kids)) ->
  querySelectorAll h root = List.flat_map elemIds kids.
Proof.
  intros Hrep Hnd. unfold querySelectorAll.
  pose proof (descendants_rep h _ p (length h) Hrep) as Hdesc.
  pose proof (filter_elements h _ p Hrep) as Hfilter.
  pose proof (rep_depth_bound h p _ Hrep Hnd) as Hdepth.
  simpl rid in Hdesc. rewrite <- Hdesc in Hfilter by lia.
  simpl in Hfilter. unfold isElement at 1 in Hfilter.
  apply rep_TElem in Hrep as (Hroot & _). rewrite Hroot in Hfilter.
  by injection Hfilter.
Qed.

Lemma toHtml_rep (h : dom) (t : tree) :
  forall p fuel, rep h p t -> depth t <= fuel ->
    toHtml fuel h (rid t) = [erase t].
Proof.
  induction t as [i s|i tag attrs kids IH] using tree_ind'; intros p fuel.
  - simpl. intros Hi Hd. destruct fuel; [lia|]. simpl. by rewrite Hi.
  - rewrite rep_TElem. intros (Hi & _ & Hkids) Hd. simpl in Hd.
    destruct fuel as [|fuel]; [lia|]. apply le_S_n, max_depth_le in Hd.
    simpl. rewrite Hi. do 2 f_equal. clear Hi.
    induction kids as [|t kids IHk]; simpl; [done|].
    apply Forall_cons in IH as [IHt IH]. apply Forall_cons in Hkids as [Ht Hkids].
    apply Forall_cons in Hd as [Hdt Hd].
    rewrite (IHt (Some i) fuel Ht Hdt). simpl. f_equal. by apply IHk.
Qed.

(** What [innerHTML] reads below the root of a tree. *)
Lemma contents_rep (h : dom) (p : option nat) (root : nat)
    (tag : jsstring) (attrs : list attr) (kids : list tree) :
  rep h p (TElem root tag attrs kids) ->
  NoDup (ids (TElem root tag attrs kids)) ->
  contents h root = List.map erase kids.
Proof.
  intros Hrep Hnd. pose proof (rep_depth_bound h p _ Hrep Hnd) as Hdepth.
  apply rep_TElem in Hrep as (Hroot & _ & Hkids).
  unfold contents. rewrite (children_lookup _ _ _ Hroot). simpl in *.
  assert (Hd : Forall (fun t => depth t <= length h) kids).
  { apply max_depth_le. lia. }
  clear Hroot Hnd Hdepth. induction kids as [|t kids IH]; simpl; [done|].
  apply Forall_cons in Hkids as [Ht Hkids]. apply Forall_cons in Hd as [Hdt Hd].
  rewrite (toHtml_rep h t (Some root) _ Ht Hdt). simpl. f_equal. by apply IH.
Qed.

Lemma erase_clean (t : tree) : List.map erase (clean t) = cleanHtml (erase t).
Proof.
  induction t as [i s|i tag attrs kids IH] using tree_ind'; [done|].
  assert (Hkids : List.map erase (List.flat_map clean kids)
                  = List.flat_map cleanHtml (List.map erase kids)).
  { induction IH as [|t kids Ht _ IHk]; simpl; [done|].
    by rewrite List.map_app, Ht, IHk. }
  cbn [clean erase cleanHtml].
  destruct (has ALWAYS_DROP (toLowerCase tag)); [done|].
  destruct (negb (has SAFE_ELEMENTS (toLowerCase tag))); [done|].
  simpl. by rewrite Hkids.
Qed.

Lemma erase_clean_forest (ts : list tree) :
  List.map erase (List.flat_map clean ts)
  = List.flat_map cleanHtml (List.map erase ts).
Proof.
  induction ts as [|t ts IH]; simpl; [done|].
  by rewrite List.map_app, erase_clean, IH.
Qed.

Lemma clean_ids_sublist (t : tree) :
  sublist (List.flat_map ids (clean t)) (ids t).
Proof.
  induction t as [i s|i tag attrs kids IH] using tree_ind'; [done|].
  assert (Hkids : sublist (List.flat_map ids (List.flat_map clean kids))
                          (List.flat_map ids kids)).
  { induction IH as [|t kids Ht _ IHk]; simpl; [done|].
    rewrite List.flat_map_app. by apply sublist_app. }
  cbn [clean ids].
  destruct (has ALWAYS_DROP (toLowerCase tag)); [apply sublist_nil_l|].
  destruct (negb (has SAFE_ELEMENTS (toLowerCase tag))).
  - by apply sublist_cons.
  - cbn [List.flat_map ids]. rewrite app_nil_r. by apply sublist_skip.
Qed.

Lemma clean_ids_sublist_forest (ts : list tree) :
  sublist (List.flat_map ids (List.flat_map clean ts)) (List.flat_map ids ts).
Proof.
  induction ts as [|t ts IH]; simpl; [done|].
  rewrite List.flat_map_app. apply sublist_app; [apply clean_ids_sublist|done].
Qed.

(** The walker refines [clean]: on a store that holds a tree below
    [root], it returns, and the store then holds the tree with [clean]
    applied to the children of [root]; nodes outside the tree are as
    they were. *)
Lemma walk_refines (h : dom) (p : option nat) (root : nat)
    (tag : jsstring) (attrs : list attr) (kids : list tree) :
  rep h p (TElem root tag attrs kids) ->
  NoDup (ids (TElem root tag attrs kids)) ->
  exists h',
    walkAndSanitize h root = Return h'
    /\ length h' = length h
    /\ rep h' p (TElem root tag attrs (List.flat_map clean kids))
    /\ NoDup (ids (TElem root tag attrs (List.flat_map clean kids)))
    /\ (forall k, k ∉ ids (TElem root tag attrs kids) -> h' !! k = h !! k)
    /\ contents h' root = List.flat_map cleanHtml (contents h root).
Proof.
  intros Hrep Hnd.
  pose proof (querySelectorAll_rep h p root tag attrs kids Hrep Hnd) as Hq.
  pose proof (contents_rep h p root tag attrs kids Hrep Hnd) as Hc.
  apply rep_TElem in Hrep as (Hroot & Hattrs & Hkids).
  simpl in Hnd. apply NoDup_cons in Hnd as [Hrk Hndk].
  destruct (walks_forest kids h root (ElementNode tag attrs) p [] [])
    as (h' & Hrun & Hlen & Hhang & Hrep' & Hframe).
  { done. }
  { done. }
  { split; [done|]. intros x _. split; apply not_elem_of_nil. }
  { unfold hangs. by rewrite app_nil_r. }
  assert (Hrep'' : rep h' p (TElem root tag attrs (List.flat_map clean kids))).
  { apply rep_TElem. unfold hangs in Hhang. rewrite app_nil_r in Hhang. done. }
  assert (Hnd' : NoDup (ids (TElem root tag attrs (List.flat_map clean kids)))).
  { simpl. apply NoDup_cons. split.
    - intros Hin. by apply clean_ids_forest in Hin.
    - eapply sublist_NoDup; [done|apply clean_ids_sublist_forest]. }
  exists h'. split_and!; try done.
  - unfold walkAndSanitize. by rewrite Hq.
  - intros k [Hk1 Hk2]%not_elem_of_cons. by apply Hframe.
  - rewrite (contents_rep h' p root tag attrs _ Hrep'' Hnd'), Hc.
    apply erase_clean_forest.
Qed.

(** ** Subtrees *)

Lemma subtrees_self (t : tree) : t ∈ subtrees t.
Proof. destruct t; simpl; by left. Qed.

Lemma sublist_flat_map_elem {A B} (f : A -> list B) (x : A) (l : list A) :
  x ∈ l -> sublist (f x) (List.flat_map f l).
Proof.
  induction l as [|y l IH]; simpl; intros Hx; [by apply elem_of_nil in Hx|].
  apply elem_of_cons in Hx as [->|Hx].
  - by apply sublist_inserts_r.
  - by apply sublist_inserts_l, IH.
Qed.

Lemma subtree_ids_sublist (t s : tree) :
  s ∈ subtrees t -> sublist (ids s) (ids t).
Proof.
  revert s. induction t as [i d|i tag attrs kids IH] using tree_ind'; intros s.
  - simpl. by intros ->%list_elem_of_singleton.
  - cbn [subtrees]. intros [->|Hs]%elem_of_cons; [done|].
    apply elem_of_flat_map in Hs as (kid & Hkid & Hs).
    rewrite Forall_forall in IH. simpl. apply sublist_cons.
    transitivity (ids kid); [by apply IH|by apply sublist_flat_map_elem].
Qed.

Lemma subtree_ids (t s : tree) (k : nat) :
  s ∈ subtrees t -> k ∈ ids s -> k ∈ ids t.
Proof.
  intros Hs Hk. eapply elem_of_sublist; [exact Hk|by apply subtree_ids_sublist].
Qed.

Lemma subtree_NoDup (t s : tree) :
  s ∈ subtrees t -> NoDup (ids t) -> NoDup (ids s).
Proof.
  intros Hs Hnd. eapply sublist_NoDup; [done|by apply subtree_ids_sublist].
Qed.

Lemma elemIds_subtree (t : tree) (el : nat) :
  el ∈ elemIds t ->
  exists tag attrs ks, TElem el tag attrs ks ∈ subtrees t.
Proof.
  induction t as [i d|i tag attrs kids IH] using tree_ind'.
  - simpl. intros H. by apply elem_of_nil in H.
  - cbn [elemIds subtrees]. intros [->|Hel]%elem_of_cons.
    + exists tag, attrs, kids. by left.
    + apply elem_of_flat_map in Hel as (kid & Hkid & Hel).
      rewrite Forall_forall in IH.
      destruct (IH kid Hkid Hel) as (tg & at' & ks & Hs).
      exists tg, at', ks. right. apply elem_of_flat_map. by exists kid.
Qed.

Lemma rep_subtree (h : dom) (t s : tree) :
  forall p, rep h p t -> s ∈ subtrees t -> exists q, rep h q s.
Proof.
  induction t as [i d|i tag attrs kids IH] using tree_ind'; intros p Hrep.
  - simpl. intros ->%list_elem_of_singleton. by exists p.
  - cbn [subtrees]. intros [->|Hs]%elem_of_cons; [by exists p|].
    apply elem_of_flat_map in Hs as (kid & Hkid & Hs).
    apply rep_TElem in Hrep as (_ & _ & Hkids).
    rewrite Forall_forall in IH, Hkids.
    by apply (IH kid Hkid (Some i)); [apply Hkids|].
Qed.

(** A subtree is the whole tree or a child of an element in it. *)
Lemma subtree_cases (t s : tree) :
  s ∈ subtrees t ->
  s = t \/ exists pa tg at' l1 l2,
             TElem pa tg at' (l1 ++ s :: l2) ∈ subtrees t.
Proof.
  induction t as [i d|i tag attrs kids IH] using tree_ind'.
  - simpl. intros ->%list_elem_of_singleton. by left.
  - cbn [subtrees]. intros [->|Hs]%elem_of_cons; [by left|]. right.
    apply elem_of_flat_map in Hs as (kid & Hkid & Hs).
    rewrite Forall_forall in IH.
    destruct (IH kid Hkid Hs) as [->|(pa & tg & at' & l1 & l2 & Hpa)].
    + apply list_elem_of_split in Hkid as (l1 & l2 & ->).
      exists i, tag, attrs, l1, l2. by left.
    + exists pa, tg, at', l1, l2. right. apply elem_of_flat_map. by exists kid.
Qed.

(** ** What the classifier leaves *)

Lemma keepAttr_rel_anchor (v : jsstring) : keepAttr (lit "a") (lit "rel", v) = true.
Proof. reflexivity. Qed.

Lemma lowerCaseNames_lookup (h : dom) (el : nat) (tagName : jsstring)
    (attrs : list attr) (p : option nat) (cs : list nat) :
  lowerCaseNames h = true ->
  h !! el = Some (Node (ElementNode tagName attrs) p cs) ->
  forallb lowerCaseName attrs = true.
Proof.
  unfold lowerCaseNames. rewrite forallb_forall. intros Hall Hel.
  apply list_elem_of_lookup_2, list_elem_of_In in Hel.
  apply (Hall _ Hel).
Qed.

Lemma rep_normalNames (h : dom) (p : option nat) (t : tree) :
  rep h p t -> lowerCaseNames h = true -> normalNames t.
Proof.
  intros Hrep Hlow el tag attrs ks Hs.
  destruct (rep_subtree h t _ p Hrep Hs) as (q & Hq).
  apply rep_TElem in Hq as (Hel & Hnd & _). split; [done|].
  exact (lowerCaseNames_lookup h el tag attrs q _ Hlow Hel).
Qed.

Lemma normalNames_kid (i : nat) (tagName : jsstring) (attrs : list attr)
    (kids : list tree) (kid : tree) :
  normalNames (TElem i tagName attrs kids) -> kid ∈ kids -> normalNames kid.
Proof.
  intros Hn Hkid el tag at' ks Hs. apply (Hn el tag at' ks).
  cbn [subtrees]. right. apply elem_of_flat_map. by exists kid.
Qed.

Lemma hardened_attrs_kept (tagName : jsstring) (attrs : list attr) :
  has SAFE_ELEMENTS (toLowerCase tagName) = true ->
  NoDup attrs.*1 ->
  forallb lowerCaseName attrs = true ->
  safeElement tagName
    (ensureSafeLinkAttrs tagName
       (sanitizedAttributes (toLowerCase tagName) attrs)).
Proof.
  intros Hsafe Hnd Hlow. split; [done|]. intros name value.
  rewrite sanitizedAttributes_filter by done.
  rewrite ensureSafeLinkAttrs_eq.
  destruct (jseq (toLowerCase tagName) (lit "a")) eqn:Ha; cbn [andb].
  - apply jseq_true in Ha. rewrite Ha.
    destruct (match getAttribute _ _ with Some t => _ | None => _ end).
    + intros [Hin|[-> ->]]%elem_of_setAttribute; [|apply keepAttr_rel_anchor|done].
      by apply list_elem_of_In, filter_In in Hin as [_ ?].
    + intros Hin. by apply list_elem_of_In, filter_In in Hin as [_ ?].
  - intros Hin. by apply list_elem_of_In, filter_In in Hin as [_ ?].
Qed.

(** Every element of a cleaned tree is a kept one. *)
Lemma clean_safe (t : tree) :
  normalNames t ->
  forall c el tag attrs ks,
    c ∈ clean t -> TElem el tag attrs ks ∈ subtrees c -> safeElement tag attrs.
Proof.
  induction t as [i d|i tagName attrs0 kids IH] using tree_ind';
    intros Hn c el tag attrs ks.
  - simpl. intros ->%list_elem_of_singleton. simpl.
    by intros [=]%list_elem_of_singleton.
  - assert (Hkids : forall c', c' ∈ List.flat_map clean kids ->
                      TElem el tag attrs ks ∈ subtrees c' -> safeElement tag attrs).
    { intros c' (kid & Hkid & Hc')%elem_of_flat_map Hs.
      rewrite Forall_forall in IH.
      apply (IH kid Hkid (normalNames_kid _ _ _ _ _ Hn Hkid) c' el tag attrs ks);
        done. }
    destruct (Hn i tagName attrs0 kids) as [Hnd Hlow]; [by left|].
    cbn [clean].
    destruct (has ALWAYS_DROP (toLowerCase tagName));
      [intros H; by apply elem_of_nil in H|].
    destruct (has SAFE_ELEMENTS (toLowerCase tagName)) eqn:Hsafe; cbn [negb].
    + intros ->%list_elem_of_singleton. cbn [subtrees].
      intros [[= -> -> -> ->]|Hs]%elem_of_cons.
      * by apply hardened_attrs_kept.
      * apply elem_of_flat_map in Hs as (c' & Hc' & Hs). by apply (Hkids c').
    + apply Hkids.
Qed.

(** Nothing of a subtree below a dropped element is in the cleaned tree. *)
Lemma clean_drops (t : tree) :
  forall el tag attrs ks n,
    NoDup (ids t) ->
    TElem el tag attrs ks ∈ subtrees t ->
    has ALWAYS_DROP (toLowerCase tag) = true ->
    n ∈ ids (TElem el tag attrs ks) ->
    n ∉ List.flat_map ids (clean t).
Proof.
  induction t as [i d|i tagName attrs0 kids IH] using tree_ind';
    intros el tag attrs ks n Hnd.
  - simpl. by intros [=]%list_elem_of_singleton.
  - cbn [subtrees]. intros [[= -> -> -> ->]|Hs]%elem_of_cons Hdrop Hn.
    + cbn [clean]. rewrite Hdrop. apply not_elem_of_nil.
    + apply elem_of_flat_map in Hs as (kid & Hkid & Hs).
      simpl in Hnd. apply NoDup_cons in Hnd as [Hi Hndk].
      assert (Hnkid : n ∈ ids kid) by (by apply (subtree_ids kid _ n Hs)).
      assert (Hkids : n ∉ List.flat_map ids (List.flat_map clean kids)).
      { clear Hi. intros (c & (kid' & Hkid' & Hc)%elem_of_flat_map & Hnc)%elem_of_flat_map.
        assert (Hnkid' : n ∈ ids kid').
        { apply clean_ids, elem_of_flat_map. by exists c. }
        assert (Hndkid : NoDup (ids kid)).
        { eapply sublist_NoDup; [done|by apply sublist_flat_map_elem]. }
        pose proof Hkid as Hkid0.
        apply list_elem_of_split in Hkid as (l1 & l2 & ->).
        rewrite List.flat_map_app in Hndk. simpl in Hndk.
        apply NoDup_app in Hndk as (_ & Hd1 & Hndk).
        apply NoDup_app in Hndk as (_ & Hd2 & _).
        apply elem_of_app in Hkid' as [Hin|Hin].
        - apply (Hd1 n); [apply elem_of_flat_map; by exists kid'|].
          apply elem_of_app. by left.
        - apply elem_of_cons in Hin as [->|Hin].
          + rewrite Forall_forall in IH.
            apply (IH kid Hkid0 el tag attrs ks n); try done.
            apply elem_of_flat_map. by exists c.
          + apply (Hd2 n Hnkid). apply elem_of_flat_map. by exists kid'. }
      cbn [clean].
      destruct (has ALWAYS_DROP (toLowerCase tagName)); [apply not_elem_of_nil|].
      destruct (negb (has SAFE_ELEMENTS (toLowerCase tagName))); [done|].
      cbn [List.flat_map ids]. rewrite app_nil_r.
      apply not_elem_of_cons. split; [|done].
      intros ->. apply Hi, elem_of_flat_map. by exists kid.
Qed.

(** ** The invariant after the walk *)

Lemma isAllowedAttribute_spec_true (tag name : jsstring) :
  isAllowedAttribute_spec tag name = true <->
  startsWith (toLowerCase name) (lit "on") = false
  /\ toLowerCase name <> lit "style"
  /\ (has GLOBAL_ATTRS (toLowerCase name) = true
      \/ has (tagAllowlist tag) (toLowerCase name) = true).
Proof.
  unfold isAllowedAttribute_spec. cbv zeta.
  destruct (startsWith (toLowerCase name) (lit "on")); cbn [orb].
  { split; [done|]. by intros [? _]. }
  destruct (jseq (toLowerCase name) (lit "style")) eqn:E.
  { apply jseq_true in E. split; [done|]. by intros (_ & ? & _). }
  apply jseq_false in E.
  destruct (has GLOBAL_ATTRS (toLowerCase name)).
  { split; [|done]. intros _. split_and!; [done|done|by left]. }
  split.
  - intros H. split_and!; [done|done|by right].
  - by intros (_ & _ & [?|?]).
Qed.

Lemma descendants_of_root (h : dom) (p : option nat) (root : nat)
    (tag : jsstring) (attrs : list attr) (kids : list tree) :
  rep h p (TElem root tag attrs kids) ->
  NoDup (ids (TElem root tag attrs kids)) ->
  descendants (length h) h root = List.flat_map ids kids.
Proof.
  intros Hrep Hnd.
  pose proof (descendants_rep h _ p (length h) Hrep) as Hdesc.
  pose proof (rep_depth_bound h p _ Hrep Hnd) as Hdepth.
  simpl in Hdesc. specialize (Hdesc ltac:(simpl in Hdepth; lia)).
  by injection Hdesc.
Qed.

(** C2. For every well-formed input document that holds its attribute
    names as section 3 says, in lower case, the walk returns, and then
    every element left below the root has a tag of [SAFE_ELEMENTS], and
    every attribute left on it passes the checks of the loop.  With [n]
    the name as the loop reads it (the held name lower-cased),
    [isAllowedAttr] accepts [n] for the tag: the name it compares ([n]
    lower-cased once more, as [isAllowedAttr] does with its argument)
    does not start with [on], is not [style], and is in the global or in
    the tag's own allowlist; and when [n] is [href] or [src], the value
    passes [isSafeUrl]. *)
Theorem walk_leaves_safe_markup (d : document) (Hwf : wellFormed d)
    (Hnames : lowerCaseNames (nodes d) = true) :
  exists h',
    walkAndSanitize (nodes d) (body d) = Return h'
    /\ forall el, el ∈ querySelectorAll h' (body d) ->
         exists tagName attrs p cs,
           h' !! el = Some (Node (ElementNode tagName attrs) p cs)
           /\ has SAFE_ELEMENTS (toLowerCase tagName) = true
           /\ forall name value, (name, value) ∈ attrs ->
                let n := toLowerCase name in
                isAllowedAttr (toLowerCase tagName) n = Return true
                /\ startsWith (toLowerCase n) (lit "on") = false
                /\ toLowerCase n <> lit "style"
                /\ (has GLOBAL_ATTRS (toLowerCase n) = true
                    \/ has (tagAllowlist (toLowerCase tagName))
                         (toLowerCase n) = true)
                /\ (n = lit "href" \/ n = lit "src" ->
                    isSafeUrl (Some value) = true).
Proof.
  destruct Hwf as (p & tag & attrs & kids & Hrep & Hnd).
  destruct (walk_refines _ _ _ _ _ _ Hrep Hnd)
    as (h' & Hwalk & _ & Hrep' & Hnd' & _ & _).
  exists h'. split; [done|]. intros el Hel.
  rewrite (querySelectorAll_rep _ _ _ _ _ _ Hrep' Hnd') in Hel.
  apply elem_of_flat_map in Hel as (c & Hc & Hel).
  apply elem_of_flat_map in Hc as (kid & Hkid & Hc).
  destruct (elemIds_subtree _ _ Hel) as (tg & at' & ks & Hs).
  assert (Hnormal : normalNames kid).
  { pose proof (rep_normalNames _ _ _ Hrep Hnames) as Hn.
    by apply (normalNames_kid _ _ _ _ _ Hn). }
  pose proof (clean_safe kid Hnormal c el tg at' ks Hc Hs) as [Hsafe Hattrs].
  apply rep_TElem in Hrep' as (_ & _ & Hkids').
  rewrite Forall_forall in Hkids'.
  assert (Hcrep : rep h' (Some (body d)) c).
  { apply Hkids', elem_of_flat_map. by exists kid. }
  destruct (rep_subtree h' c _ _ Hcrep Hs) as (q & Hsrep).
  apply rep_TElem in Hsrep as (Hnode & _ & _).
  exists tg, at', q, (List.map rid ks). split_and!; [done|done|].
  intros name value Hin n. specialize (Hattrs name value Hin).
  unfold keepAttr in Hattrs. cbn [fst snd] in Hattrs. fold n in Hattrs.
  apply andb_true_iff in Hattrs as [Hname Hurl].
  pose proof (proj1 (isAllowedAttribute_spec_true _ _) Hname) as (Hon & Hstyle & Htab).
  split_and!; try done.
  - rewrite isAllowedAttr_spec_eq by (by apply safe_tag_not_inherited).
    by rewrite Hname.
  - intros Hn.
    replace (jseq n (lit "href") || jseq n (lit "src")) with true in Hurl;
      [done|].
    symmetry. apply orb_true_iff. destruct Hn as [->| ->]; auto.
Qed.

(** ** The drop rule *)

(** C3. An element whose tag is in [ALWAYS_DROP] is removed by the
    classifier whatever its attributes and children are; for every
    well-formed input document the walk returns, and no such element of
    the input, nor any node that was below it, is below the root
    afterwards; the markup left is [cleanHtml] of the input markup, which
    has nothing for such an element. *)
Theorem dropped_subtree_vanishes (d : document) (Hwf : wellFormed d) :
  (forall h el tagName attrs p cs,
      h !! el = Some (Node (ElementNode tagName attrs) p cs) ->
      has ALWAYS_DROP (toLowerCase tagName) = true ->
      sanitizeElement h el = Return (remove h el))
  /\ (forall tagName attrs content,
        has ALWAYS_DROP (toLowerCase tagName) = true ->
        cleanHtml (Element tagName attrs content) = [])
  /\ exists h',
       walkAndSanitize (nodes d) (body d) = Return h'
       /\ contents h' (body d)
          = List.flat_map cleanHtml (contents (nodes d) (body d))
       /\ forall el tagName attrs p cs n,
            el ∈ querySelectorAll (nodes d) (body d) ->
            nodes d !! el = Some (Node (ElementNode tagName attrs) p cs) ->
            has ALWAYS_DROP (toLowerCase tagName) = true ->
            n = el \/ n ∈ descendants (length (nodes d)) (nodes d) el ->
            n ∉ descendants (length h') h' (body d).
Proof.
  split; [apply sanitizeElement_drop|]. split.
  { intros tagName attrs content Hdrop. cbn [cleanHtml]. by rewrite Hdrop. }
  destruct Hwf as (p & tag & attrs & kids & Hrep & Hnd).
  destruct (walk_refines _ _ _ _ _ _ Hrep Hnd)
    as (h' & Hwalk & _ & Hrep' & Hnd' & _ & Hcontents).
  exists h'. split_and!; [done|done|].
  intros el tagName attrs' p' cs n Hel Hnode Hdrop Hn.
  rewrite (descendants_of_root _ _ _ _ _ _ Hrep' Hnd').
  rewrite (querySelectorAll_rep _ _ _ _ _ _ Hrep Hnd) in Hel.
  apply elem_of_flat_map in Hel as (kid & Hkid & Hel).
  destruct (elemIds_subtree _ _ Hel) as (tg & at' & ks & Hs).
  set (T := TElem (body d) (lit "x") [] kids).
  assert (HsT : TElem el tg at' ks ∈ subtrees T).
  { cbn [subtrees]. right. apply elem_of_flat_map. by exists kid. }
  assert (HsT' : TElem el tg at' ks ∈ subtrees (TElem (body d) tag attrs kids)).
  { cbn [subtrees]. right. apply elem_of_flat_map. by exists kid. }
  destruct (rep_subtree (nodes d) _ _ _ Hrep HsT') as (q & Hsrep).
  assert (Hnds : NoDup (ids (TElem el tg at' ks))).
  { apply (subtree_NoDup T); [done|exact Hnd]. }
  pose proof (descendants_of_root _ _ _ _ _ _ Hsrep Hnds) as Hdesc.
  apply rep_TElem in Hsrep as (Hnode' & _ & _).
  rewrite Hnode in Hnode'. injection Hnode' as -> -> -> ->.
  change (List.flat_map clean kids) with (clean T).
  apply (clean_drops T el tg at' ks n); try done.
  simpl. destruct Hn as [->|Hn]; [by left|]. right. by rewrite <- Hdesc.
Qed.

(** ** The classifier on a node of a tree *)

Lemma roots_apart (l1 l2 : list tree) (s : tree) (x : nat) :
  NoDup (List.flat_map ids (l1 ++ s :: l2)) ->
  x ∈ ids s ->
  x ∉ List.map rid l1 /\ x ∉ List.map rid l2
  /\ x ∉ List.flat_map ids l1 /\ x ∉ List.flat_map ids l2.
Proof.
  rewrite List.flat_map_app. simpl. intros Hnd Hx.
  apply NoDup_app in Hnd as (_ & Hd1 & Hnd).
  apply NoDup_app in Hnd as (_ & Hd2 & _).
  assert (H1 : x ∉ List.flat_map ids l1).
  { intros Hin. apply (Hd1 x Hin). apply elem_of_app. by left. }
  assert (H2 : x ∉ List.flat_map ids l2) by (by apply Hd2).
  split_and!; try done; intros Hin; by apply roots_in_ids in Hin.
Qed.

(** The three rules on an element [el] with the tree [s] below it, a
    child of [pa] between the siblings [l1] and [l2]: what the store
    holds below [pa] afterwards. *)
Lemma sanitizeElement_child (h : dom) (pp : option nat) (pa el : nat)
    (tg tagName : jsstring) (at' attrs : list attr) (l1 l2 kids : list tree) :
  let s := TElem el tagName attrs kids in
  rep h pp (TElem pa tg at' (l1 ++ s :: l2)) ->
  NoDup (ids (TElem pa tg at' (l1 ++ s :: l2))) ->
  exists h',
    sanitizeElement h el = Return h'
    /\ length h' = length h
    /\ (forall k, k ∉ ids (TElem pa tg at' (l1 ++ s :: l2)) -> h' !! k = h !! k)
    /\ (has ALWAYS_DROP (toLowerCase tagName) = true ->
        rep h' pp (TElem pa tg at' (l1 ++ l2)) /\ rep h' None s)
    /\ (has ALWAYS_DROP (toLowerCase tagName) = false ->
        has SAFE_ELEMENTS (toLowerCase tagName) = false ->
        rep h' pp (TElem pa tg at' (l1 ++ kids ++ l2))
        /\ h' !! el = Some (Node (ElementNode tagName attrs) None []))
    /\ (has SAFE_ELEMENTS (toLowerCase tagName) = true ->
        rep h' pp (TElem pa tg at'
                     (l1 ++ TElem el tagName
                              (ensureSafeLinkAttrs tagName
                                 (sanitizedAttributes (toLowerCase tagName) attrs))
                              kids :: l2))).
Proof.
  intros s Hrep Hnd.
  apply rep_TElem in Hrep as (Hpa & Hat & Hkids).
  apply Forall_app in Hkids as [Hl1 Hkids].
  apply Forall_cons in Hkids as [Hs Hl2].
  pose proof Hs as Hs0. apply rep_TElem in Hs as (Hel & Hattrs & Hrepks).
  rewrite List.map_app in Hpa. simpl in Hpa.
  simpl in Hnd. apply NoDup_cons in Hnd as [Hpa_notin Hndk].
  assert (Hnds : NoDup (ids s)).
  { eapply sublist_NoDup; [exact Hndk|].
    apply (sublist_flat_map_elem ids s). apply elem_of_app. right. by left. }
  pose proof Hnds as Hnds0.
  simpl in Hnds. apply NoDup_cons in Hnds as [Hel_notin Hndks].
  assert (Hin_s : forall x, x ∈ ids s -> x ∈ List.flat_map ids (l1 ++ s :: l2)).
  { intros x Hx. apply elem_of_flat_map. exists s. split; [|done].
    apply elem_of_app. right. by left. }
  assert (Hpa_s : forall x, x ∈ ids s -> x <> pa).
  { intros x Hx ->. by apply Hpa_notin, Hin_s. }
  assert (Hsib : forall x, x ∈ ids s ->
            x ∉ List.map rid l1 /\ x ∉ List.map rid l2
            /\ x ∉ List.flat_map ids l1 /\ x ∉ List.flat_map ids l2)
    by (intros x; by apply roots_apart).
  assert (Hel_s : el ∈ ids s) by (by left).
  destruct (Hsib el Hel_s) as (HelL & HelR & _ & _).
  assert (Hpael : pa <> el) by (intros ->; by apply (Hpa_s el Hel_s)).
  assert (Helpa : el <> pa) by (intros ->; by apply Hpael).
  assert (Hframe_sib : forall h', (forall k, k ∉ ids s -> k <> pa -> h' !! k = h !! k) ->
            Forall (rep h' (Some pa)) l1 /\ Forall (rep h' (Some pa)) l2).
  { intros h' Hsame. split; (apply (rep_frame_forest h); [|done]); intros k Hk.
    - apply Hsame; [intros Hk'; by destruct (Hsib k Hk') as (_ & _ & ? & ?)|].
      intros ->. apply Hpa_notin. rewrite List.flat_map_app.
      apply elem_of_app. by left.
    - apply Hsame; [intros Hk'; by destruct (Hsib k Hk') as (_ & _ & ? & ?)|].
      intros ->. apply Hpa_notin. rewrite List.flat_map_app.
      apply elem_of_app. right. cbn [List.flat_map]. apply elem_of_app. by right. }
  assert (Hout : forall k, k ∉ pa :: List.flat_map ids (l1 ++ s :: l2) ->
                   k ∉ ids s /\ k <> pa).
  { intros k [Hkpa Hk]%not_elem_of_cons. split; [|done].
    intros Hks. by apply Hk, Hin_s. }
  destruct (has ALWAYS_DROP (toLowerCase tagName)) eqn:Hdrop.
  - (* drop *)
    assert (Hrm : forall k, remove h el !! k =
              if decide (k = el)
              then Some (Node (ElementNode tagName attrs) None (List.map rid kids))
              else if decide (k = pa)
                   then Some (Node (ElementNode tg at') pp
                                (List.map rid l1 ++ List.map rid l2))
                   else h !! k).
    { intros k. rewrite (remove_lookup h el pa _ _ k Hel eq_refl Hpa) by done.
      repeat case_decide; try done.
      unfold setChildren. simpl. by rewrite without_middle. }
    exists (remove h el). split_and!.
    + by apply (sanitizeElement_drop _ _ _ _ _ _ Hel).
    + apply length_remove.
    + intros k Hk. destruct (Hout k Hk) as [Hks Hkpa].
      rewrite Hrm, !decide_False; [done|done|]. intros ->. by apply Hks.
    + intros _. split.
      * apply rep_TElem. split_and!.
        -- rewrite Hrm, decide_False, decide_True by done.
           by rewrite List.map_app.
        -- done.
        -- destruct (Hframe_sib (remove h el)) as [H1 H2].
           { intros k Hks Hkpa. rewrite Hrm, !decide_False; [done|done|].
             intros ->. by apply Hks. }
           apply Forall_app. by split.
      * apply rep_TElem. split_and!; [by rewrite Hrm, decide_True|done|].
        apply (rep_frame_forest h); [|done].
        intros k Hk. rewrite Hrm, !decide_False; [done| |].
        -- apply Hpa_s. by right.
        -- by intros ->.
    + done.
    + intros Hsafe. by rewrite (safe_not_dropped _ Hsafe) in Hdrop.
  - destruct (has SAFE_ELEMENTS (toLowerCase tagName)) eqn:Hsafe.
    + (* keep *)
      set (attrs' := ensureSafeLinkAttrs tagName
                       (sanitizedAttributes (toLowerCase tagName) attrs)).
      set (h1 := <[el := Node (ElementNode tagName attrs') (Some pa)
                           (List.map rid kids)]> h).
      assert (Hh1el : h1 !! el = Some (Node (ElementNode tagName attrs') (Some pa)
                                         (List.map rid kids))).
      { apply list_lookup_insert_eq. by apply lookup_lt_Some in Hel. }
      assert (Hh1 : forall k, k <> el -> h1 !! k = h !! k).
      { intros k Hk. by apply list_lookup_insert_ne. }
      exists h1. split_and!.
      * by apply sanitizeElement_keep.
      * apply length_insert.
      * intros k Hk. destruct (Hout k Hk) as [Hks Hkpa].
        apply Hh1. intros ->. by apply Hks.
      * done.
      * done.
      * intros _. apply rep_TElem. split_and!.
        -- rewrite Hh1 by done.
           rewrite Hpa. by rewrite List.map_app.
        -- done.
        -- destruct (Hframe_sib h1) as [H1 H2].
           { intros k Hks Hkpa. apply Hh1. intros ->. by apply Hks. }
           apply Forall_app. split; [done|]. apply Forall_cons. split; [|done].
           apply rep_TElem. split_and!; [done| |].
           ++ by apply ensureSafeLinkAttrs_NoDup, sanitizedAttributes_NoDup.
           ++ apply (rep_frame_forest h); [|done].
              intros k Hk. apply Hh1. by intros ->.
    + (* unwrap *)
      destruct (unwrapElement_splices h pa el (ElementNode tagName attrs)
                  (ElementNode tg at') pp (List.map rid kids)
                  (List.map rid l1) (List.map rid l2))
        as (h1 & Hun & Hlen1 & Hi1 & Hp1 & Hcs1 & Hframe1); try done.
      { by apply NoDup_roots. }
      { intros Hin. by apply Hel_notin, roots_in_ids. }
      { intros Hin. apply (Hpa_s pa); [|done]. right. by apply roots_in_ids. }
      { intros c Hc.
        apply list_elem_of_In, in_map_iff in Hc as (t & <- & Ht).
        rewrite Forall_forall in Hrepks. apply (rep_root h (Some el)), Hrepks.
        by apply list_elem_of_In. }
      exists h1. split_and!.
      * by rewrite (sanitizeElement_unwrap _ _ _ _ _ _ Hel Hdrop Hsafe).
      * done.
      * intros k Hk. destruct (Hout k Hk) as [Hks Hkpa].
        apply Hframe1; [|by intros ->|done].
        intros Hin. apply Hks. right. by apply roots_in_ids.
      * done.
      * intros _ _. split; [|done]. apply rep_TElem. split_and!.
        -- rewrite Hp1. by rewrite !List.map_app.
        -- done.
        -- destruct (Hframe_sib h1) as [H1 H2].
           { intros k Hks Hkpa. apply Hframe1; [|by intros ->|done].
             intros Hin. apply Hks. right. by apply roots_in_ids. }
           apply Forall_app. split; [done|]. apply Forall_app. split; [|done].
           apply (reparent_forest h h1 el pa); try done.
           intros k Hk Hnot. apply Hframe1; [done| |].
           ++ by intros ->.
           ++ apply Hpa_s. by right.
      * done.
Qed.

(** The rules on an element that has no parent. *)
Lemma sanitizeElement_root (h : dom) (el : nat) (tagName : jsstring)
    (attrs : list attr) (kids : list tree) :
  rep h None (TElem el tagName attrs kids) ->
  exists h',
    sanitizeElement h el = Return h'
    /\ length h' = length h
    /\ (forall k, k <> el -> h' !! k = h !! k).
Proof.
  intros (Hel & Hattrs & _)%rep_TElem.
  destruct (has ALWAYS_DROP (toLowerCase tagName)) eqn:Hdrop.
  - exists h. rewrite (sanitizeElement_drop _ _ _ _ _ _ Hel Hdrop).
    rewrite remove_no_parent by (by rewrite (parentOf_lookup _ _ _ Hel)). done.
  - destruct (has SAFE_ELEMENTS (toLowerCase tagName)) eqn:Hsafe.
    + eexists. split; [by apply sanitizeElement_keep|].
      split; [apply length_insert|].
      intros k Hk. by apply list_lookup_insert_ne.
    + exists h. rewrite (sanitizeElement_unwrap _ _ _ _ _ _ Hel Hdrop Hsafe).
      unfold unwrapElement. rewrite (parentOf_lookup _ _ _ Hel). simpl.
      rewrite remove_no_parent by (by rewrite (parentOf_lookup _ _ _ Hel)). done.
Qed.

(** On an element of a detached tree the classifier returns and touches
    nodes of that tree only. *)
Lemma sanitizeElement_detached (h : dom) (D : tree) (el : nat) :
  rep h None D -> NoDup (ids D) -> el ∈ elemIds D ->
  exists h',
    sanitizeElement h el = Return h'
    /\ length h' = length h
    /\ (forall k, k ∉ ids D -> h' !! k = h !! k).
Proof.
  intros Hrep Hnd Hel.
  destruct (elemIds_subtree _ _ Hel) as (tagName & attrs & kids & Hs).
  destruct (subtree_cases _ _ Hs) as [<-|(pa & tg & at' & l1 & l2 & Hpa)].
  - destruct (sanitizeElement_root h el tagName attrs kids Hrep)
      as (h' & Hstep & Hlen & Hframe).
    exists h'. split_and!; [done|done|].
    intros k Hk. apply Hframe. intros ->. apply Hk. by left.
  - destruct (rep_subtree h D _ None Hrep Hpa) as (q & Hparep).
    pose proof (subtree_NoDup D _ Hpa Hnd) as Hndpa.
    destruct (sanitizeElement_child h q pa el tg tagName at' attrs l1 l2 kids
                Hparep Hndpa) as (h' & Hstep & Hlen & Hframe & _).
    exists h'. split_and!; [done|done|].
    intros k Hk. apply Hframe. intros Hin. apply Hk.
    by apply (subtree_ids D _ k Hpa).
Qed.

(** C9. The walker iterates over the elements of the tree as they were
    before the walk, in document order.  Applying the classifier to an
    element of a detached tree (the subtree of a dropped ancestor)
    returns, and leaves every node of the tree below the root as it was:
    the store still holds the same tree there, and the markup read off
    below the root is the same. *)
Theorem detached_entry_is_noop (h : dom) (p : option nat) (root : nat)
    (tag : jsstring) (attrs : list attr) (kids : list tree)
    (D : tree) (el : nat)
    (Htree : rep h p (TElem root tag attrs kids))
    (Hdetached : rep h None D)
    (Hnd : NoDup (ids (TElem root tag attrs kids) ++ ids D))
    (Hel : el ∈ elemIds D) :
  walkAndSanitize h root
  = forEach sanitizeElement (List.flat_map elemIds kids) h
  /\ exists h',
       sanitizeElement h el = Return h'
       /\ (forall k, k ∈ ids (TElem root tag attrs kids) -> h' !! k = h !! k)
       /\ rep h' p (TElem root tag attrs kids)
       /\ contents h' root = contents h root.
Proof.
  apply NoDup_app in Hnd as (HndT & Hdisj & HndD).
  split.
  - unfold walkAndSanitize. by rewrite (querySelectorAll_rep _ _ _ _ _ _ Htree HndT).
  - destruct (sanitizeElement_detached h D el Hdetached HndD Hel)
      as (h' & Hstep & Hlen & Hframe).
    assert (Hsame : forall k, k ∈ ids (TElem root tag attrs kids) -> h' !! k = h !! k).
    { intros k Hk. apply Hframe. by apply Hdisj. }
    assert (Hrep' : rep h' p (TElem root tag attrs kids))
      by (by apply (rep_frame h)).
    exists h'. split_and!; try done.
    by rewrite (contents_rep _ _ _ _ _ _ Hrep' HndT),
               (contents_rep _ _ _ _ _ _ Htree HndT).
Qed.

(** C7. An element whose tag is neither in [SAFE_ELEMENTS] nor in
    [ALWAYS_DROP], a child of [pa] between the siblings [l1] and [l2]:
    the classifier returns; afterwards [pa] has the children of the
    element, in their order, exactly where the element was, and the
    element itself has neither parent nor children.  Nodes outside the
    tree of [pa] are untouched.  On the markup, such an element cleans to
    the cleaned markup of its content, in place. *)
Theorem unwrap_splices_children (h : dom) (pp : option nat) (pa el : nat)
    (tg tagName : jsstring) (at' attrs : list attr) (l1 l2 kids : list tree)
    (Hrep : rep h pp (TElem pa tg at' (l1 ++ TElem el tagName attrs kids :: l2)))
    (Hnd : NoDup (ids (TElem pa tg at' (l1 ++ TElem el tagName attrs kids :: l2))))
    (Hdrop : has ALWAYS_DROP (toLowerCase tagName) = false)
    (Hsafe : has SAFE_ELEMENTS (toLowerCase tagName) = false) :
  (exists h',
      sanitizeElement h el = Return h'
      /\ rep h' pp (TElem pa tg at' (l1 ++ kids ++ l2))
      /\ children h' pa
         = List.map rid l1 ++ children h el ++ List.map rid l2
      /\ h' !! el = Some (Node (ElementNode tagName attrs) None [])
      /\ (forall k, k ∉ ids (TElem pa tg at' (l1 ++ TElem el tagName attrs kids :: l2)) ->
          h' !! k = h !! k))
  /\ (forall content,
        cleanHtml (Element tagName attrs content)
        = List.flat_map cleanHtml content)
  /\ clean (TElem el tagName attrs kids) = List.flat_map clean kids.
Proof.
  split_and!.
  - destruct (sanitizeElement_child h pp pa el tg tagName at' attrs l1 l2 kids
                Hrep Hnd) as (h' & Hstep & _ & Hframe & _ & Hunwrap & _).
    destruct (Hunwrap Hdrop Hsafe) as [Hrep' Hel'].
    exists h'. split_and!; try done.
    apply rep_TElem in Hrep as (_ & _ & Hkids).
    apply Forall_app in Hkids as [_ Hkids].
    apply Forall_cons in Hkids as [(Hel & _)%rep_TElem _].
    apply rep_TElem in Hrep' as (Hpa' & _).
    rewrite (children_lookup _ _ _ Hpa'), (children_lookup _ _ _ Hel). simpl.
    by rewrite !List.map_app.
  - intros content. cbn [cleanHtml]. by rewrite Hdrop, Hsafe.
  - cbn [clean]. by rewrite Hdrop, Hsafe.
Qed.

(** ** Attribute values on a kept element *)

Lemma forEach_sanitizeAttr_total (tag : jsstring) (xs cur : list attr) :
  has OBJECT_PROTOTYPE_KEYS tag = false ->
  exists out, forEach (sanitizeAttr tag) xs cur = Return out.
Proof.
  intros Htag. revert cur. induction xs as [|a xs IH]; intros cur; simpl.
  - by exists cur.
  - rewrite (sanitizeAttr_eq _ _ _ Htag). simpl. apply IH.
Qed.

(** A name that the DOM reads as [target] is one that the loop keeps on
    an anchor. *)
Lemma keepAttr_target_anchor (k v : jsstring) :
  asciiLowerCase k = lit "target" -> keepAttr (lit "a") (k, v) = true.
Proof.
  intros Hk. unfold keepAttr. cbn [fst snd].
  by rewrite (toLowerCase_asciiLowerCase k (lit "target") Hk eq_refl).
Qed.

(** On an anchor the attribute loop leaves [target] alone. *)
Lemma forEach_sanitizeAttr_target (xs cur out : list attr) :
  forEach (sanitizeAttr (lit "a")) xs cur = Return out ->
  getAttribute out (lit "target") = getAttribute cur (lit "target").
Proof.
  revert cur. induction xs as [|[k v] xs IH]; simpl; intros cur H.
  - by injection H as ->.
  - rewrite sanitizeAttr_eq in H by reflexivity. simpl in H.
    rewrite (IH _ H).
    destruct (keepAttr (lit "a") (k, v)) eqn:E; [done|].
    rewrite !getAttribute_held by reflexivity.
    apply assoc_removeNamed_ne. intros Hk.
    by rewrite keepAttr_target_anchor in E.
Qed.

(** C10. On a kept element the classifier changes nothing in the store
    but the attribute list of that element, and of that list it only
    removes entries: every entry left is an entry of the original list,
    name and value, unless it is the [rel] entry of an anchor whose
    [target] is [_blank]; on any other element the list left is a
    sublist of the original one. *)
Theorem kept_attributes_keep_values (h : dom) (el : nat) (tagName : jsstring)
    (attrs : list attr) (p : option nat) (cs : list nat)
    (Hel : h !! el = Some (Node (ElementNode tagName attrs) p cs))
    (Hsafe : has SAFE_ELEMENTS (toLowerCase tagName) = true) :
  exists attrs',
    sanitizeElement h el
    = Return (<[el := Node (ElementNode tagName attrs') p cs]> h)
    /\ (forall n v, (n, v) ∈ attrs' ->
          (n, v) ∈ attrs
          \/ (n = lit "rel" /\ toLowerCase tagName = lit "a"
              /\ getAttribute attrs (lit "target") = Some (lit "_blank")))
    /\ (~ (toLowerCase tagName = lit "a"
           /\ getAttribute attrs (lit "target") = Some (lit "_blank")) ->
        sublist attrs' attrs).
Proof.
  pose proof (safe_tag_not_inherited _ Hsafe) as Htag.
  destruct (forEach_sanitizeAttr_total (toLowerCase tagName) attrs attrs Htag)
    as (attrs1 & Hloop).
  pose proof (forEach_sanitizeAttr_sublist _ _ _ _ Hloop) as Hsub.
  exists (ensureSafeLinkAttrs tagName attrs1). split_and!.
  - unfold sanitizeElement. rewrite Hel. cbv zeta.
    rewrite (safe_not_dropped _ Hsafe), Hsafe. cbn [negb].
    unfold sanitizeAttributes. rewrite Hloop. cbn [bind].
    unfold update. by rewrite Hel.
  - intros n v. rewrite ensureSafeLinkAttrs_eq.
    destruct (jseq (toLowerCase tagName) (lit "a")) eqn:Ha; cbn [andb].
    + apply jseq_true in Ha. rewrite Ha in Hloop.
      rewrite (forEach_sanitizeAttr_target _ _ _ Hloop).
      destruct (getAttribute attrs (lit "target")) as [t|] eqn:Ht.
      * destruct (jseq t (lit "_blank")) eqn:Hb.
        -- apply jseq_true in Hb as ->.
           intros [Hin|[-> _]]%elem_of_setAttribute; [|by right|done].
           left. by apply (elem_of_sublist attrs1).
        -- intros Hin. left. by apply (elem_of_sublist attrs1).
      * intros Hin. left. by apply (elem_of_sublist attrs1).
    + intros Hin. left. by apply (elem_of_sublist attrs1).
  - intros Hnot. rewrite ensureSafeLinkAttrs_eq.
    destruct (jseq (toLowerCase tagName) (lit "a")) eqn:Ha; cbn [andb]; [|done].
    apply jseq_true in Ha. rewrite Ha in Hloop.
    rewrite (forEach_sanitizeAttr_target _ _ _ Hloop).
    destruct (getAttribute attrs (lit "target")) as [t|] eqn:Ht; [|done].
    destruct (jseq t (lit "_blank")) eqn:Hb; [|done].
    apply jseq_true in Hb as ->. by destruct Hnot.
Qed.

(** ** The entry point *)

Lemma forEach_error {A S} (body : S -> A -> outcome S) (e : error)
    (xs : list A) (s : S) :
  (forall s x, body s x <> Throw e) -> forEach body xs s <> Throw e.
Proof.
  intros Hbody. revert s. induction xs as [|x xs IH]; simpl; intros s; [done|].
  destruct (body s x) as [s'| e' |] eqn:E; simpl; [apply IH| |done].
  intros [= ->]. by apply (Hbody s x).
Qed.

Lemma unwrapLoop_error (fuel : nat) (h : dom) (parent el : nat) :
  unwrapLoop fuel h parent el <> Throw NoDomError.
Proof.
  revert h. induction fuel as [|fuel IH]; intros h; simpl;
    destruct (firstChild h el); try done.
  unfold insertBefore.
  destruct (negb _); [done|].
  destruct (insertAt _ _ _); [|done]. simpl. apply IH.
Qed.

Lemma isAllowedAttr_error (tag name : jsstring) :
  isAllowedAttr tag name <> Throw NoDomError.
Proof.
  unfold isAllowedAttr. cbv zeta.
  repeat match goal with
         | |- context [if ?b then _ else _] => destruct b
         end; try done.
  by destruct (getTagAttrs tag).
Qed.

Lemma sanitizeElement_error (h : dom) (el : nat) :
  sanitizeElement h el <> Throw NoDomError.
Proof.
  unfold sanitizeElement.
  destruct (h !! el) as [[[tagName attrs|] ? ?]|]; try done. cbv zeta.
  destruct (has ALWAYS_DROP _); [done|].
  destruct (negb _).
  - unfold unwrapElement. destruct (parentOf h el); [|done].
    destruct (unwrapLoop _ _ _ _) eqn:E; simpl; try done.
    intros [= ->]. by apply unwrapLoop_error in E.
  - destruct (sanitizeAttributes _ _) eqn:E; simpl; try done.
    intros [= ->]. revert E. apply forEach_error.
    intros cur a. unfold sanitizeAttr. cbv zeta.
    destruct (isAllowedAttr _ _) as [[]|e|] eqn:E'; cbn [bind negb]; try done.
    + by repeat match goal with
                | |- context [if ?b then _ else _] => destruct b
                end.
    + intros [= ->]. by apply isAllowedAttr_error in E'.
Qed.

Lemma walkAndSanitize_error (h : dom) (root : nat) :
  walkAndSanitize h root <> Throw NoDomError.
Proof. apply forEach_error. intros. apply sanitizeElement_error. Qed.

(** C8. [sanitize] returns the empty string for a [null] input whatever
    the host is, parser or not.  It throws its own error exactly when
    the input is not [null] and the host has neither the
    [createDocument] option nor an ambient parser; no document is built
    then.  In every other case, on the well-formed document that the
    builder in force gives, the walk returns and [sanitize] returns the
    serialization of the cleaned markup. *)
Theorem sanitize_outcomes (env : host) :
  sanitize env None = Return []
  /\ (forall html,
        sanitize env html = Throw NoDomError
        <-> html <> None /\ createDocument env = None /\ DOMParser env = None)
  /\ (forall html create,
        builder env = Some create ->
        wellFormed (create html) ->
        exists h',
          walkAndSanitize (nodes (create html)) (body (create html)) = Return h'
          /\ contents h' (body (create html))
             = List.flat_map cleanHtml
                 (contents (nodes (create html)) (body (create html)))
          /\ sanitize env (Some html)
             = Return (serialize env (contents h' (body (create html))))).
Proof.
  split_and!.
  - done.
  - intros [html|]; [|split; [done|by intros [? _]]].
    unfold sanitize.
    destruct (createDocument env) as [create|] eqn:Ec;
      [|destruct (DOMParser env) as [parse|] eqn:Ep].
    + split; [|by intros (_ & ? & _)]. cbn [bind].
      destruct (walkAndSanitize _ _) eqn:E; simpl; try done.
      intros [= ->]. by apply walkAndSanitize_error in E.
    + split; [|by intros (_ & _ & ?)]. cbn [bind].
      destruct (walkAndSanitize _ _) eqn:E; simpl; try done.
      intros [= ->]. by apply walkAndSanitize_error in E.
    + done.
  - intros html create Hb (p & tag & attrs & kids & Hrep & Hnd).
    destruct (walk_refines _ _ _ _ _ _ Hrep Hnd)
      as (h' & Hwalk & _ & _ & _ & _ & Hcontents).
    exists h'. split_and!; [done|done|].
    unfold sanitize, builder in *.
    destruct (createDocument env) as [create'|].
    + injection Hb as ->. cbn [bind]. by rewrite Hwalk.
    + rewrite Hb. cbn [bind]. by rewrite Hwalk.
Qed.
(** ** Walking twice *)

Lemma html_ind' (P : html -> Prop) :
  (forall s, P (Text s)) ->
  (forall tag attrs kids, Forall P kids -> P (Element tag attrs kids)) ->
  forall t, P t.
Proof.
  intros Htext Helem.
  fix IH 1. intros [tag attrs kids|s]; [|apply Htext].
  apply Helem. induction kids as [|t kids IHkids]; constructor; [apply IH|exact IHkids].
Qed.

(** *** Strings in lower case *)

(** Every piece that [split] makes of a string in lower case is in
    lower case. *)
Lemma splitOnSpace_lower (s cur : jsstring) (inRun : bool) :
  (inRun = true -> cur = []) ->
  toLowerCase (rev cur ++ s) = rev cur ++ s ->
  Forall (fun p => toLowerCase p = p) (splitOnSpace s cur inRun).
Proof using toLowerCase_cut.
  revert cur inRun. induction s as [|u s IH]; intros cur inRun Hrun Hlow.
  - rewrite app_nil_r in Hlow. by apply Forall_singleton.
  - cbn [splitOnSpace]. destruct (isWhiteSpace u) eqn:Hu.
    + destruct (toLowerCase_cut _ _ _ Hu Hlow) as [Hcur Hs].
      destruct inRun.
      * rewrite (Hrun eq_refl). by apply IH.
      * apply Forall_cons. split; [done|]. by apply IH.
    + apply IH; [done|]. cbn [rev]. by rewrite <- app_assoc.
Qed.

Lemma relTokens_lower (r : jsstring) :
  toLowerCase r = r -> Forall (fun p => toLowerCase p = p) (relTokens r).
Proof using toLowerCase_cut.
  intros Hr. apply Forall_forall. intros p [Hp _]%elem_of_dedup.
  apply list_elem_of_In, filter_In in Hp as [Hp _].
  pose proof (splitOnSpace_lower r [] false ltac:(done) Hr) as H.
  rewrite Forall_forall in H. by apply H, list_elem_of_In.
Qed.

Lemma join_lower (ps : list jsstring) :
  Forall (fun p => toLowerCase p = p) ps -> toLowerCase (join ps) = join ps.
Proof using toLowerCase_join.
  induction ps as [|x ps IH]; [done|].
  intros [Hx Hps]%Forall_cons. destruct ps as [|y ps]; [done|].
  change (join (x :: y :: ps)) with (x ++ 32%N :: join (y :: ps)).
  apply toLowerCase_join; [done|by apply IH].
Qed.

(** A hardened value made from a lower-cased one is in lower case. *)
Lemma hardened_lower (r : jsstring) :
  toLowerCase (hardenedRel_spec (toLowerCase r))
  = hardenedRel_spec (toLowerCase r).
Proof using toLowerCase_idem toLowerCase_cut toLowerCase_join.
  unfold hardenedRel_spec. cbv zeta. apply join_lower, Forall_app. split.
  - apply relTokens_lower, toLowerCase_idem.
  - apply Forall_forall. intros p Hp.
    apply list_elem_of_In, filter_In in Hp as [Hp _].
    destruct Hp as [<-|[<-|[]]]; reflexivity.
Qed.

(** *** The hardener and the filter on what they have made *)

Lemma ensureSafeLinkAttrs_idem (tagName : jsstring) (attrs : list attr) :
  ensureSafeLinkAttrs tagName (ensureSafeLinkAttrs tagName attrs)
  = ensureSafeLinkAttrs tagName attrs.
Proof using toLowerCase_idem toLowerCase_cut toLowerCase_join.
  rewrite (ensureSafeLinkAttrs_eq tagName attrs).
  destruct (jseq (toLowerCase tagName) (lit "a")
            && match getAttribute attrs (lit "target") with
               | Some t => jseq t (lit "_blank")
               | None => false
               end) eqn:Hcond.
  - rewrite ensureSafeLinkAttrs_eq.
    rewrite getAttribute_setAttribute_ne by done.
    rewrite Hcond, getAttribute_setAttribute_eq by done. cbn [from_option id].
    rewrite hardened_lower, hardenedRel_spec_idem.
    rewrite !setAttribute_held by done. apply setNamed_idem.
  - rewrite ensureSafeLinkAttrs_eq. by rewrite Hcond.
Qed.

(** What the loop and the hardener leave of an attribute list passes
    the checks of the loop, and the hardener finds its tokens in place. *)
Lemma kept_attrs_clean (tagName : jsstring) (attrs : list attr) :
  has SAFE_ELEMENTS (toLowerCase tagName) = true ->
  NoDup attrs.*1 ->
  forallb lowerCaseName attrs = true ->
  let kept := ensureSafeLinkAttrs tagName
                (sanitizedAttributes (toLowerCase tagName) attrs) in
  forallb (keepAttr (toLowerCase tagName)) kept = true
  /\ ensureSafeLinkAttrs tagName kept = kept.
Proof using toLowerCase_idem toLowerCase_cut toLowerCase_join.
  intros Hsafe Hnd Hlow kept. split.
  - apply forallb_forall. intros [n v] Hin.
    apply (hardened_attrs_kept tagName attrs Hsafe Hnd Hlow).
    by apply list_elem_of_In.
  - apply ensureSafeLinkAttrs_idem.
Qed.

(** *** Markup that the walk leaves alone *)

Lemma cleanHtml_isClean (t : html) : isClean t = true -> cleanHtml t = [t].
Proof.
  induction t as [s|tagName attrs kids IH] using html_ind'; [done|].
  cbn [isClean cleanHtml].
  intros [[[Hsafe Hattrs]%andb_true_iff Hrel]%andb_true_iff Hkids]%andb_true_iff.
  rewrite (safe_not_dropped _ Hsafe), Hsafe. cbn [negb].
  apply bool_decide_eq_true in Hrel.
  rewrite sanitizedAttributes_all, Hrel by done.
  do 2 f_equal. rewrite forallb_forall in Hkids.
  induction IH as [|k kids Hk _ IHk]; simpl; [done|].
  rewrite Hk by (apply Hkids; by left). simpl. f_equal.
  apply IHk. intros x Hx. apply Hkids. by right.
Qed.

Lemma cleanHtml_isClean_forest (ts : list html) :
  forallb isClean ts = true -> List.flat_map cleanHtml ts = ts.
Proof.
  induction ts as [|t ts IH]; simpl; [done|].
  intros [Ht Hts]%andb_true_iff.
  by rewrite (cleanHtml_isClean t Ht), IH.
Qed.

Lemma normalMarkup_kid (tagName : jsstring) (attrs : list attr)
    (kids : list html) (kid : html) :
  normalMarkup (Element tagName attrs kids) -> kid ∈ kids -> normalMarkup kid.
Proof.
  intros Hn Hkid tg at' Hin. apply (Hn tg at').
  cbn [elements]. right. apply elem_of_flat_map. by exists kid.
Qed.

(** What the classifier makes of markup is markup it leaves alone. *)
Lemma isClean_cleanHtml (t : html) :
  normalMarkup t -> forallb isClean (cleanHtml t) = true.
Proof using toLowerCase_idem toLowerCase_cut toLowerCase_join.
  induction t as [s|tagName attrs kids IH] using html_ind'; [done|].
  intros Hn.
  assert (Hkids : forallb isClean (List.flat_map cleanHtml kids) = true).
  { apply forallb_forall. intros c Hc.
    apply in_flat_map in Hc as (kid & Hkid & Hc).
    rewrite Forall_forall in IH. apply list_elem_of_In in Hkid.
    pose proof (IH kid Hkid (normalMarkup_kid _ _ _ _ Hn Hkid)) as H.
    rewrite forallb_forall in H. by apply H. }
  destruct (Hn tagName attrs) as [Hnd Hlow]; [by left|].
  cbn [cleanHtml].
  destruct (has ALWAYS_DROP (toLowerCase tagName)); [done|].
  destruct (has SAFE_ELEMENTS (toLowerCase tagName)) eqn:Hsafe; cbn [negb];
    [|done].
  cbn [forallb isClean]. rewrite Hsafe, Hkids.
  destruct (kept_attrs_clean tagName attrs Hsafe Hnd Hlow) as [-> ->].
  by rewrite bool_decide_eq_true_2.
Qed.

Lemma isClean_cleanHtml_forest (ts : list html) :
  Forall normalMarkup ts ->
  forallb isClean (List.flat_map cleanHtml ts) = true.
Proof using toLowerCase_idem toLowerCase_cut toLowerCase_join.
  induction 1 as [|t ts Ht _ IH]; [done|].
  cbn [List.flat_map]. rewrite forallb_app, IH.
  by rewrite (isClean_cleanHtml t Ht).
Qed.

(** Whether markup is clean is a matter of its elements one by one. *)
Lemma isClean_elements (t : html) :
  isClean t = true <->
  forall tagName attrs,
    (tagName, attrs) ∈ elements t -> isClean (Element tagName attrs []) = true.
Proof.
  induction t as [s|tagName attrs kids IH] using html_ind'.
  - split; [|done]. intros _ tg at' Hin. by apply elem_of_nil in Hin.
  - assert (Hone : forall tg at', isClean (Element tg at' [])
              = has SAFE_ELEMENTS (toLowerCase tg)
                && forallb (keepAttr (toLowerCase tg)) at'
                && bool_decide (ensureSafeLinkAttrs tg at' = at')).
    { intros tg at'. cbn [isClean forallb]. by rewrite andb_true_r. }
    cbn [isClean elements]. rewrite <- Hone. rewrite andb_true_iff. split.
    + intros [Hself Hkids] tg at' [[= -> ->]|Hin]%elem_of_cons; [done|].
      apply elem_of_flat_map in Hin as (kid & Hkid & Hin).
      rewrite Forall_forall in IH. apply (IH kid Hkid); [|done].
      rewrite forallb_forall in Hkids. by apply Hkids, list_elem_of_In.
    + intros Hall. split; [apply Hall; by left|].
      apply forallb_forall. intros kid Hkid. apply list_elem_of_In in Hkid.
      rewrite Forall_forall in IH. apply (IH kid Hkid).
      intros tg at' Hin. apply Hall. right.
      apply elem_of_flat_map. by exists kid.
Qed.

Lemma isClean_elements_forest (ts : list html) :
  forallb isClean ts = true <->
  forall tagName attrs,
    (tagName, attrs) ∈ List.flat_map elements ts ->
    isClean (Element tagName attrs []) = true.
Proof.
  rewrite forallb_forall. split.
  - intros Hall tg at' (t & Ht & Hin)%elem_of_flat_map.
    apply (isClean_elements t); [|done]. by apply Hall, list_elem_of_In.
  - intros Hall t Ht. apply isClean_elements. intros tg at' Hin.
    apply Hall, elem_of_flat_map. exists t. split; [|done].
    by apply list_elem_of_In.
Qed.

(** The markup that a store with lower-case names holds is normal. *)
Lemma elements_erase (t : tree) (tagName : jsstring) (attrs : list attr) :
  (tagName, attrs) ∈ elements (erase t) ->
  exists el ks, TElem el tagName attrs ks ∈ subtrees t.
Proof.
  induction t as [i d|i tag at' kids IH] using tree_ind'.
  - simpl. intros H. by apply elem_of_nil in H.
  - cbn [erase elements subtrees]. intros [[= -> ->]|Hin]%elem_of_cons.
    + exists i, kids. by left.
    + apply elem_of_flat_map in Hin as (k & Hk & Hin).
      apply list_elem_of_In, in_map_iff in Hk as (kid & <- & Hkid).
      apply list_elem_of_In in Hkid. rewrite Forall_forall in IH.
      destruct (IH kid Hkid Hin) as (el & ks & Hs).
      exists el, ks. right. apply elem_of_flat_map. by exists kid.
Qed.

Lemma normalMarkup_erase (t : tree) : normalNames t -> normalMarkup (erase t).
Proof.
  intros Hn tagName attrs Hin.
  destruct (elements_erase _ _ _ Hin) as (el & ks & Hs).
  exact (Hn el tagName attrs ks Hs).
Qed.

Lemma normalMarkup_contents (h : dom) (p : option nat) (root : nat)
    (tag : jsstring) (attrs : list attr) (kids : list tree) :
  rep h p (TElem root tag attrs kids) ->
  NoDup (ids (TElem root tag attrs kids)) ->
  lowerCaseNames h = true ->
  Forall normalMarkup (contents h root).
Proof.
  intros Hrep Hnd Hlow. rewrite (contents_rep _ _ _ _ _ _ Hrep Hnd).
  pose proof (rep_normalNames _ _ _ Hrep Hlow) as Hn.
  apply Forall_forall. intros t Ht.
  apply list_elem_of_In, in_map_iff in Ht as (kid & <- & Hkid).
  apply normalMarkup_erase, (normalNames_kid _ _ _ _ _ Hn).
  by apply list_elem_of_In.
Qed.

(** C5 (amended). Walking is idempotent on the tree: after a walk over
    a well-formed document that holds its attribute names as section 3
    says, a second walk returns and leaves the markup below the root as
    the first one left it.  On strings, with [out] what [sanitize]
    returns for [s]: [sanitize(out)] is [out], and so
    [sanitize(sanitize(s))] is [sanitize(s)], whenever the builder makes
    of [out] a well-formed document whose markup has no element that the
    first walk did not leave and serializes to [out] again.  The three
    facts about the engine's lower-casing stated with [toLowerCase] are
    used: the [rel] value that the hardener wrote has to be one that it
    writes again. *)
Theorem sanitize_idempotent_on_roundtrip (d : document)
    (Hwf : wellFormed d) (Hnames : lowerCaseNames (nodes d) = true) :
  exists h',
    walkAndSanitize (nodes d) (body d) = Return h'
    /\ (exists h'',
          walkAndSanitize h' (body d) = Return h''
          /\ contents h'' (body d) = contents h' (body d))
    /\ forall env create s,
         builder env = Some create ->
         create s = d ->
         let out := serialize env (contents h' (body d)) in
         let again := create out in
         sanitize env (Some s) = Return out
         /\ (wellFormed again ->
             (forall e,
                 e ∈ List.flat_map elements
                       (contents (nodes again) (body again)) ->
                 e ∈ List.flat_map elements (contents h' (body d))) ->
             serialize env (contents (nodes again) (body again)) = out ->
             sanitize env (Some out) = Return out
             /\ sanitizeTwice env s = sanitize env (Some s)).
Proof using toLowerCase_idem toLowerCase_cut toLowerCase_join.
  destruct Hwf as (p & tag & attrs & kids & Hrep & Hnd).
  destruct (walk_refines _ _ _ _ _ _ Hrep Hnd)
    as (h' & Hwalk & _ & Hrep' & Hnd' & _ & Hc').
  destruct (walk_refines _ _ _ _ _ _ Hrep' Hnd')
    as (h'' & Hwalk' & _ & _ & _ & _ & Hc'').
  assert (Hclean : forallb isClean (contents h' (body d)) = true).
  { rewrite Hc'. apply isClean_cleanHtml_forest.
    by apply (normalMarkup_contents _ p _ tag attrs kids). }
  exists h'. split_and!; [done| |].
  - exists h''. split; [done|].
    by rewrite Hc'', cleanHtml_isClean_forest.
  - intros env create s Hbuilder Hd out again.
    assert (Hsan : forall html h1,
              walkAndSanitize (nodes (create html)) (body (create html))
              = Return h1 ->
              sanitize env (Some html)
              = Return (serialize env (contents h1 (body (create html))))).
    { intros html h1 Hw. unfold sanitize, builder in *.
      destruct (createDocument env) as [create'|].
      - injection Hbuilder as ->. cbn [bind]. by rewrite Hw.
      - rewrite Hbuilder. cbn [bind]. by rewrite Hw. }
    assert (Hout : sanitize env (Some s) = Return out).
    { rewrite (Hsan s h'); rewrite Hd; done. }
    split; [done|]. intros Hwf2 Hnew Hser.
    assert (Hout' : sanitize env (Some out) = Return out).
    { destruct Hwf2 as (p2 & tag2 & attrs2 & kids2 & Hrep2 & Hnd2).
      destruct (walk_refines _ _ _ _ _ _ Hrep2 Hnd2)
        as (h2 & Hwalk2 & _ & _ & _ & _ & Hc2).
      rewrite (Hsan out h2 Hwalk2). fold again. rewrite Hc2.
      rewrite cleanHtml_isClean_forest; [by rewrite Hser|].
      apply isClean_elements_forest. intros tg at' Hin.
      by apply (proj1 (isClean_elements_forest _) Hclean), Hnew. }
    split; [done|].
    unfold sanitizeTwice. rewrite Hout. cbn [bind]. done.
Qed.


(** ** The documents that [load] builds *)

Lemma length_allocate (t : html) :
  forall parent next, length (allocate parent t next) = size t.
Proof.
  induction t as [s|tag attrs kids IH] using html_ind'; intros parent next;
    [done|].
  cbn [allocate size length]. f_equal.
  generalize (S next). intros nx. revert nx.
  induction IH as [|t kids Ht _ IHk]; intros nx; [done|].
  cbn [layout concat List.map foldr]. rewrite length_app, Ht, IHk. done.
Qed.

Lemma ids_label (t : html) :
  forall next, ids (label t next) = List.seq next (size t).
Proof.
  induction t as [s|tag attrs kids IH] using html_ind'; intros next; [done|].
  cbn [label ids size List.seq]. f_equal.
  generalize (S next). intros nx. revert nx.
  induction IH as [|t kids Ht _ IHk]; intros nx; [done|].
  cbn [layout List.flat_map List.map foldr].
  rewrite List.seq_app, Ht, IHk. by rewrite List.length_seq.
Qed.

Lemma rid_label (t : html) (next : nat) : rid (label t next) = next.
Proof. by destruct t. Qed.

(** The child indices that [allocate] writes are the roots that [label]
    gives the children. *)
Lemma starts_label (parent : nat) (kids : list html) (nx : nat) :
  starts (List.map length (layout (allocate parent) length kids nx)) nx
  = List.map rid (layout label (fun k => length (ids k)) kids nx).
Proof.
  revert nx. induction kids as [|t kids IH]; intros nx; [done|].
  cbn [layout List.map starts]. rewrite rid_label. f_equal.
  rewrite length_allocate, ids_label, List.length_seq. apply IH.
Qed.

Lemma uniqueAttrs_Element (tag : jsstring) (attrs : list attr) (kids : list html) :
  uniqueAttrs (Element tag attrs kids) = true ->
  NoDup attrs.*1 /\ Forall (fun t => uniqueAttrs t = true) kids.
Proof.
  cbn [uniqueAttrs]. intros [H1 H2]%andb_true_iff. split.
  - by apply bool_decide_eq_true in H1.
  - apply Forall_forall. intros t Ht.
    rewrite forallb_forall in H2. by apply H2, list_elem_of_In.
Qed.

(** A store that has the nodes of [t] from index [length pre] on holds
    the tree that [label] gives [t]. *)
Lemma rep_allocate (t : html) :
  forall parent pre post,
    uniqueAttrs t = true ->
    rep (pre ++ allocate parent t (length pre) ++ post) (Some parent)
        (label t (length pre)).
Proof.
  induction t as [s|tag attrs kids IH] using html_ind';
    intros parent pre post Huniq.
  - cbn [rep label allocate app]. by apply list_lookup_middle.
  - apply uniqueAttrs_Element in Huniq as [Hattrs Hkids].
    cbn [allocate label]. apply rep_TElem. split_and!.
    + rewrite <- app_comm_cons, starts_label. by apply list_lookup_middle.
    + done.
    + set (node := Node (ElementNode tag attrs) (Some parent) _).
      set (next := length pre).
      assert (Hgen : forall pre' post',
                Forall (rep (pre' ++ concat (layout (allocate next) length kids
                                               (length pre')) ++ post')
                            (Some next))
                       (layout label (fun k => length (ids k)) kids (length pre'))).
      { clear node.
        induction IH as [|t kids Ht _ IHk]; intros pre' post'; [done|].
        apply Forall_cons in Hkids as [Hut Hukids].
        cbn [layout concat]. apply Forall_cons. split.
        - rewrite <- app_assoc. by apply Ht.
        - rewrite length_allocate, ids_label, List.length_seq.
          specialize (IHk Hukids (pre' ++ allocate next t (length pre')) post').
          rewrite length_app, length_allocate in IHk.
          by rewrite <- !app_assoc in IHk |- *. }
      specialize (Hgen (pre ++ [node]) post).
      rewrite length_app in Hgen. simpl in Hgen.
      replace (length pre + 1) with (S next) in Hgen by (unfold next; lia).
      rewrite <- app_assoc in Hgen. exact Hgen.
Qed.

(** Every document that [load] builds from markup with unique attribute
    names is well formed. *)
Lemma wellFormed_load (ts : list html) :
  forallb uniqueAttrs ts = true -> wellFormed (load ts).
Proof.
  intros Huniq.
  assert (Hu : uniqueAttrs (Element (lit "BODY") [] ts) = true).
  { cbn [uniqueAttrs]. rewrite Huniq. apply andb_true_iff. split; [|done].
    apply bool_decide_eq_true. apply NoDup_nil_2. }
  pose proof (rep_allocate _ 0 [] [] Hu) as Hrep.
  pose proof (ids_label (Element (lit "BODY") [] ts) 0) as Hids.
  unfold load. cbn [allocate label length app] in *. rewrite app_nil_r in Hrep.
  exists None, (lit "BODY"), [],
    (layout label (fun k => length (ids k)) ts 1).
  cbn [nodes body]. split.
  - apply rep_TElem in Hrep as (Hroot & Hattrs & Hkids).
    apply rep_TElem. split_and!.
    + simpl in Hroot |- *. by injection Hroot as ->.
    + done.
    + refine (rep_frame_forest _ _ _ _ _ Hkids).
      intros k Hk. destruct k as [|k]; [|done].
      exfalso. cbn [ids size List.seq] in Hids.
      injection Hids as Hids. rewrite Hids in Hk.
      apply list_elem_of_In, in_seq in Hk. lia.
  - rewrite Hids. apply NoDup_ListNoDup, List.seq_NoDup.
Qed.

(* ===================================================================== *)
(** * Further properties of the code *)
(* ===================================================================== *)

(** ** URL validator *)

Lemma isControlOrSpace_true (v : N) :
  isControlOrSpace v = true <->
  (v <= 0x1F \/ v = 0x7F \/ v = 32 \/ v = 160 \/ v = 0x1680
   \/ 0x2000 <= v <= 0x200A \/ v = 0x2028 \/ v = 0x2029 \/ v = 0x202F
   \/ v = 0x205F \/ v = 0x3000 \/ v = 0xFEFF)%N.
Proof.
  unfold isControlOrSpace, isWhiteSpace.
  rewrite !orb_true_iff, !andb_true_iff, !N.leb_le, !N.eqb_eq. lia.
Qed.

Lemma removeAll_idem (p : N -> bool) (s : jsstring) :
  removeAll p (removeAll p s) = removeAll p s.
Proof.
  unfold removeAll. induction s as [|u s IH]; simpl; [done|].
  destruct (negb (p u)) eqn:E; simpl; rewrite ?E, IH; done.
Qed.

(** Off the empty string the verdict is a function of the compact form. *)
Lemma isSafeUrl_compact (s s' : jsstring) :
  s <> [] -> s' <> [] ->
  toLowerCase (removeAll isControlOrSpace s)
  = toLowerCase (removeAll isControlOrSpace s') ->
  isSafeUrl (Some s) = isSafeUrl (Some s').
Proof.
  destruct s as [|u s]; [done|]. destruct s' as [|u' s']; [done|].
  intros _ _ H. unfold isSafeUrl. rewrite !removeAll_trim. by rewrite H.
Qed.

Lemma isSafeUrl_blank (s : jsstring) :
  removeAll isControlOrSpace s = [] -> isSafeUrl (Some s) = true.
Proof.
  destruct s as [|u s]; [done|]. intros H.
  unfold isSafeUrl. rewrite removeAll_trim, H. reflexivity.
Qed.

(** X1. Control characters and white space cannot change the verdict:
    two values that are the same once those units are deleted get the
    same answer from [isSafeUrl]. *)
Theorem isSafeUrl_ignores_hidden_units (s s' : jsstring)
    (Hsame : removeAll isControlOrSpace s = removeAll isControlOrSpace s') :
  isSafeUrl (Some s) = isSafeUrl (Some s').
Proof.
  destruct (removeAll isControlOrSpace s) as [|u r] eqn:E.
  - rewrite (isSafeUrl_blank s E). symmetry. by apply isSafeUrl_blank.
  - apply isSafeUrl_compact.
    + intros ->. discriminate E.
    + intros ->. discriminate Hsame.
    + by rewrite E, Hsame.
Qed.

Lemma startsWith_app (s p : jsstring) :
  startsWith s p = true <-> exists r, s = p ++ r.
Proof.
  revert s. induction p as [|c p IH]; intros s.
  - destruct s; simpl; split; eauto.
  - destruct s as [|u s]; simpl.
    + split; [done|]. by intros [r ?].
    + rewrite andb_true_iff, N.eqb_eq, IH. split.
      * intros [-> [r ->]]. by exists r.
      * intros [r [= -> ->]]. split; [done|]. by exists r.
Qed.

Lemma firstColon_split (v : jsstring) (k : nat) :
  firstColon v = Some k -> v = take k v ++ colon :: drop (S k) v.
Proof.
  revert k. induction v as [|u v IH]; intros k; simpl; [done|].
  destruct (N.eqb_spec u colon) as [->|Hne].
  - by intros [= <-].
  - destruct (firstColon v) as [j|]; simpl; [|done].
    intros [= <-]. simpl. f_equal. by apply IH.
Qed.

(** The verdict, rule by rule, for use below. *)
Lemma isSafeUrl_rules (raw : option jsstring) :
  isSafeUrl raw = isSafeUrl_spec raw.
Proof.
  destruct raw as [[|u s]|]; [done| |done].
  unfold isSafeUrl, isSafeUrl_spec.
  rewrite bool_decide_eq_false_2 by done.
  rewrite removeAll_trim.
  change (toLowerCase (removeAll isControlOrSpace (u :: s)))
    with (normalizeUrl (u :: s)).
  generalize (normalizeUrl (u :: s)). intros v.
  cbn [existsb List.map].
  destruct (startsWith v (lit "javascript:")); [done|].
  destruct (startsWith v (lit "vbscript:")); [done|].
  destruct (startsWith v (lit "data:")); [done|].
  destruct (startsWith v (lit "file:")); [done|].
  cbn [orb].
  destruct (startsWith v (lit "//")); [done|].
  rewrite indexOf_firstColon.
  destruct (firstColon v) as [[|k]|]; [done| |done].
  replace (0 <? Z.of_nat (S k))%Z with true by (symmetry; apply Z.ltb_lt; lia).
  unfold slice0. rewrite Nat2Z.id.
  generalize (take (S k) v). intros scheme.
  unfold jseq.
  destruct (decide (scheme = lit "http")) as [->|H1]; [done|].
  destruct (decide (scheme = lit "https")) as [->|H2]; [done|].
  rewrite !bool_decide_eq_false_2; [done| |done|done].
  intros Hin. apply elem_of_cons in Hin as [?|Hin]; [done|].
  apply elem_of_cons in Hin as [?|Hin]; [done|]. by apply elem_of_nil in Hin.
Qed.

(** X3. [isSafeUrl] accepts a value exactly when it is empty or its
    compact form (control characters and white space deleted,
    lower-cased) starts with [//], has no [:], has its first [:] at
    position 0, or starts with [http:] or [https:].  The four schemes
    tested by name are rejected by the scheme test as well. *)
Theorem isSafeUrl_accepts_exactly (s : jsstring) :
  isSafeUrl (Some s) = true <->
  s = []
  \/ startsWith (normalizeUrl s) (lit "//") = true
  \/ firstColon (normalizeUrl s) = None
  \/ firstColon (normalizeUrl s) = Some 0
  \/ startsWith (normalizeUrl s) (lit "http:") = true
  \/ startsWith (normalizeUrl s) (lit "https:") = true.
Proof.
  rewrite isSafeUrl_rules. unfold isSafeUrl_spec.
  destruct (decide (s = [])) as [->|Hs]; [split; auto|].
  rewrite bool_decide_eq_false_2 by done.
  generalize (normalizeUrl s). intros v. cbv zeta.
  assert (Hdeny : forall p, In p (List.map lit
                    ["javascript:"; "vbscript:"; "data:"; "file:"]%string) ->
            startsWith v p = true ->
            startsWith v (lit "//") = false
            /\ (exists k, firstColon v = Some (S k))
            /\ startsWith v (lit "http:") = false
            /\ startsWith v (lit "https:") = false).
  { intros p Hp [r ->]%startsWith_app.
    cbn in Hp. destruct Hp as [<-|[<-|[<-|[<-|[]]]]]; vm_compute; eauto. }
  destruct (existsb (startsWith v) _) eqn:Ed.
  - apply existsb_exists in Ed as (p & Hp & Hsw).
    destruct (Hdeny p Hp Hsw) as (H1 & (k & H2) & H3 & H4).
    split; [done|]. rewrite H1, H2, H3, H4.
    intros [?|[?|[?|[?|[?|?]]]]]; done.
  - destruct (startsWith v (lit "//")) eqn:Es; [split; auto|].
    destruct (firstColon v) as [[|k]|] eqn:Ec; [split; auto| |split; auto].
    pose proof (firstColon_split v _ Ec) as Hv.
    split.
    + intros Hin. apply bool_decide_eq_true in Hin.
      apply elem_of_cons in Hin as [Hin|Hin].
      * do 4 right. left. rewrite Hv, Hin.
        generalize (drop (S (S k)) v). intros r. by destruct r.
      * apply list_elem_of_singleton in Hin.
        do 5 right. rewrite Hv, Hin.
        generalize (drop (S (S k)) v). intros r. by destruct r.
    + intros [?|[?|[?|[?|[Hh|Hh]]]]]; try done;
        apply startsWith_app in Hh as [r ->];
        vm_compute in Ec; injection Ec as <-; vm_compute; reflexivity.
Qed.

(** ** Attribute filter *)

Lemma tagAllowlist_cases (tag : jsstring) :
  (tag = lit "a" /\ tagAllowlist tag = List.map lit ["href"; "target"; "rel"]%string)
  \/ (tag = lit "img"
      /\ tagAllowlist tag = List.map lit ["src"; "alt"; "width"; "height"]%string)
  \/ (tag <> lit "a" /\ tag <> lit "img" /\ tagAllowlist tag = []).
Proof.
  destruct (decide (tag = lit "a")) as [->|Ha]; [left; by split|].
  destruct (decide (tag = lit "img")) as [->|Hi]; [right; left; by split|].
  right. right. split_and!; [done|done|].
  unfold tagAllowlist, TAG_ATTRS. cbn [assoc].
  apply jseq_false in Ha, Hi. rewrite Ha, Hi.
  repeat match goal with
         | |- context [jseq tag ?k] => destruct (jseq tag k)
         end; done.
Qed.

(** X5. The two URL-bearing names pass the name check on one tag each:
    [href] is allowed on [a] and on no other tag, [src] on [img] and on
    no other tag. *)
Theorem url_attributes_one_tag_each (tag : jsstring) :
  (isAllowedAttr tag (lit "href") = Return true <-> tag = lit "a")
  /\ (isAllowedAttr tag (lit "src") = Return true <-> tag = lit "img").
Proof.
  assert (Hgen : forall name,
            name = lit "href" \/ name = lit "src" ->
            isAllowedAttr tag name = Return true <->
            has OBJECT_PROTOTYPE_KEYS tag = false
            /\ has (tagAllowlist tag) name = true
            \/ assoc tag TAG_ATTRS <> None /\ has (tagAllowlist tag) name = true).
  { intros name Hname. unfold isAllowedAttr, getTagAttrs, tagAllowlist. cbv zeta.
    replace (toLowerCase name) with name by (by destruct Hname as [->| ->]).
    replace (startsWith name (lit "on")) with false by (by destruct Hname as [->| ->]).
    replace (jseq name (lit "style")) with false by (by destruct Hname as [->| ->]).
    replace (has GLOBAL_ATTRS name) with false by (by destruct Hname as [->| ->]).
    destruct (assoc tag TAG_ATTRS) as [names|]; cbn [from_option id].
    - split; [intros [= ->]; right; by split|].
      intros [[_ ->]|[_ ->]]; done.
    - destruct (has OBJECT_PROTOTYPE_KEYS tag).
      + split; [done|]. intros [[? _]|[? _]]; done.
      + split; [done|]. intros [[_ ?]|[? _]]; done. }
  split.
  - rewrite (Hgen (lit "href")) by auto.
    destruct (tagAllowlist_cases tag) as [[-> ->]|[[-> ->]|(Ha & Hi & H)]].
    + split; [done|]. intros _. left. by split.
    + split; [|done]. intros [[_ ?]|[_ ?]]; done.
    + rewrite H. split; [|done]. intros [[_ ?]|[_ ?]]; done.
  - rewrite (Hgen (lit "src")) by auto.
    destruct (tagAllowlist_cases tag) as [[-> ->]|[[-> ->]|(Ha & Hi & H)]].
    + split; [|done]. intros [[_ ?]|[_ ?]]; done.
    + split; [done|]. intros _. left. by split.
    + rewrite H. split; [|done]. intros [[_ ?]|[_ ?]]; done.
Qed.

(** X6. With attribute names unique and in lower case, as section 3
    has them, on a tag that is no inherited property name the attribute
    loop returns the entries that pass the name check and, for [href]
    and [src], the URL check, in their original order; such an entry is
    still found under its name, with its value, afterwards. *)
Theorem allowed_attributes_survive (tag : jsstring) (attrs : list attr)
    (Htag : has OBJECT_PROTOTYPE_KEYS tag = false)
    (Hnd : NoDup attrs.*1)
    (Hlow : forallb lowerCaseName attrs = true) :
  sanitizeAttributes tag attrs = Return (List.filter (keepAttr tag) attrs)
  /\ forall name value,
       (name, value) ∈ attrs ->
       keepAttr tag (name, value) = true ->
       getAttribute (List.filter (keepAttr tag) attrs) name = Some value.
Proof.
  split.
  { rewrite sanitizeAttributes_eq by done. by rewrite sanitizedAttributes_filter. }
  intros name value Hin Hkeep.
  rewrite getAttribute_held.
  - apply assoc_NoDup.
    + by apply filter_NoDup_names.
    + apply list_elem_of_In, filter_In. split; [by apply list_elem_of_In|done].
  - rewrite forallb_forall in Hlow.
    by apply (lowerCaseName_true (name, value)), Hlow, list_elem_of_In.
Qed.

(** X7. On a tag of [SAFE_ELEMENTS] the attribute loop never throws,
    whatever the attribute list is, and what it returns is a sublist of
    that list: no entry is added, changed or moved. *)
Theorem attribute_loop_returns (tag : jsstring) (attrs : list attr)
    (Hsafe : has SAFE_ELEMENTS tag = true) :
  exists out, sanitizeAttributes tag attrs = Return out /\ sublist out attrs.
Proof.
  destruct (forEach_sanitizeAttr_total tag attrs attrs) as (out & Hout).
  - by apply safe_tag_not_inherited.
  - exists out. split; [done|]. by apply (forEach_sanitizeAttr_sublist tag attrs).
Qed.

(** ** Link hardener *)

(** X8. The link hardener is idempotent: applied to its own output it
    changes nothing.  This rests on the three facts about the engine's
    lower-casing stated with [toLowerCase]. *)
Theorem link_hardener_idempotent (tagName : jsstring) (attrs : list attr) :
  ensureSafeLinkAttrs tagName (ensureSafeLinkAttrs tagName attrs)
  = ensureSafeLinkAttrs tagName attrs.
Proof using toLowerCase_idem toLowerCase_cut toLowerCase_join.
  apply ensureSafeLinkAttrs_idem.
Qed.

Lemma setAttribute_absent (attrs : list attr) (k v : jsstring) :
  asciiLowerCase k = k ->
  getAttribute attrs k = None -> setAttribute attrs k v = attrs ++ [(k, v)].
Proof.
  intros Hk. rewrite (getAttribute_held _ _ Hk), (setAttribute_held _ _ _ Hk).
  apply setNamed_absent.
Qed.

Lemma setAttribute_present (attrs : list attr) (k v : jsstring) :
  asciiLowerCase k = k ->
  getAttribute attrs k <> None ->
  (setAttribute attrs k v).*1 = attrs.*1
  /\ length (setAttribute attrs k v) = length attrs.
Proof.
  intros Hk. rewrite (getAttribute_held _ _ Hk), (setAttribute_held _ _ _ Hk).
  intros H.
  assert (Hin : k ∈ attrs.*1).
  { destruct (decide (k ∈ attrs.*1)) as [Hin|Hin]; [done|].
    by apply assoc_None in Hin. }
  split.
  - by apply setNamed_names_old.
  - transitivity (length (setNamed attrs k v).*1);
      [symmetry; apply length_fmap|].
    rewrite setNamed_names_old by done. apply length_fmap.
Qed.

(** X9. Where the hardener writes [rel]: on an anchor whose [target] is
    [_blank], an element without [rel] gets [rel="noopener noreferrer"]
    as its last attribute, the others as they were before it; an
    element with [rel] keeps the names and the order of its attributes. *)
Theorem link_hardener_places_rel (tagName : jsstring) (attrs : list attr)
    (Hanchor : toLowerCase tagName = lit "a")
    (Hblank : getAttribute attrs (lit "target") = Some (lit "_blank")) :
  (getAttribute attrs (lit "rel") = None ->
   ensureSafeLinkAttrs tagName attrs
   = attrs ++ [(lit "rel", lit "noopener noreferrer")])
  /\ (getAttribute attrs (lit "rel") <> None ->
      (ensureSafeLinkAttrs tagName attrs).*1 = attrs.*1
      /\ length (ensureSafeLinkAttrs tagName attrs) = length attrs).
Proof.
  rewrite ensureSafeLinkAttrs_eq, Hanchor, Hblank, !jseq_refl. cbn [andb].
  split.
  - intros Hrel. rewrite Hrel. by apply setAttribute_absent.
  - by apply setAttribute_present.
Qed.

(** X17. Only eleven attribute names can pass the name check, on any
    tag: if [isAllowedAttr] returns [true], the lower-cased name is one
    of [class], [id], [title], [role], [href], [target], [rel], [src],
    [alt], [width], [height].  Every other name ([data-*], [aria-*],
    [name], ...) is removed from every kept element. *)
Theorem allowed_names_closed_world (tag name : jsstring)
    (Hallowed : isAllowedAttr tag name = Return true) :
  toLowerCase name ∈ List.map lit
    ["class"; "id"; "title"; "role"; "href"; "target"; "rel";
     "src"; "alt"; "width"; "height"]%string.
Proof.
  revert Hallowed. unfold isAllowedAttr, getTagAttrs. cbv zeta.
  generalize (toLowerCase name). intros n.
  destruct (startsWith n (lit "on")); [done|].
  destruct (jseq n (lit "style")); [done|].
  destruct (has GLOBAL_ATTRS n) eqn:Eg.
  { intros _. apply has_true in Eg.
    change (List.map lit _) with (GLOBAL_ATTRS ++ List.map lit
      ["href"; "target"; "rel"; "src"; "alt"; "width"; "height"]%string).
    apply elem_of_app. by left. }
  pose proof (tagAllowlist_cases tag) as Hcases. unfold tagAllowlist in Hcases.
  destruct (assoc tag TAG_ATTRS) as [names|]; cbn [from_option id] in Hcases.
  - intros [= Hn]. apply has_true in Hn.
    destruct Hcases as [[_ ->]|[[_ ->]|(_ & _ & ->)]].
    + change (List.map lit _) with (GLOBAL_ATTRS
        ++ List.map lit ["href"; "target"; "rel"]%string
        ++ List.map lit ["src"; "alt"; "width"; "height"]%string).
      apply elem_of_app. right. apply elem_of_app. by left.
    + change (List.map lit _) with (GLOBAL_ATTRS
        ++ List.map lit ["href"; "target"; "rel"]%string
        ++ List.map lit ["src"; "alt"; "width"; "height"]%string).
      apply elem_of_app. right. apply elem_of_app. by right.
    + by apply elem_of_nil in Hn.
  - destruct (has OBJECT_PROTOTYPE_KEYS tag); [done|].
    intros [=].
Qed.

Lemma link_hardener_rel_value (tagName : jsstring) (attrs : list attr) :
  toLowerCase tagName = lit "a" ->
  getAttribute attrs (lit "target") = Some (lit "_blank") ->
  exists r,
    getAttribute (ensureSafeLinkAttrs tagName attrs) (lit "rel")
    = Some (hardenedRel_spec (toLowerCase r)).
Proof.
  intros Ha Hb. rewrite ensureSafeLinkAttrs_eq, Ha, Hb, !jseq_refl. cbn [andb].
  eexists. by apply getAttribute_setAttribute_eq.
Qed.

(** X18. The [rel] value that the hardener writes is in canonical form:
    it is in lower case, its tokens are pairwise different, and it is
    those tokens joined by single spaces, without a space at either
    end.  Lower case is what the engine's [toLowerCase] leaves as it
    is; the three facts stated with it are used. *)
Theorem hardened_rel_is_canonical (tagName : jsstring) (attrs : list attr)
    (Hanchor : toLowerCase tagName = lit "a")
    (Hblank : getAttribute attrs (lit "target") = Some (lit "_blank")) :
  exists v,
    getAttribute (ensureSafeLinkAttrs tagName attrs) (lit "rel") = Some v
    /\ toLowerCase v = v
    /\ NoDup (relTokens v)
    /\ join (relTokens v) = v.
Proof using toLowerCase_idem toLowerCase_cut toLowerCase_join.
  destruct (link_hardener_rel_value tagName attrs Hanchor Hblank) as [r Hv].
  exists (hardenedRel_spec (toLowerCase r)). split_and!.
  - done.
  - apply hardened_lower.
  - apply dedup_NoDup.
  - by rewrite relTokens_hardened.
Qed.

(** ** The classifier and the walker on the store *)

(** X10. An element without a parent whose tag is not in
    [SAFE_ELEMENTS]: dropping or unwrapping it leaves the store exactly
    as it is; in particular its children stay below it. *)
Theorem parentless_element_untouched (h : dom) (el : nat) (tagName : jsstring)
    (attrs : list attr) (cs : list nat)
    (Hel : h !! el = Some (Node (ElementNode tagName attrs) None cs))
    (Hsafe : has SAFE_ELEMENTS (toLowerCase tagName) = false) :
  sanitizeElement h el = Return h
  /\ unwrapElement h el = Return h.
Proof.
  assert (Hun : unwrapElement h el = Return h).
  { unfold unwrapElement. rewrite (parentOf_lookup _ _ _ Hel). simpl.
    by rewrite remove_no_parent by (by rewrite (parentOf_lookup _ _ _ Hel)). }
  split; [|done].
  destruct (has ALWAYS_DROP (toLowerCase tagName)) eqn:Hdrop.
  - rewrite (sanitizeElement_drop _ _ _ _ _ _ Hel Hdrop).
    by rewrite remove_no_parent by (by rewrite (parentOf_lookup _ _ _ Hel)).
  - by rewrite (sanitizeElement_unwrap _ _ _ _ _ _ Hel Hdrop Hsafe).
Qed.

Lemma sameKind_refl (k : nodeKind) : sameKind k k.
Proof. by destruct k. Qed.

Lemma sameKind_trans (k1 k2 k3 : nodeKind) :
  sameKind k1 k2 -> sameKind k2 k3 -> sameKind k1 k3.
Proof. destruct k1, k2, k3; simpl; try done; congruence. Qed.

Lemma sameNodes_refl (h : dom) : sameNodes h h.
Proof.
  split; [done|]. intros k nd Hk. exists nd. split; [done|apply sameKind_refl].
Qed.

Lemma sameNodes_trans (h1 h2 h3 : dom) :
  sameNodes h1 h2 -> sameNodes h2 h3 -> sameNodes h1 h3.
Proof.
  intros [Hl1 H1] [Hl2 H2]. split; [congruence|].
  intros k nd Hk. destruct (H1 k nd Hk) as (nd2 & Hk2 & Hs2).
  destruct (H2 k nd2 Hk2) as (nd3 & Hk3 & Hs3).
  exists nd3. split; [done|]. by apply (sameKind_trans _ (kind nd2)).
Qed.

Lemma update_sameNodes (f : node -> node) (n : nat) (h : dom) :
  (forall nd, sameKind (kind nd) (kind (f nd))) -> sameNodes h (update f n h).
Proof.
  intros Hf. split; [apply length_update|].
  intros k nd Hk. rewrite lookup_update, Hk. case_decide.
  - exists (f nd). split; [done|apply Hf].
  - exists nd. split; [done|apply sameKind_refl].
Qed.

Lemma setAttributes_sameKind (attrs : list attr) (nd : node) :
  sameKind (kind nd) (kind (setAttributes attrs nd)).
Proof. destruct nd as [[t a|s] p cs]; done. Qed.

Lemma remove_sameNodes (h : dom) (c : nat) : sameNodes h (remove h c).
Proof.
  unfold remove. destruct (parentOf h c); [|apply sameNodes_refl].
  eapply sameNodes_trans; apply update_sameNodes; intros nd; apply sameKind_refl.
Qed.

Lemma insertBefore_sameNodes (h h' : dom) (parent child ref : nat) :
  insertBefore h parent child ref = Return h' -> sameNodes h h'.
Proof.
  unfold insertBefore. destruct (negb _); [done|].
  destruct (insertAt _ _ _); [|done]. intros [= <-].
  eapply sameNodes_trans; [apply remove_sameNodes|].
  eapply sameNodes_trans; apply update_sameNodes; intros nd; apply sameKind_refl.
Qed.

Lemma unwrapLoop_sameNodes (fuel : nat) (h h' : dom) (parent el : nat) :
  unwrapLoop fuel h parent el = Return h' -> sameNodes h h'.
Proof.
  revert h. induction fuel as [|fuel IH]; intros h; simpl;
    destruct (firstChild h el); try done;
    try (intros [= <-]; apply sameNodes_refl).
  destruct (insertBefore h parent n el) as [h1| |] eqn:E; simpl; try done.
  intros H. eapply sameNodes_trans; [by eapply insertBefore_sameNodes|by apply IH].
Qed.

Lemma sanitizeElement_sameNodes (h h' : dom) (el : nat) :
  sanitizeElement h el = Return h' -> sameNodes h h'.
Proof.
  unfold sanitizeElement.
  destruct (h !! el) as [[[tagName attrs|] ? ?]|]; try done. cbv zeta.
  destruct (has ALWAYS_DROP _); [intros [= <-]; apply remove_sameNodes|].
  destruct (negb _).
  - unfold unwrapElement. destruct (parentOf h el).
    + destruct (unwrapLoop _ _ _ _) as [h1| |] eqn:E; simpl; try done.
      intros [= <-]. eapply sameNodes_trans; [by eapply unwrapLoop_sameNodes|].
      apply remove_sameNodes.
    + intros [= <-]. apply remove_sameNodes.
  - destruct (sanitizeAttributes _ _); simpl; try done.
    intros [= <-]. apply update_sameNodes. intros nd. apply setAttributes_sameKind.
Qed.

Lemma forEach_sameNodes (xs : list nat) (h h' : dom) :
  forEach sanitizeElement xs h = Return h' -> sameNodes h h'.
Proof.
  revert h. induction xs as [|x xs IH]; intros h; simpl.
  - intros [= <-]. apply sameNodes_refl.
  - destruct (sanitizeElement h x) as [h1| |] eqn:E; simpl; try done.
    intros H. eapply sameNodes_trans; [by eapply sanitizeElement_sameNodes|].
    by apply IH.
Qed.

(** X11. Whatever store the walk runs on, if it returns then the store
    has as many nodes as before, every text node still has its text, and
    every element still has its tag name: the walk creates no node and
    rewrites neither text nor tag names. *)
Theorem walk_keeps_text_and_tags (h h' : dom) (root : nat)
    (Hwalk : walkAndSanitize h root = Return h') :
  length h' = length h
  /\ (forall k s p cs,
        h !! k = Some (Node (TextNode s) p cs) ->
        exists p' cs', h' !! k = Some (Node (TextNode s) p' cs'))
  /\ (forall k tagName attrs p cs,
        h !! k = Some (Node (ElementNode tagName attrs) p cs) ->
        exists attrs' p' cs',
          h' !! k = Some (Node (ElementNode tagName attrs') p' cs')).
Proof.
  assert (Hsame : sameNodes h h')
    by (by apply (forEach_sameNodes (querySelectorAll h root))).
  destruct Hsame as [Hlen Hnodes]. split_and!; [done| |].
  - intros k s p cs Hk. destruct (Hnodes k _ Hk) as ([[t a|s'] p' cs'] & Hk' & Hs);
      simpl in Hs; [done|]. subst s'. eauto.
  - intros k t a p cs Hk. destruct (Hnodes k _ Hk) as ([[t' a'|s'] p' cs'] & Hk' & Hs);
      simpl in Hs; [|done]. subst t'. eauto.
Qed.

(** X12. The walk keeps a document well formed, and it leaves the root
    itself alone: the root keeps its tag name, its attributes and its
    parent, whatever they are; its child list alone changes. *)
Theorem walk_keeps_document_wellFormed (d : document) (Hwf : wellFormed d) :
  exists h',
    walkAndSanitize (nodes d) (body d) = Return h'
    /\ wellFormed (Document h' (body d))
    /\ forall tagName attrs p cs,
         nodes d !! body d = Some (Node (ElementNode tagName attrs) p cs) ->
         h' !! body d
         = Some (Node (ElementNode tagName attrs) p (children h' (body d))).
Proof.
  destruct Hwf as (p & tag & attrs & kids & Hrep & Hnd).
  destruct (walk_refines _ _ _ _ _ _ Hrep Hnd)
    as (h' & Hwalk & _ & Hrep' & Hnd' & _ & _).
  exists h'. split_and!; [done| |].
  - by exists p, tag, attrs, (List.flat_map clean kids).
  - intros tagName attrs' p' cs Hroot.
    apply rep_TElem in Hrep as (Hroot0 & _). rewrite Hroot in Hroot0.
    injection Hroot0 as -> -> -> _.
    apply rep_TElem in Hrep' as (Hroot' & _).
    by rewrite (children_lookup _ _ _ Hroot'), Hroot'.
Qed.

(** X13. The walk never reorders: the nodes below the root afterwards
    are, in document order, a sublist of the nodes below the root
    before. *)
Theorem walk_keeps_document_order (d : document) (Hwf : wellFormed d) :
  exists h',
    walkAndSanitize (nodes d) (body d) = Return h'
    /\ sublist (descendants (length h') h' (body d))
               (descendants (length (nodes d)) (nodes d) (body d)).
Proof.
  destruct Hwf as (p & tag & attrs & kids & Hrep & Hnd).
  destruct (walk_refines _ _ _ _ _ _ Hrep Hnd)
    as (h' & Hwalk & _ & Hrep' & Hnd' & _ & _).
  exists h'. split; [done|].
  rewrite (descendants_of_root _ _ _ _ _ _ Hrep' Hnd'),
          (descendants_of_root _ _ _ _ _ _ Hrep Hnd).
  apply clean_ids_sublist_forest.
Qed.

Lemma texts_cleanHtml (t : html) :
  List.flat_map texts (cleanHtml t) = keptTexts t.
Proof.
  induction t as [s|tagName attrs kids IH] using html_ind'; [done|].
  assert (Hkids : List.flat_map texts (List.flat_map cleanHtml kids)
                  = List.flat_map keptTexts kids).
  { induction IH as [|t kids Ht _ IHk]; simpl; [done|].
    by rewrite List.flat_map_app, Ht, IHk. }
  cbn [cleanHtml keptTexts].
  destruct (has ALWAYS_DROP (toLowerCase tagName)); [done|].
  destruct (negb (has SAFE_ELEMENTS (toLowerCase tagName))); [done|].
  cbn [List.flat_map texts]. by rewrite app_nil_r.
Qed.

(** X14. The walk loses no text but what is below an [ALWAYS_DROP]
    element, and adds or reorders none: the text of the markup left
    below the root is, in order, the text of the input that is not below
    such an element. *)
Theorem walk_keeps_text_outside_drops (d : document) (Hwf : wellFormed d) :
  exists h',
    walkAndSanitize (nodes d) (body d) = Return h'
    /\ List.flat_map texts (contents h' (body d))
       = List.flat_map keptTexts (contents (nodes d) (body d)).
Proof.
  destruct Hwf as (p & tag & attrs & kids & Hrep & Hnd).
  destruct (walk_refines _ _ _ _ _ _ Hrep Hnd)
    as (h' & Hwalk & _ & _ & _ & _ & Hcontents).
  exists h'. split; [done|]. rewrite Hcontents.
  generalize (contents (nodes d) (body d)). intros ts.
  induction ts as [|t ts IH]; simpl; [done|].
  by rewrite List.flat_map_app, texts_cleanHtml, IH.
Qed.

(** X15. Markup the policy has nothing to object to comes back as it
    is: when every element below the root has a safe tag, only
    attributes that pass both checks, and (on an anchor whose [target]
    is [_blank]) a [rel] the hardener does not change, the markup below
    the root is the same after the walk. *)
Theorem walk_leaves_clean_markup_alone (d : document) (Hwf : wellFormed d)
    (Hclean : forallb isClean (contents (nodes d) (body d)) = true) :
  exists h',
    walkAndSanitize (nodes d) (body d) = Return h'
    /\ contents h' (body d) = contents (nodes d) (body d).
Proof.
  destruct Hwf as (p & tag & attrs & kids & Hrep & Hnd).
  destruct (walk_refines _ _ _ _ _ _ Hrep Hnd)
    as (h' & Hwalk & _ & _ & _ & _ & Hcontents).
  exists h'. split; [done|]. rewrite Hcontents.
  revert Hclean. generalize (contents (nodes d) (body d)). intros ts.
  induction ts as [|t ts IH]; simpl; [done|].
  intros [Ht Hts]%andb_true_iff.
  rewrite (cleanHtml_isClean t Ht), IH by done. done.
Qed.

(** X16. The drop rule on an element that is a child of [pa] between
    the siblings [l1] and [l2]: the classifier returns; [pa] then has
    [l1] followed by [l2], in their order; the dropped element keeps its
    whole subtree but has no parent; no node outside the tree of [pa]
    is touched. *)
Theorem drop_unlinks_subtree (h : dom) (pp : option nat) (pa el : nat)
    (tg tagName : jsstring) (at' attrs : list attr) (l1 l2 kids : list tree)
    (Hrep : rep h pp (TElem pa tg at' (l1 ++ TElem el tagName attrs kids :: l2)))
    (Hnd : NoDup (ids (TElem pa tg at' (l1 ++ TElem el tagName attrs kids :: l2))))
    (Hdrop : has ALWAYS_DROP (toLowerCase tagName) = true) :
  exists h',
    sanitizeElement h el = Return h'
    /\ rep h' pp (TElem pa tg at' (l1 ++ l2))
    /\ rep h' None (TElem el tagName attrs kids)
    /\ (forall k, k ∉ ids (TElem pa tg at' (l1 ++ TElem el tagName attrs kids :: l2)) ->
        h' !! k = h !! k).
Proof.
  destruct (sanitizeElement_child h pp pa el tg tagName at' attrs l1 l2 kids
              Hrep Hnd) as (h' & Hstep & _ & Hframe & Hd & _).
  destruct (Hd Hdrop) as [Hpa Hel].
  exists h'. split_and!; done.
Qed.

End Sanitizer.

(* ===================================================================== *)
(** * The properties at concrete inputs *)
(* ===================================================================== *)

(** ** Lower case of the Latin-1 range *)

(** [latinLowerCase] has what the section takes for granted of the
    engine: it is the lower-casing that the examples below run with. *)

Lemma lowerUnit_cases (u : N) :
  ((0x41 <= u <= 0x5A /\ lowerUnit u = [u + 0x20])
   \/ (0xC0 <= u <= 0xDE /\ u <> 0xD7 /\ lowerUnit u = [u + 0x20])
   \/ (u = 0x130 /\ lowerUnit u = [0x69; 0x307])
   \/ (u = 0x178 /\ lowerUnit u = [0xFF])
   \/ (u = 0x1E9E /\ lowerUnit u = [0xDF])
   \/ (u = 0x212A /\ lowerUnit u = [0x6B])
   \/ (u = 0x212B /\ lowerUnit u = [0xE5])
   \/ lowerUnit u = [u])%N.
Proof.
  unfold lowerUnit.
  destruct (N.leb_spec 0x41 u), (N.leb_spec u 0x5A); simpl; auto;
  destruct (N.leb_spec 0xC0 u), (N.leb_spec u 0xDE), (N.eqb_spec u 0xD7);
    simpl; auto 10; try lia;
  destruct (N.eqb_spec u 0x130); auto 10;
  destruct (N.eqb_spec u 0x178); auto 10;
  destruct (N.eqb_spec u 0x1E9E); auto 10;
  destruct (N.eqb_spec u 0x212A); auto 10;
  destruct (N.eqb_spec u 0x212B); auto 10.
Qed.

Lemma lowerCased_range (v : N) :
  (0x61 <= v <= 0x7A \/ (0xDF <= v <= 0xFF /\ v <> 0xF7) \/ v = 0x307)%N ->
  lowerCased v.
Proof.
  intros H. unfold lowerCased.
  destruct (lowerUnit_cases v) as [?|[?|[?|[?|[?|[?|[?|?]]]]]]]; try done; lia.
Qed.

(** What [lowerUnit] yields is in lower case already. *)
Lemma lowerUnit_fixed (u v : N) : In v (lowerUnit u) -> lowerCased v.
Proof.
  destruct (lowerUnit_cases u)
    as [[? ->]|[(? & ? & ->)|[[? ->]|[[? ->]|[[? ->]|[[? ->]|[[? ->]|H]]]]]]];
    simpl; intros Hv.
  - destruct Hv as [<-|[]]. apply lowerCased_range. lia.
  - destruct Hv as [<-|[]]. apply lowerCased_range. lia.
  - destruct Hv as [<-|[<-|[]]]; apply lowerCased_range; lia.
  - destruct Hv as [<-|[]]. apply lowerCased_range. lia.
  - destruct Hv as [<-|[]]. apply lowerCased_range. lia.
  - destruct Hv as [<-|[]]. apply lowerCased_range. lia.
  - destruct Hv as [<-|[]]. apply lowerCased_range. lia.
  - rewrite H in Hv. destruct Hv as [<-|[]]. exact H.
Qed.

Lemma latinLowerCase_fixed (s : jsstring) :
  (forall v, In v s -> lowerCased v) <-> latinLowerCase s = s.
Proof.
  unfold latinLowerCase. induction s as [|u s IH]; simpl; [done|]. split.
  - intros H. rewrite (H u) by auto. simpl. f_equal. apply IH. auto.
  - intros H v Hv.
    assert (Hu : lowerUnit u = [u] /\ List.flat_map lowerUnit s = s).
    { destruct (lowerUnit_cases u)
        as [[? Hl]|[(? & ? & Hl)|[[? Hl]|[[? Hl]|[[? Hl]|[[? Hl]|[[? Hl]|Hl]]]]]]];
        rewrite Hl in H |- *; simplify_eq/=; try lia; done. }
    destruct Hu as [Hu Hs]. destruct Hv as [<-|Hv]; [exact Hu|].
    by apply IH.
Qed.

Lemma latinLowerCase_units_fixed (s : jsstring) (v : N) :
  In v (latinLowerCase s) -> lowerCased v.
Proof.
  unfold latinLowerCase. rewrite in_flat_map. intros (u & _ & Hv).
  by apply (lowerUnit_fixed u).
Qed.

(** On a string of ASCII units the table is ASCII lower case. *)
Lemma lowerUnit_ascii (u : N) :
  isAsciiUnit u = true -> lowerUnit u = [asciiLowerUnit u].
Proof.
  unfold isAsciiUnit, asciiLowerUnit. intros Hu%N.ltb_lt.
  destruct (lowerUnit_cases u)
    as [[? ->]|[(? & ? & ->)|[[? ->]|[[? ->]|[[? ->]|[[? ->]|[[? ->]|H]]]]]]];
    try lia.
  - by destruct (N.leb_spec 0x41 u), (N.leb_spec u 0x5A); try lia.
  - rewrite H. f_equal.
    destruct (N.leb_spec 0x41 u), (N.leb_spec u 0x5A); simpl; try done.
    exfalso. unfold lowerUnit in H.
    destruct (N.leb_spec 0x41 u), (N.leb_spec u 0x5A); simpl in H; try lia.
    injection H as H. lia.
Qed.

Lemma toLowerCase_latin (s : jsstring) :
  toLowerCase latinLowerCase s = latinLowerCase s.
Proof.
  unfold toLowerCase. destruct (forallb isAsciiUnit s) eqn:E; [|done].
  unfold asciiLowerCase, latinLowerCase.
  induction s as [|u s IH]; [done|].
  cbn [forallb] in E. apply andb_true_iff in E as [Hu Hs].
  cbn [List.map List.flat_map]. by rewrite (lowerUnit_ascii u Hu), IH.
Qed.

Lemma latinLowerCase_idem (s : jsstring) :
  toLowerCase latinLowerCase (toLowerCase latinLowerCase s)
  = toLowerCase latinLowerCase s.
Proof.
  rewrite !toLowerCase_latin. apply latinLowerCase_fixed.
  apply latinLowerCase_units_fixed.
Qed.

Lemma latinLowerCase_cut (x : jsstring) (w : N) (y : jsstring) :
  isWhiteSpace w = true ->
  toLowerCase latinLowerCase (x ++ w :: y) = x ++ w :: y ->
  toLowerCase latinLowerCase x = x /\ toLowerCase latinLowerCase y = y.
Proof.
  intros _. rewrite !toLowerCase_latin. intros H.
  pose proof (proj2 (latinLowerCase_fixed _) H) as Hu.
  split; apply latinLowerCase_fixed; intros v Hv; apply Hu, in_app_iff; auto.
  right. by right.
Qed.

Lemma latinLowerCase_join (x y : jsstring) :
  toLowerCase latinLowerCase x = x ->
  toLowerCase latinLowerCase y = y ->
  toLowerCase latinLowerCase (x ++ 32%N :: y) = x ++ 32%N :: y.
Proof.
  rewrite !toLowerCase_latin. intros Hx Hy. apply latinLowerCase_fixed.
  intros v [Hv|[<-|Hv]]%in_app_iff.
  - by apply (proj2 (latinLowerCase_fixed x) Hx).
  - reflexivity.
  - by apply (proj2 (latinLowerCase_fixed y) Hy).
Qed.

(** ** The claims at concrete inputs *)

Lemma wellFormed_scriptInParagraph : wellFormed (load scriptInParagraph).
Proof.
  exists None, (lit "BODY"), [], (bodyKids scriptInParagraph).
  split; [prove_rep|prove_NoDup].
Defined.

Lemma wellFormed_imageWithHandler : wellFormed (load imageWithHandler).
Proof.
  exists None, (lit "BODY"), [], (bodyKids imageWithHandler).
  split; [prove_rep|prove_NoDup].
Defined.

Lemma wellFormed_splitParagraph : wellFormed (load splitParagraph).
Proof.
  exists None, (lit "BODY"), [], (bodyKids splitParagraph).
  split; [prove_rep|prove_NoDup].
Defined.

Lemma wellFormed_linkMarkup : wellFormed (load linkMarkup).
Proof.
  exists None, (lit "BODY"), [], (bodyKids linkMarkup).
  split; [prove_rep|prove_NoDup].
Defined.

Lemma wellFormed_linkMarkupAgain : wellFormed (load linkMarkupAgain).
Proof.
  exists None, (lit "BODY"), [], (bodyKids linkMarkupAgain).
  split; [prove_rep|prove_NoDup].
Defined.

Lemma walk_leaves_safe_markup_witness :
  wellFormed (load imageWithHandler)
  /\ lowerCaseNames (nodes (load imageWithHandler)) = true
  /\ exists h',
       walkAndSanitize latinLowerCase (nodes (load imageWithHandler))
                       (body (load imageWithHandler)) = Return h'
       /\ forall el, el ∈ querySelectorAll h' (body (load imageWithHandler)) ->
            exists tagName attrs p cs,
              h' !! el = Some (Node (ElementNode tagName attrs) p cs)
              /\ has SAFE_ELEMENTS (toLowerCase latinLowerCase tagName) = true
              /\ forall name value, (name, value) ∈ attrs ->
                   isAllowedAttr latinLowerCase
                     (toLowerCase latinLowerCase tagName)
                     (toLowerCase latinLowerCase name) = Return true
                   /\ (toLowerCase latinLowerCase name = lit "href"
                       \/ toLowerCase latinLowerCase name = lit "src" ->
                       isSafeUrl latinLowerCase (Some value) = true).
Proof.
  refine (conj wellFormed_imageWithHandler (conj eq_refl _)).
  destruct (walk_leaves_safe_markup latinLowerCase (load imageWithHandler)
              wellFormed_imageWithHandler eq_refl) as (h' & Hwalk & Hsafe).
  exists h'. split; [exact Hwalk|]. intros el Hel.
  destruct (Hsafe el Hel) as (tagName & attrs & p & cs & Hnode & Htag & Hattrs).
  exists tagName, attrs, p, cs. refine (conj Hnode (conj Htag _)).
  intros name value Hin.
  destruct (Hattrs name value Hin) as (Hname & _ & _ & _ & Hurl).
  exact (conj Hname Hurl).
Defined.

Lemma dropped_subtree_vanishes_witness :
  wellFormed (load scriptInParagraph)
  /\ exists h',
       walkAndSanitize latinLowerCase (nodes (load scriptInParagraph))
                       (body (load scriptInParagraph)) = Return h'
       /\ contents h' (body (load scriptInParagraph))
          = List.flat_map (cleanHtml latinLowerCase)
              (contents (nodes (load scriptInParagraph))
                        (body (load scriptInParagraph)))
       /\ forall el tagName attrs p cs n,
            el ∈ querySelectorAll (nodes (load scriptInParagraph))
                                  (body (load scriptInParagraph)) ->
            nodes (load scriptInParagraph) !! el
            = Some (Node (ElementNode tagName attrs) p cs) ->
            has ALWAYS_DROP (toLowerCase latinLowerCase tagName) = true ->
            n = el \/ n ∈ descendants (length (nodes (load scriptInParagraph)))
                                      (nodes (load scriptInParagraph)) el ->
            n ∉ descendants (length h') h' (body (load scriptInParagraph)).
Proof.
  split; [exact wellFormed_scriptInParagraph|].
  exact (proj2 (proj2 (dropped_subtree_vanishes latinLowerCase
                         (load scriptInParagraph)
                         wellFormed_scriptInParagraph))).
Defined.

Lemma attribute_decision_witness :
  let attrs := [(lit "href", lit "javascript:alert(1)"); (lit "title", lit "t")] in
  has SAFE_ELEMENTS (lit "a") = true
  /\ isAllowedAttr latinLowerCase (lit "a") (lit "HREF") = Return true
  /\ NoDup attrs.*1
  /\ forallb lowerCaseName attrs = true
  /\ exists attrs',
       sanitizeAttributes latinLowerCase (lit "a") attrs = Return attrs'
       /\ lit "href" ∉ attrs'.*1.
Proof.
  intros attrs.
  assert (Hnd : NoDup attrs.*1) by prove_NoDup.
  destruct (attribute_decision latinLowerCase (lit "a") eq_refl)
    as [Hname Hurl].
  refine (conj eq_refl (conj _ (conj Hnd (conj eq_refl _)))).
  - rewrite Hname. reflexivity.
  - destruct (Hurl (lit "A") attrs (lit "href") (lit "javascript:alert(1)"))
      as (attrs' & Hrun & _ & Hgone & _).
    + reflexivity.
    + exact Hnd.
    + reflexivity.
    + left.
    + left. reflexivity.
    + reflexivity.
    + reflexivity.
    + exists attrs'. split; [exact Hrun|exact Hgone].
Defined.

(** The claim of C6 as worded, splitting the [rel] value as it stands,
    does not hold: the hardener lower-cases the value first, so a token
    written with capitals is not preserved as written. *)
Lemma link_hardener_lowercases_rel :
  let attrs := [(lit "target", lit "_blank"); (lit "rel", lit "NoFollow")] in
  let out := ensureSafeLinkAttrs latinLowerCase (lit "A") attrs in
  getAttribute out (lit "rel") = Some (lit "nofollow noopener noreferrer")
  /\ getAttribute out (lit "rel") <> Some (hardenedRel_spec (lit "NoFollow"))
  /\ lit "NoFollow" ∉ relTokens (lit "nofollow noopener noreferrer").
Proof.
  split_and!.
  - vm_compute. reflexivity.
  - vm_compute. discriminate.
  - intros H. apply list_elem_of_In in H. vm_compute in H.
    repeat (destruct H as [H|H]; [discriminate H|]). destruct H.
Qed.

Lemma link_hardener_witness :
  getAttribute
    (ensureSafeLinkAttrs latinLowerCase (lit "A")
       [(lit "target", lit "_blank"); (lit "rel", lit "NoFollow")])
    (lit "rel")
  = Some (hardenedRel_spec (toLowerCase latinLowerCase (lit "NoFollow")))
  /\ ensureSafeLinkAttrs latinLowerCase (lit "P") [(lit "target", lit "_blank")]
     = [(lit "target", lit "_blank")].
Proof.
  split.
  - destruct (link_hardener latinLowerCase (lit "A")
                [(lit "target", lit "_blank"); (lit "rel", lit "NoFollow")])
      as [Hanchor _].
    destruct (Hanchor eq_refl eq_refl) as (_ & Hrel & _). exact Hrel.
  - destruct (link_hardener latinLowerCase (lit "P")
                [(lit "target", lit "_blank")]) as [_ Hother].
    apply Hother. intros [Hp _]. vm_compute in Hp. discriminate Hp.
Defined.

(** The claim of C5 as worded does not hold: parsing is not the inverse
    of serializing.  The walk unwraps the [marquee] that shielded the
    [div] from the open [p]; parsed again, the [div] closes the [p]. *)
Lemma sanitize_twice_differs :
  let s := lit "<p><marquee><div>x</div></marquee></p>" in
  sanitize latinLowerCase exampleHost (Some s)
  = Return (lit "<p><div>x</div></p>")
  /\ sanitizeTwice latinLowerCase exampleHost s
     = Return (lit "<p></p><div>x</div><p></p>")
  /\ sanitizeTwice latinLowerCase exampleHost s
     <> sanitize latinLowerCase exampleHost (Some s).
Proof.
  split_and!.
  - vm_compute. reflexivity.
  - vm_compute. reflexivity.
  - vm_compute. discriminate.
Qed.

(** C5 on a link that the hardener writes to, followed by an element
    that the walk unwraps: parsed again, the two pieces of text that the
    walk left side by side are one, and [sanitize] is idempotent all the
    same. *)
Lemma sanitize_idempotent_on_roundtrip_witness :
  wellFormed (parseLink linkSource)
  /\ lowerCaseNames (nodes (parseLink linkSource)) = true
  /\ sanitize latinLowerCase linkHost (Some linkSource) = Return linkOutput
  /\ linkOutput <> linkSource
  /\ (exists h',
        walkAndSanitize latinLowerCase (nodes (parseLink linkSource))
                        (body (parseLink linkSource)) = Return h'
        /\ contents (nodes (parseLink linkOutput)) (body (parseLink linkOutput))
           <> contents h' (body (parseLink linkSource)))
  /\ sanitize latinLowerCase linkHost (Some linkOutput) = Return linkOutput
  /\ sanitizeTwice latinLowerCase linkHost linkSource
     = sanitize latinLowerCase linkHost (Some linkSource).
Proof.
  assert (Hwf : wellFormed (parseLink linkSource))
    by exact wellFormed_linkMarkup.
  destruct (sanitize_idempotent_on_roundtrip latinLowerCase
              latinLowerCase_idem latinLowerCase_cut latinLowerCase_join
              (parseLink linkSource) Hwf eq_refl)
    as (h' & Hwalk & _ & Hstrings).
  destruct (Hstrings linkHost parseLink linkSource eq_refl eq_refl)
    as [Hout Htwice].
  assert (Hh' : Return h'
                = walkAndSanitize latinLowerCase (nodes (parseLink linkSource))
                    (body (parseLink linkSource)))
    by (symmetry; exact Hwalk).
  vm_compute in Hh'. injection Hh' as ->.
  refine (conj Hwf (conj eq_refl (conj Hout (conj _ (conj _ _))))).
  - vm_compute. discriminate.
  - eexists. split; [exact Hwalk|]. vm_compute. discriminate.
  - apply Htwice.
    + exact wellFormed_linkMarkupAgain.
    + intros e He. vm_compute in He.
      apply elem_of_cons in He as [->|He];
        [|destruct (proj1 (elem_of_nil _) He)].
      vm_compute. left.
    + vm_compute. reflexivity.
Defined.

Lemma unwrap_splices_children_witness :
  let h := nodes (load customElement) in
  let kids := [TText 2 (lit "hello"); TElem 3 (lit "B") [] [TText 4 (lit "world")]] in
  rep h None (TElem 0 (lit "BODY") [] [TElem 1 (lit "CUSTOM") [] kids])
  /\ has ALWAYS_DROP (toLowerCase latinLowerCase (lit "CUSTOM")) = false
  /\ has SAFE_ELEMENTS (toLowerCase latinLowerCase (lit "CUSTOM")) = false
  /\ exists h',
       sanitizeElement latinLowerCase h 1 = Return h'
       /\ rep h' None (TElem 0 (lit "BODY") [] kids)
       /\ children h' 0 = children h 1
       /\ h' !! 1 = Some (Node (ElementNode (lit "CUSTOM") []) None []).
Proof.
  intros h kids.
  assert (Hrep : rep h None (TElem 0 (lit "BODY") []
                               ([] ++ TElem 1 (lit "CUSTOM") [] kids :: [])))
    by prove_rep.
  assert (Hnd : NoDup (ids (TElem 0 (lit "BODY") []
                              ([] ++ TElem 1 (lit "CUSTOM") [] kids :: []))))
    by prove_NoDup.
  refine (conj Hrep (conj eq_refl (conj eq_refl _))).
  destruct (unwrap_splices_children latinLowerCase h None 0 1 (lit "BODY")
              (lit "CUSTOM") [] [] [] [] kids Hrep Hnd eq_refl eq_refl)
    as ((h' & Hstep & Hrep' & Hchildren & Hel & _) & _).
  exists h'. refine (conj Hstep (conj _ (conj _ Hel))).
  - exact Hrep'.
  - rewrite Hchildren. reflexivity.
Defined.

Lemma detached_entry_is_noop_witness :
  let h := remove (nodes (load scriptWithBold)) 1 in
  let D := TElem 1 (lit "SCRIPT") []
             [TElem 2 (lit "B") [] [TText 3 (lit "x")]] in
  rep h None (TElem 0 (lit "BODY") [] [])
  /\ rep h None D
  /\ 2 ∈ elemIds D
  /\ exists h',
       sanitizeElement latinLowerCase h 2 = Return h'
       /\ contents h' 0 = contents h 0.
Proof.
  intros h D.
  assert (Htree : rep h None (TElem 0 (lit "BODY") [] [])) by prove_rep.
  assert (HD : rep h None D) by prove_rep.
  assert (Hnd : NoDup (ids (TElem 0 (lit "BODY") [] []) ++ ids D)) by prove_NoDup.
  assert (Hel : 2 ∈ elemIds D) by (right; left).
  refine (conj Htree (conj HD (conj Hel _))).
  destruct (detached_entry_is_noop latinLowerCase h None 0 (lit "BODY") [] []
              D 2 Htree HD Hnd Hel) as (_ & h' & Hstep & _ & _ & Hcontents).
  exists h'. split; [exact Hstep|exact Hcontents].
Defined.

Lemma kept_attributes_keep_values_witness :
  let h := nodes (load blankLink) in
  let attrs := [(lit "href", lit "https://x.com"); (lit "target", lit "_blank")] in
  h !! 1 = Some (Node (ElementNode (lit "A") attrs) (Some 0) [2])
  /\ has SAFE_ELEMENTS (toLowerCase latinLowerCase (lit "A")) = true
  /\ exists attrs',
       sanitizeElement latinLowerCase h 1
       = Return (<[1 := Node (ElementNode (lit "A") attrs') (Some 0) [2]]> h)
       /\ forall n v, (n, v) ∈ attrs' ->
            (n, v) ∈ attrs
            \/ (n = lit "rel" /\ toLowerCase latinLowerCase (lit "A") = lit "a"
                /\ getAttribute attrs (lit "target") = Some (lit "_blank")).
Proof.
  intros h attrs.
  split_and!; [reflexivity|reflexivity|].
  destruct (kept_attributes_keep_values latinLowerCase h 1 (lit "A") attrs
              (Some 0) [2] eq_refl eq_refl) as (attrs' & Hstep & Hvalues & _).
  exists attrs'. split; [exact Hstep|exact Hvalues].
Defined.

Lemma sanitize_outcomes_witness :
  sanitize latinLowerCase exampleHost None = Return []
  /\ sanitize latinLowerCase (Host None None serializeFragment)
       (Some (lit "<p>x</p>"))
     = Throw NoDomError
  /\ exists h',
       walkAndSanitize latinLowerCase
         (nodes (parseExample (lit "<p><div>x</div></p>")))
         (body (parseExample (lit "<p><div>x</div></p>")))
       = Return h'
       /\ sanitize latinLowerCase exampleHost (Some (lit "<p><div>x</div></p>"))
          = Return (serialize exampleHost
                      (contents h' (body (parseExample (lit "<p><div>x</div></p>"))))).
Proof.
  split_and!.
  - exact (proj1 (sanitize_outcomes latinLowerCase exampleHost)).
  - apply (proj1 (proj2 (sanitize_outcomes latinLowerCase
                           (Host None None serializeFragment)))).
    split_and!; [discriminate|reflexivity|reflexivity].
  - destruct (proj2 (proj2 (sanitize_outcomes latinLowerCase exampleHost))
                (lit "<p><div>x</div></p>") parseExample eq_refl
                wellFormed_splitParagraph) as (h' & Hwalk & _ & Hsan).
    exists h'. split; [exact Hwalk|exact Hsan].
Defined.

(** ** The scenarios of the test file *)

Example isSafeUrl_hidden_scheme :
  isSafeUrl latinLowerCase (Some (lit "Java Script:alert(1)")) = false.
Proof. vm_compute. reflexivity. Qed.

Example isSafeUrl_https :
  isSafeUrl latinLowerCase (Some (lit "https://example.com")) = true.
Proof. vm_compute. reflexivity. Qed.

Example isSafeUrl_mailto :
  isSafeUrl latinLowerCase (Some (lit "mailto:x")) = false.
Proof. vm_compute. reflexivity. Qed.

Example isSafeUrl_relative :
  isSafeUrl latinLowerCase (Some (lit "/docs")) = true.
Proof. vm_compute. reflexivity. Qed.

Example scenario_script :
  render latinLowerCase scriptInParagraph = Return (lit "<p>hi</p>").
Proof. vm_compute. reflexivity. Qed.

Example scenario_custom :
  render latinLowerCase customElement = Return (lit "hello<b>world</b>").
Proof. vm_compute. reflexivity. Qed.

Example scenario_handler :
  render latinLowerCase imageWithHandler
  = Return (lit "<img src=" ++ quoted (lit "x") ++ lit ">").
Proof. vm_compute. reflexivity. Qed.

Example scenario_blank_link :
  (h <- walkAndSanitize latinLowerCase (nodes (load blankLink))
                        (body (load blankLink)) ;;
   Return (contents h (body (load blankLink))))
  = Return [Element (lit "A")
              [(lit "href", lit "https://x.com"); (lit "target", lit "_blank");
               (lit "rel", lit "noopener noreferrer")]
              [Text (lit "x")]].
Proof. vm_compute. reflexivity. Qed.

(** ** Off the data model of section 3 *)

(** An attribute that an element holds under a name with a capital
    letter is out of reach of [removeAttribute], which looks for the
    lower-case name: the loop leaves it, allowed or not. *)
Example capital_name_survives :
  sanitizeAttributes latinLowerCase (lit "p") [(lit "onClick", lit "x")]
  = Return [(lit "onClick", lit "x")].
Proof. vm_compute. reflexivity. Qed.

(** On a tag named like a property that object literals inherit, which
    the classifier never passes, the lookup in [TAG_ATTRS] finds a
    function and the call of its [has] throws. *)
Example inherited_tag_throws :
  isAllowedAttr latinLowerCase (lit "constructor") (lit "href")
  = Throw TypeError.
Proof. vm_compute. reflexivity. Qed.

(** ** The further properties at concrete inputs *)

Lemma wellFormed_customElement : wellFormed (load customElement).
Proof.
  exists None, (lit "BODY"), [], (bodyKids customElement).
  split; [prove_rep|prove_NoDup].
Defined.

Lemma isSafeUrl_ignores_hidden_units_witness :
  removeAll isControlOrSpace (lit " java script:x")
  = removeAll isControlOrSpace (lit "javascript:x")
  /\ isSafeUrl latinLowerCase (Some (lit " java script:x"))
     = isSafeUrl latinLowerCase (Some (lit "javascript:x")).
Proof.
  split; [reflexivity|].
  apply isSafeUrl_ignores_hidden_units. reflexivity.
Defined.

Lemma allowed_attributes_survive_witness :
  let attrs := [(lit "href", lit "/docs"); (lit "onclick", lit "x()");
                (lit "title", lit "t")] in
  has OBJECT_PROTOTYPE_KEYS (lit "a") = false
  /\ NoDup attrs.*1
  /\ forallb lowerCaseName attrs = true
  /\ sanitizeAttributes latinLowerCase (lit "a") attrs
     = Return [(lit "href", lit "/docs"); (lit "title", lit "t")]
  /\ getAttribute (List.filter (keepAttr latinLowerCase (lit "a")) attrs)
       (lit "href")
     = Some (lit "/docs").
Proof.
  intros attrs.
  assert (Hnd : NoDup attrs.*1) by prove_NoDup.
  destruct (allowed_attributes_survive latinLowerCase (lit "a") attrs
              eq_refl Hnd eq_refl) as [Hrun Hget].
  refine (conj eq_refl (conj Hnd (conj eq_refl (conj Hrun _)))).
  apply Hget; [|reflexivity]. left.
Defined.

Lemma attribute_loop_returns_witness :
  has SAFE_ELEMENTS (lit "p") = true
  /\ exists out,
       sanitizeAttributes latinLowerCase (lit "p")
         [(lit "id", lit "a"); (lit "id", lit "b"); (lit "style", lit "c")]
       = Return out
       /\ sublist out
            [(lit "id", lit "a"); (lit "id", lit "b"); (lit "style", lit "c")].
Proof.
  split; [reflexivity|].
  apply attribute_loop_returns. reflexivity.
Defined.

Lemma link_hardener_idempotent_witness :
  let attrs := [(lit "target", lit "_blank"); (lit "rel", lit "NoFollow")] in
  ensureSafeLinkAttrs latinLowerCase (lit "A") attrs
  = [(lit "target", lit "_blank");
     (lit "rel", lit "nofollow noopener noreferrer")]
  /\ ensureSafeLinkAttrs latinLowerCase (lit "A")
       (ensureSafeLinkAttrs latinLowerCase (lit "A") attrs)
     = ensureSafeLinkAttrs latinLowerCase (lit "A") attrs.
Proof.
  intros attrs. split; [reflexivity|].
  exact (link_hardener_idempotent latinLowerCase latinLowerCase_idem
           latinLowerCase_cut latinLowerCase_join (lit "A") attrs).
Defined.

Lemma link_hardener_places_rel_witness :
  let attrs := [(lit "href", lit "https://x.com"); (lit "target", lit "_blank")] in
  toLowerCase latinLowerCase (lit "A") = lit "a"
  /\ getAttribute attrs (lit "target") = Some (lit "_blank")
  /\ ensureSafeLinkAttrs latinLowerCase (lit "A") attrs
     = attrs ++ [(lit "rel", lit "noopener noreferrer")].
Proof.
  intros attrs. refine (conj eq_refl (conj eq_refl _)).
  apply (proj1 (link_hardener_places_rel latinLowerCase (lit "A") attrs
                  eq_refl eq_refl)).
  reflexivity.
Defined.

Lemma parentless_element_untouched_witness :
  let h := remove (nodes (load scriptWithBold)) 1 in
  h !! 1 = Some (Node (ElementNode (lit "SCRIPT") []) None [2])
  /\ has SAFE_ELEMENTS (toLowerCase latinLowerCase (lit "SCRIPT")) = false
  /\ sanitizeElement latinLowerCase h 1 = Return h.
Proof.
  intros h. refine (conj eq_refl (conj eq_refl _)).
  apply (proj1 (parentless_element_untouched latinLowerCase h 1 (lit "SCRIPT")
                  [] [2] eq_refl eq_refl)).
Defined.

Lemma walk_keeps_text_and_tags_witness :
  exists h',
    walkAndSanitize latinLowerCase (nodes (load customElement)) 0 = Return h'
    /\ length h' = length (nodes (load customElement))
    /\ exists p' cs', h' !! 2 = Some (Node (TextNode (lit "hello")) p' cs').
Proof.
  destruct (walk_refines latinLowerCase (nodes (load customElement)) None 0
              (lit "BODY") [] (bodyKids customElement)) as (h' & Hwalk & _);
    [prove_rep|prove_NoDup|].
  exists h'. split; [exact Hwalk|].
  destruct (walk_keeps_text_and_tags latinLowerCase _ _ _ Hwalk)
    as (Hlen & Htext & _).
  split; [exact Hlen|].
  apply (Htext 2 (lit "hello") (Some 1) []). reflexivity.
Defined.

Lemma walk_keeps_document_wellFormed_witness :
  wellFormed (load customElement)
  /\ exists h',
       walkAndSanitize latinLowerCase (nodes (load customElement))
                       (body (load customElement))
       = Return h'
       /\ wellFormed (Document h' (body (load customElement))).
Proof.
  split; [exact wellFormed_customElement|].
  destruct (walk_keeps_document_wellFormed latinLowerCase (load customElement)
              wellFormed_customElement) as (h' & Hwalk & Hwf & _).
  exists h'. split; [exact Hwalk|exact Hwf].
Defined.

Lemma walk_keeps_document_order_witness :
  wellFormed (load scriptInParagraph)
  /\ exists h',
       walkAndSanitize latinLowerCase (nodes (load scriptInParagraph))
                       (body (load scriptInParagraph)) = Return h'
       /\ sublist (descendants (length h') h' (body (load scriptInParagraph)))
                  (descendants (length (nodes (load scriptInParagraph)))
                               (nodes (load scriptInParagraph))
                               (body (load scriptInParagraph))).
Proof.
  split; [exact wellFormed_scriptInParagraph|].
  exact (walk_keeps_document_order latinLowerCase (load scriptInParagraph)
           wellFormed_scriptInParagraph).
Defined.

Lemma walk_keeps_text_outside_drops_witness :
  wellFormed (load scriptInParagraph)
  /\ exists h',
       walkAndSanitize latinLowerCase (nodes (load scriptInParagraph))
                       (body (load scriptInParagraph)) = Return h'
       /\ List.flat_map texts (contents h' (body (load scriptInParagraph)))
          = [lit "hi"].
Proof.
  split; [exact wellFormed_scriptInParagraph|].
  destruct (walk_keeps_text_outside_drops latinLowerCase
              (load scriptInParagraph) wellFormed_scriptInParagraph)
    as (h' & Hwalk & Htexts).
  exists h'. split; [exact Hwalk|]. rewrite Htexts. reflexivity.
Defined.

Lemma walk_leaves_clean_markup_alone_witness :
  wellFormed (load linkMarkupAgain)
  /\ forallb (isClean latinLowerCase)
       (contents (nodes (load linkMarkupAgain)) (body (load linkMarkupAgain)))
     = true
  /\ exists h',
       walkAndSanitize latinLowerCase (nodes (load linkMarkupAgain))
                       (body (load linkMarkupAgain))
       = Return h'
       /\ contents h' (body (load linkMarkupAgain))
          = contents (nodes (load linkMarkupAgain)) (body (load linkMarkupAgain)).
Proof.
  refine (conj wellFormed_linkMarkupAgain (conj eq_refl _)).
  exact (walk_leaves_clean_markup_alone latinLowerCase (load linkMarkupAgain)
           wellFormed_linkMarkupAgain eq_refl).
Defined.

Lemma drop_unlinks_subtree_witness :
  let h := nodes (load scriptWithBold) in
  let kids := [TElem 2 (lit "B") [] [TText 3 (lit "x")]] in
  rep h None (TElem 0 (lit "BODY") [] [TElem 1 (lit "SCRIPT") [] kids])
  /\ has ALWAYS_DROP (toLowerCase latinLowerCase (lit "SCRIPT")) = true
  /\ exists h',
       sanitizeElement latinLowerCase h 1 = Return h'
       /\ rep h' None (TElem 0 (lit "BODY") [] [])
       /\ rep h' None (TElem 1 (lit "SCRIPT") [] kids).
Proof.
  intros h kids.
  assert (Hrep : rep h None (TElem 0 (lit "BODY") []
                               ([] ++ TElem 1 (lit "SCRIPT") [] kids :: [])))
    by prove_rep.
  assert (Hnd : NoDup (ids (TElem 0 (lit "BODY") []
                              ([] ++ TElem 1 (lit "SCRIPT") [] kids :: []))))
    by prove_NoDup.
  refine (conj Hrep (conj eq_refl _)).
  destruct (drop_unlinks_subtree latinLowerCase h None 0 1 (lit "BODY")
              (lit "SCRIPT") [] [] [] [] kids Hrep Hnd eq_refl)
    as (h' & Hstep & Hpa & Hel & _).
  exists h'. exact (conj Hstep (conj Hpa Hel)).
Defined.

Lemma allowed_names_closed_world_witness :
  isAllowedAttr latinLowerCase (lit "img") (lit "ALT") = Return true
  /\ toLowerCase latinLowerCase (lit "ALT") ∈ List.map lit
       ["class"; "id"; "title"; "role"; "href"; "target"; "rel";
        "src"; "alt"; "width"; "height"]%string.
Proof.
  split; [reflexivity|].
  apply (allowed_names_closed_world latinLowerCase (lit "img")). reflexivity.
Defined.

Lemma hardened_rel_is_canonical_witness :
  let attrs := [(lit "target", lit "_blank"); (lit "rel", lit "  NoFollow  nofollow ")] in
  toLowerCase latinLowerCase (lit "A") = lit "a"
  /\ getAttribute attrs (lit "target") = Some (lit "_blank")
  /\ exists v,
       getAttribute (ensureSafeLinkAttrs latinLowerCase (lit "A") attrs)
         (lit "rel") = Some v
       /\ toLowerCase latinLowerCase v = v
       /\ NoDup (relTokens v)
       /\ join (relTokens v) = v.
Proof.
  intros attrs. refine (conj eq_refl (conj eq_refl _)).
  exact (hardened_rel_is_canonical latinLowerCase latinLowerCase_idem
           latinLowerCase_cut latinLowerCase_join (lit "A") attrs
           eq_refl eq_refl).
Defined.
